(** * sheep/gateway.c: the replication gateway of sheepdog

    A shallow embedding of [src/sheep/gateway.c] and the properties of the
    replica fan-out / fan-in protocol that its specification states.

    The gateway talks to the rest of the daemon (connection pool, object
    cache, local store, transport, resolver, [poll], [random]) only through
    calls.  Each such call is an [event]; the answer of a collaborator may
    depend on everything that happened before, so the collaborators are
    functions of the history of events.  The gateway functions themselves
    are written in a state-and-error monad: a computation reads the history
    and yields an outcome and the events it adds.  Log output ([sd_debug],
    [sd_err], [sd_warn]) is not modelled.

    Contents: machine integers, data model, events and monad; the
    collaborators ([Externals]); the functions of [gateway.c] in the order
    of the source; the vocabulary of the statements; a small scripted
    cluster; then the properties: the forward session, the waiter pass by
    pass and as a transition system, the send phase, the fan-out as a
    whole, termination, the read path, and the claims of the
    specification. *)

From stdpp Require Import base tactics option list numbers.
From Stdlib Require Import ZArith Lia.

Local Open Scope Z_scope.

(** ** Machine integers

    [int] is 32 bits wide and two's complement; addition and subtraction wrap
    around, and [%] truncates towards zero. *)

Definition INT_MIN : Z := - 2 ^ 31.
Definition INT_MAX : Z := 2 ^ 31 - 1.

Definition int_wrap (z : Z) : Z := (z + 2 ^ 31) mod 2 ^ 32 - 2 ^ 31.
Definition int_add (a b : Z) : Z := int_wrap (a + b).
Definition int_sub (a b : Z) : Z := int_wrap (a - b).
Definition int_rem (a b : Z) : Z := Z.rem a b.

(** [<poll.h>] and [<errno.h>] on Linux. *)
Definition POLLIN : Z := 1.
Definition POLLERR : Z := 8.
Definition POLLHUP : Z := 16.
Definition POLLNVAL : Z := 32.
Definition EINTR : Z := 4.

(** ** Data model

    The structures below that [gateway.c] only uses are declared in headers
    that are not part of the source at hand; they are modelled from the
    fields the gateway names and from the data model of the specification.
    [struct forward_info_entry], [struct forward_info] and
    [struct pfd_info] are declared in [gateway.c] itself. *)

(** Modelled from the spec: [struct node_id] (declaration missing), the
    stable identity of a physical node, "address + port equivalent". *)
Record node_id := { addr : Z; port : Z }.

(** Modelled from the spec: [struct sd_node] (declaration missing), a
    physical node; the gateway only reads its [nid]. *)
Record sd_node := { nid : node_id; zone : Z }.

(** Modelled from the spec: [struct sd_vnode] (declaration missing), an
    entry of the hash ring; many map to one physical node. *)
Record sd_vnode := { node : sd_node; hash : Z }.

(** Modelled from the spec: [struct sockfd] (declaration missing), a pooled
    connection handle; the gateway reads its descriptor [fd]. *)
Record sockfd := { fd : Z; idx : Z }.

(** [struct pollfd] of [<poll.h>]. *)
Record pollfd := { pfd_fd : Z; events : Z; revents : Z }.

(** Modelled from the spec: [struct sd_req] (declaration missing), the
    request header.  The fields are those the gateway names ([proto_ver],
    [opcode], [epoch], [data_length], [obj.oid]); the rest of the header is
    kept as raw words. *)
Record sd_req := {
  proto_ver : Z;
  opcode : Z;
  epoch : Z;
  data_length : Z;
  obj_oid : Z;
  req_other : list Z
}.

(** Modelled from the spec: [struct sd_rsp] (declaration missing), the
    response header; it overlays [struct sd_req] in memory, and the gateway
    reads its [result] only. *)
Record sd_rsp := { result : Z; rsp_other : list Z }.

(** Modelled from the spec: [struct vnode_info] (declaration missing), the
    resolver snapshot a request carries; the gateway passes its [vroot] on
    to the resolver. *)
Record vnode_info := { vroot : list sd_vnode }.

(** Modelled from the spec: [struct request] (declaration missing): request
    header, response buffer, payload buffer, origin flag, and resolver
    snapshot. *)
Record request := {
  rq : sd_req;
  rp : sd_rsp;
  data : list Z;
  local : bool;
  vinfo : vnode_info
}.

Definition set_rp (req : request) (r : sd_rsp) : request :=
  {| rq := rq req; rp := r; data := data req; local := local req;
     vinfo := vinfo req |}.

Definition set_data (req : request) (d : list Z) : request :=
  {| rq := rq req; rp := rp req; data := d; local := local req;
     vinfo := vinfo req |}.

(** [struct forward_info_entry] and [struct forward_info]. *)
Record forward_info_entry := {
  pfd : pollfd;
  ent_nid : node_id;
  ent_sfd : sockfd
}.

Record forward_info := {
  ent : list forward_info_entry;
  nr_sent : Z
}.

(** [struct pfd_info]; only the first [nr] slots of [pfds] are ever
    written or read, so [pi_pfds] holds just those. *)
Record pfd_info := { pi_pfds : list pollfd; pi_nr : Z }.

(** What [poll] hands back: its return value, [errno], and the [revents]
    it stored for the descriptors it was given. *)
Record poll_result := {
  pollret : Z;
  poll_errno : Z;
  poll_revents : list Z
}.

(** ** Arrays

    A C array is a list; an access outside of it is a fault. *)

Definition array_get {A} (l : list A) (i : Z) : option A :=
  if decide (0 ≤ i) then l !! Z.to_nat i else None.

Definition array_set {A} (l : list A) (i : Z) (x : A) : option (list A) :=
  if decide (0 ≤ i < Z.of_nat (length l)) then Some (<[Z.to_nat i := x]> l)
  else None.

(** [memmove(a + dst, a + src, n * sizeof *a)] within one array. *)
Definition array_memmove {A} (l : list A) (dst src n : Z) : option (list A) :=
  if decide (0 ≤ dst ∧ 0 ≤ src ∧ 0 ≤ n ∧
             dst + n ≤ Z.of_nat (length l) ∧ src + n ≤ Z.of_nat (length l))
  then Some (take (Z.to_nat dst) l
             ++ take (Z.to_nat n) (drop (Z.to_nat src) l)
             ++ drop (Z.to_nat (dst + n)) l)
  else None.

(** ** Events: the calls the gateway makes *)

Inductive event :=
  | EvBypassObjectCache (oid : Z) (answer : bool)
  | EvObjectCacheHandle (oid : Z) (ret : Z)
  | EvOidToVnodes (oid : Z) (nr_copies : Z)
  | EvOidToNodes (oid : Z) (nr_copies : Z)
  | EvPeerReadObj (oid : Z) (ret : Z)
  | EvRandom (r : Z)
  | EvSheepExecReq (n : node_id) (hdr : sd_req) (ret : Z)
  | EvSockfdCacheGet (n : node_id) (sfd : option sockfd)
  | EvSendReq (sock : Z) (hdr : sd_req) (wlen : Z) (ret : Z)
  | EvSockfdCacheDelNode (n : node_id)
  | EvSockfdCachePut (n : node_id) (sfd : sockfd)
  | EvSockfdCacheDel (n : node_id) (sfd : sockfd)
  | EvPoll (fds : list pollfd) (nfds : Z) (timeout : Z) (res : poll_result)
  | EvSheepNeedRetry (ep : Z) (answer : bool)
  | EvDoRead (sock : Z) (ret : Z) (rsp : sd_rsp)
  | EvPanic.

Definition history := list event.

(** ** The monad

    A computation reads the history so far and yields an outcome together
    with the events it added.  Besides returning, a computation can
    [panic], fault on an array access, or run out of the fuel that bounds
    the waiter's [goto again] loop. *)

Inductive outcome (A : Type) :=
  | Returned (a : A)
  | Panicked
  | Faulted
  | OutOfFuel.
Arguments Returned {A} a.
Arguments Panicked {A}.
Arguments Faulted {A}.
Arguments OutOfFuel {A}.

Definition M (A : Type) : Type := history → outcome A * list event.

Definition run {A} (m : M A) (h : history) : outcome A * list event := m h.

Definition M_ret {A} (a : A) : M A := λ _, (Returned a, []).

Definition M_bind {A B} (f : A → M B) (m : M A) : M B :=
  λ h,
    match m h with
    | (Returned a, evs) =>
        let '(o, evs') := f a (h ++ evs) in (o, evs ++ evs')
    | (Panicked, evs) => (Panicked, evs)
    | (Faulted, evs) => (Faulted, evs)
    | (OutOfFuel, evs) => (OutOfFuel, evs)
    end.

#[global] Instance M_mret : MRet M := @M_ret.
#[global] Instance M_mbind : MBind M := @M_bind.

Definition panic {A} : M A := λ _, (Panicked, [EvPanic]).
Definition out_of_fuel {A} : M A := λ _, (OutOfFuel, []).

(** An array access inside a computation. *)
Definition lift {A} (o : option A) : M A :=
  λ _, match o with Some a => (Returned a, []) | None => (Faulted, []) end.

(** A call to a collaborator: ask it, given the history, and log the call. *)
Definition call {A} (answer : history → A) (log : A → event) : M A :=
  λ h, let a := answer h in (Returned a, [log a]).

(** ** The collaborators

    Everything [gateway.c] takes from [sheep_priv.h] and the headers behind
    it: constants, pure helpers, and the stateful collaborators, whose
    answers are functions of the history. *)

Class Externals := {
  (** result codes, protocol version, retry budget, poll period *)
  SD_RES_SUCCESS : Z;
  SD_RES_NETWORK_ERROR : Z;
  SD_RES_READONLY : Z;
  SD_SHEEP_PROTO_VER : Z;
  MAX_RETRY_COUNT : Z;
  POLL_TIMEOUT : Z;
  (** [sys->enable_object_cache] *)
  enable_object_cache : bool;
  (** the memory [struct forward_info fi] is allocated in: [SD_MAX_NODES]
      slots that hold whatever the stack held *)
  fi_on_stack : forward_info;
  (** pure helpers *)
  gateway_to_peer_opcode : Z → Z;
  oid_is_readonly : Z → bool;
  get_req_copy_number : request → Z;
  vnode_is_local : sd_vnode → bool;
  (** the resolver: the slots of the output array it fills *)
  ext_oid_to_vnodes : Z → list sd_vnode → Z → list sd_vnode;
  ext_oid_to_nodes : Z → list sd_vnode → Z → list sd_node;
  (** object cache *)
  ext_bypass_object_cache : history → request → bool;
  ext_object_cache_handle_request : history → request → Z * request;
  (** local store *)
  ext_peer_read_obj : history → request → Z * request;
  (** [random()] *)
  ext_random : history → Z;
  (** single-shot RPC: result, the response left in the header buffer, and
      the data buffer afterwards *)
  ext_sheep_exec_req : history → node_id → sd_req → list Z → Z * sd_rsp * list Z;
  (** connection pool and transport *)
  ext_sockfd_cache_get : history → node_id → option sockfd;
  ext_send_req : history → Z → sd_req → list Z → Z → Z → Z → Z;
  ext_do_read : history → Z → Z → Z → Z * sd_rsp;
  (** [poll] and the retry oracle *)
  ext_poll : history → list pollfd → Z → Z → poll_result;
  ext_sheep_need_retry : history → Z → bool
}.

Section Gateway.
Context {E : Externals}.

(** *** The calls, as computations *)

Definition bypass_object_cache (req : request) : M bool :=
  call (λ h, ext_bypass_object_cache h req)
       (EvBypassObjectCache (obj_oid (rq req))).

Definition object_cache_handle_request (req : request) : M (Z * request) :=
  call (λ h, ext_object_cache_handle_request h req)
       (λ a, EvObjectCacheHandle (obj_oid (rq req)) (fst a)).

Definition oid_to_vnodes (oid : Z) (vi : vnode_info) (nr_copies : Z)
    : M (list sd_vnode) :=
  call (λ _, ext_oid_to_vnodes oid (vroot vi) nr_copies)
       (λ _, EvOidToVnodes oid nr_copies).

Definition oid_to_nodes (oid : Z) (vi : vnode_info) (nr_copies : Z)
    : M (list sd_node) :=
  call (λ _, ext_oid_to_nodes oid (vroot vi) nr_copies)
       (λ _, EvOidToNodes oid nr_copies).

Definition peer_read_obj (req : request) : M (Z * request) :=
  call (λ h, ext_peer_read_obj h req)
       (λ a, EvPeerReadObj (obj_oid (rq req)) (fst a)).

Definition random : M Z := call ext_random EvRandom.

Definition sheep_exec_req (n : node_id) (hdr : sd_req) (d : list Z)
    : M (Z * sd_rsp * list Z) :=
  call (λ h, ext_sheep_exec_req h n hdr d)
       (λ a, EvSheepExecReq n hdr (fst (fst a))).

Definition sockfd_cache_get (n : node_id) : M (option sockfd) :=
  call (λ h, ext_sockfd_cache_get h n) (EvSockfdCacheGet n).

Definition send_req (sock : Z) (hdr : sd_req) (d : list Z) (wlen ep retries : Z)
    : M Z :=
  call (λ h, ext_send_req h sock hdr d wlen ep retries)
       (EvSendReq sock hdr wlen).

Definition sockfd_cache_del_node (n : node_id) : M unit :=
  call (λ _, tt) (λ _, EvSockfdCacheDelNode n).

Definition sockfd_cache_put (n : node_id) (sfd : sockfd) : M unit :=
  call (λ _, tt) (λ _, EvSockfdCachePut n sfd).

Definition sockfd_cache_del (n : node_id) (sfd : sockfd) : M unit :=
  call (λ _, tt) (λ _, EvSockfdCacheDel n sfd).

Definition poll (fds : list pollfd) (nfds timeout : Z) : M poll_result :=
  call (λ h, ext_poll h fds nfds timeout) (EvPoll fds nfds timeout).

Definition sheep_need_retry (ep : Z) : M bool :=
  call (λ h, ext_sheep_need_retry h ep) (EvSheepNeedRetry ep).

Definition do_read (sock ep retries : Z) : M (Z * sd_rsp) :=
  call (λ h, ext_do_read h sock ep retries)
       (λ a, EvDoRead sock (fst a) (snd a)).

(** *** [gateway_init_fwd_hdr] *)

Definition set_opcode (h : sd_req) (op : Z) : sd_req :=
  {| proto_ver := proto_ver h; opcode := op; epoch := epoch h;
     data_length := data_length h; obj_oid := obj_oid h;
     req_other := req_other h |}.

Definition set_proto_ver (h : sd_req) (v : Z) : sd_req :=
  {| proto_ver := v; opcode := opcode h; epoch := epoch h;
     data_length := data_length h; obj_oid := obj_oid h;
     req_other := req_other h |}.

Definition gateway_init_fwd_hdr (hdr : sd_req) : sd_req :=
  let fwd := hdr in                                   (* memcpy *)
  let fwd := set_opcode fwd (gateway_to_peer_opcode (opcode hdr)) in
  set_proto_ver fwd SD_SHEEP_PROTO_VER.

(** *** [gateway_read_obj] *)

(** The first loop.  It leaves either through [goto out] ([inl]) or by
    falling through to the second loop ([inr]), with [ret] and the request
    as they are at that point. *)
Fixpoint read_local_loop (n : nat) (i : Z) (obj_vnodes : list sd_vnode)
    (req : request) (ret : Z) : M (Z * request + Z * request) :=
  match n with
  | O => mret (inr (ret, req))
  | S n' =>
      v ← lift (array_get obj_vnodes i);
      if negb (vnode_is_local v) then
        read_local_loop n' (i + 1) obj_vnodes req ret
      else
        '(ret, req) ← peer_read_obj req;
        if decide (ret = SD_RES_SUCCESS) then mret (inl (ret, req))
        else mret (inr (ret, req))                    (* sd_err; break *)
  end.

(** The second loop, entered with the offset [j]. *)
Fixpoint read_remote_loop (n : nat) (i j nr_copies : Z)
    (obj_vnodes : list sd_vnode) (req : request) (ret : Z) : M (Z * request) :=
  match n with
  | O => mret (ret, req)
  | S n' =>
      let idx := int_rem (int_add i j) nr_copies in
      v ← lift (array_get obj_vnodes idx);
      if vnode_is_local v then
        read_remote_loop n' (i + 1) j nr_copies obj_vnodes req ret
      else
        let fwd_hdr := gateway_init_fwd_hdr (rq req) in
        '(ret, rsp, d) ← sheep_exec_req (nid (node v)) fwd_hdr (data req);
        let req := set_data req d in
        if decide (ret ≠ SD_RES_SUCCESS) then
          read_remote_loop n' (i + 1) j nr_copies obj_vnodes req ret
        else
          mret (ret, set_rp req rsp)                  (* memcpy; break *)
  end.

Definition gateway_read_obj (req : request) : M (Z * request) :=
  let ret := SD_RES_SUCCESS in
  let oid := obj_oid (rq req) in
  use_cache ←
    (if enable_object_cache && negb (local req) then
       b ← bypass_object_cache req; mret (negb b)
     else mret false);
  if use_cache : bool then object_cache_handle_request req
  else
    let nr_copies := get_req_copy_number req in
    obj_vnodes ← oid_to_vnodes oid (vinfo req) nr_copies;
    first ← read_local_loop (Z.to_nat nr_copies) 0 obj_vnodes req ret;
    match first with
    | inl out => mret out
    | inr (ret, req) =>
        r ← random;
        let j := int_wrap r in
        read_remote_loop (Z.to_nat nr_copies) 0 j nr_copies obj_vnodes req ret
    end.

(** *** The forward session *)

Definition set_pfd_fd (e : forward_info_entry) (d : Z) : forward_info_entry :=
  {| pfd := {| pfd_fd := d; events := events (pfd e);
               revents := revents (pfd e) |};
     ent_nid := ent_nid e; ent_sfd := ent_sfd e |}.

(** The live entries of a session: the first [nr_sent] slots. *)
Definition pending (fi : forward_info) : list forward_info_entry :=
  take (Z.to_nat (nr_sent fi)) (ent fi).

Definition forward_info_update (fi : forward_info) (pos : Z)
    : option forward_info :=
  let n := int_sub (nr_sent fi) 1 in                  (* fi->nr_sent-- *)
  slots ← array_memmove (ent fi) pos (pos + 1) (int_sub n pos);
  Some {| ent := slots; nr_sent := n |}.

Definition finish_one_entry (fi : forward_info) (i : Z) : M forward_info :=
  e ← lift (array_get (ent fi) i);
  sockfd_cache_put (ent_nid e) (ent_sfd e);;
  lift (forward_info_update fi i).

Definition finish_one_entry_err (fi : forward_info) (i : Z) : M forward_info :=
  e ← lift (array_get (ent fi) i);
  sockfd_cache_del (ent_nid e) (ent_sfd e);;
  lift (forward_info_update fi i).

Fixpoint pfd_info_init_loop (n : nat) (i : Z) (slots : list forward_info_entry)
    : option (list pollfd) :=
  match n with
  | O => Some []
  | S n' =>
      e ← array_get slots i;
      rest ← pfd_info_init_loop n' (i + 1) slots;
      Some (pfd e :: rest)
  end.

Definition pfd_info_init (fi : forward_info) : option pfd_info :=
  fds ← pfd_info_init_loop (Z.to_nat (nr_sent fi)) 0 (ent fi);
  Some {| pi_pfds := fds; pi_nr := nr_sent fi |}.

(** [size_t] is 64 bits wide; an [int] argument is converted to it. *)
Definition size_t_of_int (z : Z) : Z := z mod 2 ^ 64.

Fixpoint forward_info_init_loop (n : nat) (i : Z)
    (slots : list forward_info_entry) : option (list forward_info_entry) :=
  match n with
  | O => Some slots
  | S n' =>
      e ← array_get slots i;
      slots ← array_set slots i (set_pfd_fd e (-1));
      forward_info_init_loop n' (i + 1) slots
  end.

Definition forward_info_init (fi : forward_info) (nr_to_send : Z)
    : option forward_info :=
  slots ← forward_info_init_loop (Z.to_nat nr_to_send) 0 (ent fi);
  Some {| ent := slots; nr_sent := 0 |}.

Definition forward_info_advance (fi : forward_info) (n : node_id) (sfd : sockfd)
    : option forward_info :=
  e ← array_get (ent fi) (nr_sent fi);
  let e := {| pfd := {| pfd_fd := fd sfd; events := POLLIN;
                        revents := revents (pfd e) |};
              ent_nid := n; ent_sfd := sfd |} in
  slots ← array_set (ent fi) (nr_sent fi) e;
  Some {| ent := slots; nr_sent := int_add (nr_sent fi) 1 |}.

(** *** [wait_forward_request] *)

(** The variables that live across [goto again]. *)
Record wait_state := {
  w_fi : forward_info;
  w_err_ret : Z;
  w_repeat : Z;
  w_rp : sd_rsp
}.

Definition with_repeat (st : wait_state) (r : Z) : wait_state :=
  {| w_fi := w_fi st; w_err_ret := w_err_ret st; w_repeat := r;
     w_rp := w_rp st |}.

(** [pi.pfds] after [poll] stored the [revents]. *)
Definition store_revents (fds : list pollfd) (revs : list Z) : list pollfd :=
  imap (λ i p, {| pfd_fd := pfd_fd p; events := events p;
                  revents := default 0 (revs !! i) |}) fds.

(** [for (i = 0; i < nr_sent; i++) sockfd_cache_del(...)] *)
Fixpoint close_all_loop (n : nat) (i : Z) (fi : forward_info) : M unit :=
  match n with
  | O => mret tt
  | S n' =>
      e ← lift (array_get (ent fi) i);
      sockfd_cache_del (ent_nid e) (ent_sfd e);;
      close_all_loop n' (i + 1) fi
  end.

(** [for (i = 0; i < nr_sent; i++) if (pi.pfds[i].revents & POLLIN) break;]
    yields the value of [i] after the loop. *)
Fixpoint find_pollin_loop (n : nat) (i : Z) (fds : list pollfd) : option Z :=
  match n with
  | O => Some i
  | S n' =>
      p ← array_get fds i;
      if decide (Z.land (revents p) POLLIN ≠ 0) then Some i
      else find_pollin_loop n' (i + 1) fds
  end.

(** The label [out]: go round again, or return [err_ret]. *)
Definition wait_out (st : wait_state) : wait_state + Z * sd_rsp :=
  if decide (0 < nr_sent (w_fi st)) then inl st
  else inr (w_err_ret st, w_rp st).

(** One pass, from the label [again] to the next [goto again] ([inl]) or to
    a [return] ([inr]). *)
Definition wait_pass (ep : Z) (st : wait_state) : M (wait_state + Z * sd_rsp) :=
  let fi := w_fi st in
  pi ← lift (pfd_info_init fi);
  res ← poll (pi_pfds pi) (pi_nr pi) (1000 * POLL_TIMEOUT);
  let fds := store_revents (pi_pfds pi) (poll_revents res) in
  if decide (pollret res < 0) then
    if decide (poll_errno res = EINTR) then mret (inl st)
    else panic
  else if decide (pollret res = 0) then
    retry ← sheep_need_retry ep;
    if retry && bool_decide (w_repeat st ≠ 0) then
      mret (inl (with_repeat st (int_sub (w_repeat st) 1)))
    else
      close_all_loop (Z.to_nat (nr_sent fi)) 0 fi;;
      mret (inr (SD_RES_NETWORK_ERROR, w_rp st))
  else
    i ← lift (find_pollin_loop (Z.to_nat (nr_sent fi)) 0 fds);
    if decide (i < nr_sent fi) then
      p ← lift (array_get fds i);
      let re := revents p in
      if decide (Z.land re (Z.lor POLLERR (Z.lor POLLHUP POLLNVAL)) ≠ 0) then
        fi ← finish_one_entry_err fi i;
        mret (wait_out {| w_fi := fi; w_err_ret := SD_RES_NETWORK_ERROR;
                          w_repeat := w_repeat st; w_rp := w_rp st |})
      else
        '(r, rsp) ← do_read (pfd_fd p) ep MAX_RETRY_COUNT;
        if decide (r ≠ 0) then
          fi ← finish_one_entry_err fi i;
          mret (wait_out {| w_fi := fi; w_err_ret := SD_RES_NETWORK_ERROR;
                            w_repeat := w_repeat st; w_rp := rsp |})
        else
          let ret := int_wrap (result rsp) in        (* int ret = rsp->result *)
          let err_ret :=
            if decide (ret ≠ SD_RES_SUCCESS) then ret else w_err_ret st in
          fi ← finish_one_entry fi i;
          mret (wait_out {| w_fi := fi; w_err_ret := err_ret;
                            w_repeat := w_repeat st; w_rp := rsp |})
    else mret (wait_out st).

Fixpoint wait_loop (fuel : nat) (ep : Z) (st : wait_state) : M (Z * sd_rsp) :=
  match fuel with
  | O => out_of_fuel
  | S fuel' =>
      next ← wait_pass ep st;
      match next with
      | inl st' => wait_loop fuel' ep st'
      | inr v => mret v
      end
  end.

Definition wait_forward_request (fuel : nat) (fi : forward_info)
    (req : request) : M (Z * request) :=
  '(ret, rsp) ← wait_loop fuel (epoch (rq req))
                  {| w_fi := fi; w_err_ret := SD_RES_SUCCESS;
                     w_repeat := MAX_RETRY_COUNT; w_rp := rp req |};
  mret (ret, set_rp req rsp).

(** *** [gateway_forward_request] *)

Fixpoint forward_send_loop (n : nat) (i : Z) (req : request) (hdr : sd_req)
    (wlen : Z) (target_nodes : list sd_node) (err_ret : Z) (fi : forward_info)
    : M (Z * forward_info) :=
  match n with
  | O => mret (err_ret, fi)
  | S n' =>
      t ← lift (array_get target_nodes i);
      let target := nid t in
      sfd ← sockfd_cache_get target;
      match sfd with
      | None => mret (SD_RES_NETWORK_ERROR, fi)       (* break *)
      | Some sfd =>
          ret ← send_req (fd sfd) hdr (data req) wlen (epoch (rq req))
                  MAX_RETRY_COUNT;
          if decide (ret ≠ 0) then
            sockfd_cache_del_node target;;
            mret (SD_RES_NETWORK_ERROR, fi)           (* break *)
          else
            fi ← lift (forward_info_advance fi target sfd);
            forward_send_loop n' (i + 1) req hdr wlen target_nodes err_ret fi
      end
  end.

Definition gateway_forward_request (fuel : nat) (req : request)
    : M (Z * request) :=
  let err_ret := SD_RES_SUCCESS in
  let oid := obj_oid (rq req) in
  let nr_copies := get_req_copy_number req in
  let hdr := gateway_init_fwd_hdr (rq req) in
  let wlen := data_length hdr in
  target_nodes ← oid_to_nodes oid (vinfo req) nr_copies;
  fi ← lift (forward_info_init fi_on_stack (size_t_of_int nr_copies));
  '(err_ret, fi) ← forward_send_loop (Z.to_nat nr_copies) 0 req hdr wlen
                     target_nodes err_ret fi;
  if decide (0 < nr_sent fi) then
    '(ret, req) ← wait_forward_request fuel fi req;
    if decide (ret ≠ SD_RES_SUCCESS) then mret (ret, req)
    else mret (err_ret, req)
  else mret (err_ret, req).

(** *** The entry points for writes and removes *)

Definition gateway_write_obj (fuel : nat) (req : request) : M (Z * request) :=
  let oid := obj_oid (rq req) in
  if oid_is_readonly oid then mret (SD_RES_READONLY, req)
  else
    b ← bypass_object_cache req;
    if negb b then object_cache_handle_request req
    else gateway_forward_request fuel req.

Definition gateway_create_and_write_obj (fuel : nat) (req : request)
    : M (Z * request) :=
  let oid := obj_oid (rq req) in
  if oid_is_readonly oid then mret (SD_RES_READONLY, req)
  else
    b ← bypass_object_cache req;
    if negb b then object_cache_handle_request req
    else gateway_forward_request fuel req.

Definition gateway_remove_obj (fuel : nat) (req : request) : M (Z * request) :=
  gateway_forward_request fuel req.

End Gateway.

(** ** Vocabulary of the statements *)

(** The events [evs] happen first, then those of [r]. *)
Definition emit_before {A} (evs : list event) (r : outcome A * list event)
    : outcome A * list event :=
  (r.1, evs ++ r.2).

(** A session is well formed when its live entries fit its array, and the
    array is one a C [int] can index. *)
Definition fi_wf (fi : forward_info) : Prop :=
  0 ≤ nr_sent fi ≤ Z.of_nat (length (ent fi)) ∧
  Z.of_nat (length (ent fi)) ≤ INT_MAX.

(** The connection of an entry, and what the pool sees of it. *)
Definition conn (e : forward_info_entry) : node_id * sockfd :=
  (ent_nid e, ent_sfd e).
Definition release (e : forward_info_entry) : event :=
  EvSockfdCachePut (ent_nid e) (ent_sfd e).
Definition evict (e : forward_info_entry) : event :=
  EvSockfdCacheDel (ent_nid e) (ent_sfd e).

(** The [revents] that [poll] stored for descriptor [i]. *)
Definition revents_at (res : poll_result) (i : nat) : Z :=
  default 0 (poll_revents res !! i).

Definition error_flags (re : Z) : Z :=
  Z.land re (Z.lor POLLERR (Z.lor POLLHUP POLLNVAL)).

(** [i] is the first of [n] descriptors that is readable. *)
Definition first_pollin (res : poll_result) (n i : nat) : Prop :=
  (i < n)%nat ∧ Z.land (revents_at res i) POLLIN ≠ 0 ∧
  ∀ j, (j < i)%nat → Z.land (revents_at res j) POLLIN = 0.

Definition none_pollin (res : poll_result) (n : nat) : Prop :=
  ∀ j, (j < n)%nat → Z.land (revents_at res j) POLLIN = 0.

(** *** Reading a trace *)

(** The connections given back to the pool or evicted from it. *)
Definition released_conn (ev : event) : option (node_id * sockfd) :=
  match ev with
  | EvSockfdCachePut n s | EvSockfdCacheDel n s => Some (n, s)
  | _ => None
  end.
Definition released (evs : list event) : list (node_id * sockfd) :=
  omap released_conn evs.

(** The nodes a connection was asked for, and the connections obtained. *)
Definition attempted_node (ev : event) : option node_id :=
  match ev with EvSockfdCacheGet n _ => Some n | _ => None end.
Definition attempted (evs : list event) : list node_id :=
  omap attempted_node evs.

Definition acquired_conn (ev : event) : option (node_id * sockfd) :=
  match ev with EvSockfdCacheGet n (Some s) => Some (n, s) | _ => None end.
Definition acquired (evs : list event) : list (node_id * sockfd) :=
  omap acquired_conn evs.

Definition send_ret (ev : event) : option Z :=
  match ev with EvSendReq _ _ _ r => Some r | _ => None end.
Definition send_rets (evs : list event) : list Z := omap send_ret evs.

(** The connections on which the request was sent: the k-th connection
    obtained carries the k-th send, and the send returned 0. *)
Definition sent (evs : list event) : list (node_id * sockfd) :=
  fst <$> filter (λ p, p.2 = 0) (zip (acquired evs) (send_rets evs)).

(** A failure of the send phase: no connection, or a failed send. *)
Definition send_failure (ev : event) : bool :=
  match ev with
  | EvSockfdCacheGet _ None => true
  | EvSendReq _ _ _ r => bool_decide (r ≠ 0)
  | _ => false
  end.
Definition send_failed (evs : list event) : bool := existsb send_failure evs.

(** The result codes that replicas delivered in cleanly read responses,
    as the waiter takes them: [ret = rsp->result], an [int]. *)
Definition replied_result (ev : event) : option Z :=
  match ev with
  | EvDoRead _ r rsp =>
      if decide (r = 0) then Some (int_wrap (result rsp)) else None
  | _ => None
  end.
Definition replied (evs : list event) : list Z := omap replied_result evs.

(** The events only the waiter produces. *)
Definition waiter_event (ev : event) : bool :=
  match ev with
  | EvPoll _ _ _ _ | EvSheepNeedRetry _ _ | EvDoRead _ _ _
  | EvSockfdCachePut _ _ | EvSockfdCacheDel _ _ | EvPanic => true
  | _ => false
  end.

(** The events only the send phase produces. *)
Definition sender_event (ev : event) : bool :=
  match ev with
  | EvSockfdCacheGet _ _ | EvSendReq _ _ _ _ | EvSockfdCacheDelNode _ => true
  | _ => false
  end.

(** The remote reads of the read path. *)
Definition remote_read_event (ev : event) : bool :=
  match ev with EvSheepExecReq _ _ _ => true | _ => false end.

(** The fields of [struct sd_req], and their contents. *)
Inductive sd_req_field :=
  | F_proto_ver | F_opcode | F_epoch | F_data_length | F_obj_oid | F_other.

Definition field_of (f : sd_req_field) (h : sd_req) : list Z :=
  match f with
  | F_proto_ver => [proto_ver h]
  | F_opcode => [opcode h]
  | F_epoch => [epoch h]
  | F_data_length => [data_length h]
  | F_obj_oid => [obj_oid h]
  | F_other => req_other h
  end.

(** *** More of the trace, for the further properties *)

(** The connections given back to the pool, and those evicted from it. *)
Definition given_back_conn (ev : event) : option (node_id * sockfd) :=
  match ev with EvSockfdCachePut n s => Some (n, s) | _ => None end.
Definition given_back (evs : list event) : list (node_id * sockfd) :=
  omap given_back_conn evs.

Definition evicted_conn (ev : event) : option (node_id * sockfd) :=
  match ev with EvSockfdCacheDel n s => Some (n, s) | _ => None end.
Definition evicted (evs : list event) : list (node_id * sockfd) :=
  omap evicted_conn evs.

(** The nodes all of whose connections were evicted. *)
Definition evicted_node (ev : event) : option node_id :=
  match ev with EvSockfdCacheDelNode n => Some n | _ => None end.
Definition evicted_nodes (evs : list event) : list node_id :=
  omap evicted_node evs.

(** The connections on which the send failed. *)
Definition failed_sends (evs : list event) : list (node_id * sockfd) :=
  fst <$> filter (λ p, p.2 ≠ 0) (zip (acquired evs) (send_rets evs)).

(** The header and the payload length of every send. *)
Definition send_header (ev : event) : option (sd_req * Z) :=
  match ev with EvSendReq _ hdr wlen _ => Some (hdr, wlen) | _ => None end.
Definition send_headers (evs : list event) : list (sd_req * Z) :=
  omap send_header evs.

(** The results and the headers of the remote reads. *)
Definition exec_ret (ev : event) : option Z :=
  match ev with EvSheepExecReq _ _ r => Some r | _ => None end.
Definition exec_rets (evs : list event) : list Z := omap exec_ret evs.

Definition exec_header (ev : event) : option sd_req :=
  match ev with EvSheepExecReq _ hdr _ => Some hdr | _ => None end.
Definition exec_headers (evs : list event) : list sd_req := omap exec_header evs.

(** The result of every read of a replica, local or remote. *)
Definition read_ret (ev : event) : option Z :=
  match ev with
  | EvPeerReadObj _ r | EvSheepExecReq _ _ r => Some r
  | _ => None
  end.
Definition read_rets (evs : list event) : list Z := omap read_ret evs.

(** The response headers that were read cleanly. *)
Definition clean_response (ev : event) : option sd_rsp :=
  match ev with
  | EvDoRead _ r rsp => if decide (r = 0) then Some rsp else None
  | _ => None
  end.
Definition clean_responses (evs : list event) : list sd_rsp :=
  omap clean_response evs.

(** The response header that [do_read] stored last, [init] if it stored
    none. *)
Definition last_response (init : sd_rsp) (evs : list event) : sd_rsp :=
  foldl (λ acc ev, match ev with EvDoRead _ _ rsp => rsp | _ => acc end)
        init evs.

(** Kinds of calls. *)
Definition poll_call (ev : event) : bool :=
  match ev with EvPoll _ _ _ _ => true | _ => false end.
Definition retry_call (ev : event) : bool :=
  match ev with EvSheepNeedRetry _ _ => true | _ => false end.
Definition local_read_event (ev : event) : bool :=
  match ev with EvPeerReadObj _ _ => true | _ => false end.
Definition cache_event (ev : event) : bool :=
  match ev with
  | EvBypassObjectCache _ _ | EvObjectCacheHandle _ _ => true
  | _ => false
  end.
(** The calls of the read path once it is past the cache check. *)
Definition replica_read_event (ev : event) : bool :=
  match ev with
  | EvOidToVnodes _ _ | EvPeerReadObj _ _ | EvRandom _
  | EvSheepExecReq _ _ _ => true
  | _ => false
  end.

Section Vocabulary.
Context {E : Externals}.

(** What [poll] answers when the waiter polls the session [fi] after [h]. *)
Definition poll_answer (h : history) (fi : forward_info) : poll_result :=
  ext_poll h (pfd <$> pending fi) (nr_sent fi) (1000 * POLL_TIMEOUT).

Definition poll_event (h : history) (fi : forward_info) : event :=
  EvPoll (pfd <$> pending fi) (nr_sent fi) (1000 * POLL_TIMEOUT)
         (poll_answer h fi).

(** The error a session has recorded after the events [evs], starting from
    [init]: an eviction records a network error, a cleanly read non-success
    result records that result, anything else leaves the record alone. *)
Definition session_error_step (acc : Z) (ev : event) : Z :=
  match ev with
  | EvSockfdCacheDel _ _ => SD_RES_NETWORK_ERROR
  | EvDoRead _ r rsp =>
      if decide (r = 0 ∧ int_wrap (result rsp) ≠ SD_RES_SUCCESS)
      then int_wrap (result rsp) else acc
  | _ => acc
  end.
Definition session_error (init : Z) (evs : list event) : Z :=
  foldl session_error_step init evs.

(** One pass of the waiter as a transition: from the state [st] after the
    history [h], to an outcome and the events of the pass. *)
Inductive wait_step (ep : Z) (st : wait_state) (h : history)
    : outcome (wait_state + Z * sd_rsp) → list event → Prop :=
  | step_interrupted :
      pollret (poll_answer h (w_fi st)) < 0 →
      poll_errno (poll_answer h (w_fi st)) = EINTR →
      wait_step ep st h (Returned (inl st)) [poll_event h (w_fi st)]
  | step_poll_failed :
      pollret (poll_answer h (w_fi st)) < 0 →
      poll_errno (poll_answer h (w_fi st)) ≠ EINTR →
      wait_step ep st h Panicked [poll_event h (w_fi st); EvPanic]
  | step_timeout_retry :
      pollret (poll_answer h (w_fi st)) = 0 →
      ext_sheep_need_retry (h ++ [poll_event h (w_fi st)]) ep = true →
      w_repeat st ≠ 0 →
      wait_step ep st h
        (Returned (inl (with_repeat st (int_sub (w_repeat st) 1))))
        [poll_event h (w_fi st); EvSheepNeedRetry ep true]
  | step_timeout_give_up :
      pollret (poll_answer h (w_fi st)) = 0 →
      ext_sheep_need_retry (h ++ [poll_event h (w_fi st)]) ep = false
        ∨ w_repeat st = 0 →
      wait_step ep st h
        (Returned (inr (SD_RES_NETWORK_ERROR, w_rp st)))
        ([poll_event h (w_fi st);
          EvSheepNeedRetry ep
            (ext_sheep_need_retry (h ++ [poll_event h (w_fi st)]) ep)]
         ++ (evict <$> pending (w_fi st)))
  | step_none_ready :
      0 < pollret (poll_answer h (w_fi st)) →
      none_pollin (poll_answer h (w_fi st)) (Z.to_nat (nr_sent (w_fi st))) →
      wait_step ep st h (Returned (wait_out st)) [poll_event h (w_fi st)]
  | step_ready_error (i : nat) e fi' :
      0 < pollret (poll_answer h (w_fi st)) →
      first_pollin (poll_answer h (w_fi st)) (Z.to_nat (nr_sent (w_fi st))) i →
      pending (w_fi st) !! i = Some e →
      error_flags (revents_at (poll_answer h (w_fi st)) i) ≠ 0 →
      fi_wf fi' → pending fi' = delete i (pending (w_fi st)) →
      wait_step ep st h
        (Returned (wait_out {| w_fi := fi'; w_err_ret := SD_RES_NETWORK_ERROR;
                               w_repeat := w_repeat st; w_rp := w_rp st |}))
        [poll_event h (w_fi st); evict e]
  | step_read_failed (i : nat) e fi' r rsp :
      0 < pollret (poll_answer h (w_fi st)) →
      first_pollin (poll_answer h (w_fi st)) (Z.to_nat (nr_sent (w_fi st))) i →
      pending (w_fi st) !! i = Some e →
      error_flags (revents_at (poll_answer h (w_fi st)) i) = 0 →
      ext_do_read (h ++ [poll_event h (w_fi st)]) (pfd_fd (pfd e)) ep
        MAX_RETRY_COUNT = (r, rsp) →
      r ≠ 0 →
      fi_wf fi' → pending fi' = delete i (pending (w_fi st)) →
      wait_step ep st h
        (Returned (wait_out {| w_fi := fi'; w_err_ret := SD_RES_NETWORK_ERROR;
                               w_repeat := w_repeat st; w_rp := rsp |}))
        [poll_event h (w_fi st); EvDoRead (pfd_fd (pfd e)) r rsp; evict e]
  | step_read_ok (i : nat) e fi' rsp :
      0 < pollret (poll_answer h (w_fi st)) →
      first_pollin (poll_answer h (w_fi st)) (Z.to_nat (nr_sent (w_fi st))) i →
      pending (w_fi st) !! i = Some e →
      error_flags (revents_at (poll_answer h (w_fi st)) i) = 0 →
      ext_do_read (h ++ [poll_event h (w_fi st)]) (pfd_fd (pfd e)) ep
        MAX_RETRY_COUNT = (0, rsp) →
      fi_wf fi' → pending fi' = delete i (pending (w_fi st)) →
      wait_step ep st h
        (Returned (wait_out {| w_fi := fi';
                               w_err_ret :=
                                 if decide (int_wrap (result rsp) ≠ SD_RES_SUCCESS)
                                 then int_wrap (result rsp) else w_err_ret st;
                               w_repeat := w_repeat st; w_rp := rsp |}))
        [poll_event h (w_fi st); EvDoRead (pfd_fd (pfd e)) 0 rsp; release e].

(** A session the waiter can be at [again] with: well formed, not empty. *)
Definition live (st : wait_state) : Prop :=
  fi_wf (w_fi st) ∧ 0 < nr_sent (w_fi st).

(** The fan-out of [req] stays inside its arrays: the copy count is not
    negative, the session array has room for it, and the resolver filled
    that many slots of [target_nodes]. *)
Definition fan_out_ready (req : request) : Prop :=
  0 ≤ get_req_copy_number req ≤ Z.of_nat (length (ent fi_on_stack)) ∧
  Z.of_nat (length (ent fi_on_stack)) ≤ INT_MAX ∧
  get_req_copy_number req ≤
    Z.of_nat (length (ext_oid_to_nodes (obj_oid (rq req)) (vroot (vinfo req))
                        (get_req_copy_number req))).

(** How [gateway_forward_request] turns the waiter's outcome into its own,
    [err] being the error of the send phase. *)
Definition forward_result (err : Z) (req : request)
    (o : outcome (Z * sd_rsp)) : outcome (Z * request) :=
  match o with
  | Returned (ret, rsp) =>
      Returned (if decide (ret ≠ SD_RES_SUCCESS) then ret else err,
                set_rp req rsp)
  | Panicked => Panicked
  | Faulted => Faulted
  | OutOfFuel => OutOfFuel
  end.

(** The state the waiter starts in. *)
Definition wait_start (fi : forward_info) (req : request) : wait_state :=
  {| w_fi := fi; w_err_ret := SD_RES_SUCCESS; w_repeat := MAX_RETRY_COUNT;
     w_rp := rp req |}.

(** *** The read path *)

(** The events of the cache check at the head of [gateway_read_obj], and
    the condition under which the read goes on to the replicas. *)
Definition cache_check_events (h : history) (req : request) : list event :=
  if enable_object_cache && negb (local req)
  then [EvBypassObjectCache (obj_oid (rq req)) (ext_bypass_object_cache h req)]
  else [].

Definition read_skips_cache (h : history) (req : request) : Prop :=
  enable_object_cache && negb (local req)
    && negb (ext_bypass_object_cache h req) = false.

(** The fallback pass in the words of the specification: go through the
    replicas in the given order, skip the local ones, read each remote one
    once, stop at the first success, else keep the last error. *)
Fixpoint read_fallback_spec (order : list sd_vnode) (req : request) (ret : Z)
    : M (Z * request) :=
  match order with
  | [] => mret (ret, req)
  | v :: rest =>
      if vnode_is_local v then read_fallback_spec rest req ret
      else
        '(ret, rsp, d) ← sheep_exec_req (nid (node v))
                           (gateway_init_fwd_hdr (rq req)) (data req);
        if decide (ret ≠ SD_RES_SUCCESS)
        then read_fallback_spec rest (set_data req d) ret
        else mret (ret, set_rp (set_data req d) rsp)
  end.

(** [poll] answers the waiter in earnest: it times out, or it reports a
    pending descriptor readable.  (It is not interrupted, does not fail,
    and does not wake the waiter up for nothing.) *)
Definition responsive_poll : Prop :=
  ∀ h fi, fi_wf fi → 0 < nr_sent fi →
    pollret (poll_answer h fi) = 0 ∨
    (0 < pollret (poll_answer h fi) ∧
     ∃ i, first_pollin (poll_answer h fi) (Z.to_nat (nr_sent fi)) i).

(** *** Three sentences of the specification, as it words them *)

(** "The call's result is a network error regardless of whether the N-k
    succeeded": whenever the send phase of a fan-out failed. *)
Definition send_failure_yields_network_error (fuel : nat) (req : request)
    (h : history) : Prop :=
  ∀ r req' evs,
    run (gateway_forward_request fuel req) h = (Returned (r, req'), evs) →
    send_failed evs = true →
    r = SD_RES_NETWORK_ERROR.

(** "[remove] always attempts exactly N exchanges, never fewer". *)
Definition remove_attempts_all_copies (fuel : nat) (req : request)
    (h : history) : Prop :=
  length (attempted (run (gateway_remove_obj fuel req) h).2)
    = Z.to_nat (get_req_copy_number req).

(** "First non-success wins": the waiter returns the first non-success
    result code that a replica delivered. *)
Definition first_non_success_wins (fuel : nat) (fi : forward_info)
    (req : request) (h : history) : Prop :=
  ∀ r req' evs c,
    run (wait_forward_request fuel fi req) h = (Returned (r, req'), evs) →
    head (filter (λ c, c ≠ SD_RES_SUCCESS) (replied evs)) = Some c →
    r = c.

End Vocabulary.

(** ** A small cluster to run the gateway on

    Three nodes; node 0 is the local one.  The collaborators follow a
    script: what the pool and the transport answer per node and descriptor,
    the successive answers of [poll] and [do_read], and so on.  When the
    script has run out, [poll] reports the first descriptor readable and
    [do_read] fails. *)

Module Scenario.

Definition mk_node (a : Z) : sd_node :=
  {| nid := {| addr := a; port := 7000 |}; zone := a |}.

Definition mk_vnode (a : Z) : sd_vnode := {| node := mk_node a; hash := a |}.

Definition mk_sockfd (a : Z) : sockfd := {| fd := 10 + a; idx := a |}.

(** A slot of the session array as the stack left it. *)
Definition stale_entry : forward_info_entry :=
  {| pfd := {| pfd_fd := 99; events := 0; revents := 77 |};
     ent_nid := {| addr := 0; port := 0 |};
     ent_sfd := {| fd := 0; idx := 0 |} |}.

Definition is_poll (ev : event) : bool :=
  match ev with EvPoll _ _ _ _ => true | _ => false end.
Definition is_read (ev : event) : bool :=
  match ev with EvDoRead _ _ _ => true | _ => false end.
Definition is_need_retry (ev : event) : bool :=
  match ev with EvSheepNeedRetry _ _ => true | _ => false end.
Definition count (p : event → bool) (h : history) : nat :=
  length (filter (λ ev, p ev = true) h).

Record script := {
  sc_copies : Z;
  sc_get : Z → option sockfd;
  sc_send : Z → Z;
  sc_polls : list poll_result;
  sc_reads : list (Z * sd_rsp);
  sc_retry : bool;
  sc_random : Z;
  sc_local_read : Z;
  sc_remote_read : Z → Z
}.

Definition reply (r : Z) : sd_rsp := {| result := r; rsp_other := [] |}.

Definition scripted (s : script) : Externals := {|
  SD_RES_SUCCESS := 0;
  SD_RES_NETWORK_ERROR := 134;
  SD_RES_READONLY := 26;
  SD_SHEEP_PROTO_VER := 8;
  MAX_RETRY_COUNT := 2;
  POLL_TIMEOUT := 5;
  enable_object_cache := false;
  fi_on_stack := {| ent := replicate 4 stale_entry; nr_sent := 12345 |};
  gateway_to_peer_opcode := λ op, op + 128;
  oid_is_readonly := λ oid, Z.testbit oid 63;
  get_req_copy_number := λ _, sc_copies s;
  vnode_is_local := λ v, bool_decide (addr (nid (node v)) = 0);
  ext_oid_to_vnodes := λ _ ring n, take (Z.to_nat n) ring;
  ext_oid_to_nodes := λ _ ring n, node <$> take (Z.to_nat n) ring;
  ext_bypass_object_cache := λ _ _, true;
  ext_object_cache_handle_request := λ _ req, (0, req);
  ext_peer_read_obj := λ _ req, (sc_local_read s, req);
  ext_random := λ _, sc_random s;
  ext_sheep_exec_req := λ _ n _ d,
    (sc_remote_read s (addr n), reply (sc_remote_read s (addr n)), d);
  ext_sockfd_cache_get := λ _ n, sc_get s (addr n);
  ext_send_req := λ _ sock _ _ _ _ _, sc_send s sock;
  ext_do_read := λ h _ _ _,
    default (1, reply 0) (sc_reads s !! count is_read h);
  ext_poll := λ h _ _ _,
    default {| pollret := 1; poll_errno := 0; poll_revents := [1] |}
            (sc_polls s !! count is_poll h);
  ext_sheep_need_retry := λ _ _, sc_retry s
|}.

Definition ready (revs : list Z) : poll_result :=
  {| pollret := 1; poll_errno := 0; poll_revents := revs |}.
Definition timed_out : poll_result :=
  {| pollret := 0; poll_errno := 0; poll_revents := [] |}.
Definition interrupted : poll_result :=
  {| pollret := -1; poll_errno := EINTR; poll_revents := [] |}.

(** A request for the object [oid], replicated on the nodes [ring]. *)
Definition request_for (oid : Z) (ring : list Z) : request :=
  {| rq := {| proto_ver := 1; opcode := 2; epoch := 3; data_length := 4;
              obj_oid := oid; req_other := [6; 7] |};
     rp := reply 0;
     data := [1; 2; 3; 4];
     local := false;
     vinfo := {| vroot := mk_vnode <$> ring |} |}.

(** Everything works: three copies, three clean answers. *)
Definition healthy : script := {|
  sc_copies := 3;
  sc_get := λ a, Some (mk_sockfd a);
  sc_send := λ _, 0;
  sc_polls := [ready [1; 0; 0]; ready [1; 0]; ready [1]];
  sc_reads := [(0, reply 0); (0, reply 0); (0, reply 0)];
  sc_retry := true;
  sc_random := 1;
  sc_local_read := 0;
  sc_remote_read := λ _, 0
|}.

(** The pool has no connection for the third node; the first node answers
    with the result code 5, the second with success. *)
Definition third_unreachable : script := {|
  sc_copies := 3;
  sc_get := λ a, if decide (a = 3) then None else Some (mk_sockfd a);
  sc_send := λ _, 0;
  sc_polls := [ready [1; 0]; ready [1]];
  sc_reads := [(0, reply 5); (0, reply 0)];
  sc_retry := true;
  sc_random := 1;
  sc_local_read := 0;
  sc_remote_read := λ _, 0
|}.

(** The same, but both reachable nodes answer with success. *)
Definition third_unreachable_clean : script := {|
  sc_copies := 3;
  sc_get := λ a, if decide (a = 3) then None else Some (mk_sockfd a);
  sc_send := λ _, 0;
  sc_polls := [ready [1; 0]; ready [1]];
  sc_reads := [(0, reply 0); (0, reply 0)];
  sc_retry := true;
  sc_random := 1;
  sc_local_read := 0;
  sc_remote_read := λ _, 0
|}.

(** The local read fails; the remote reads succeed. *)
Definition local_store_broken : script := {|
  sc_copies := 3;
  sc_get := λ a, Some (mk_sockfd a);
  sc_send := λ _, 0;
  sc_polls := [];
  sc_reads := [];
  sc_retry := true;
  sc_random := 4;
  sc_local_read := 3;
  sc_remote_read := λ _, 0
|}.

(** The pool has no connection for the first node. *)
Definition first_unreachable : script := {|
  sc_copies := 3;
  sc_get := λ a, if decide (a = 1) then None else Some (mk_sockfd a);
  sc_send := λ _, 0;
  sc_polls := [];
  sc_reads := [];
  sc_retry := true;
  sc_random := 1;
  sc_local_read := 0;
  sc_remote_read := λ _, 0
|}.

(** Two replicas answer, the first with the result code 5, the second with
    the result code 7. *)
Definition two_errors : script := {|
  sc_copies := 2;
  sc_get := λ a, Some (mk_sockfd a);
  sc_send := λ _, 0;
  sc_polls := [ready [1; 0]; ready [1]];
  sc_reads := [(0, reply 5); (0, reply 7)];
  sc_retry := true;
  sc_random := 1;
  sc_local_read := 0;
  sc_remote_read := λ _, 0
|}.

(** [poll] is interrupted once, then times out for good. *)
Definition stalled : script := {|
  sc_copies := 2;
  sc_get := λ a, Some (mk_sockfd a);
  sc_send := λ _, 0;
  sc_polls := [interrupted; timed_out; timed_out; timed_out; timed_out];
  sc_reads := [];
  sc_retry := true;
  sc_random := 1;
  sc_local_read := 0;
  sc_remote_read := λ _, 0
|}.

(** [poll] times out, and the oracle approves of retrying. *)
Definition timing_out : script := {|
  sc_copies := 2;
  sc_get := λ a, Some (mk_sockfd a);
  sc_send := λ _, 0;
  sc_polls := [timed_out; timed_out; timed_out; timed_out];
  sc_reads := [];
  sc_retry := true;
  sc_random := 1;
  sc_local_read := 0;
  sc_remote_read := λ _, 0
|}.

(** The local read fails, [random()] returns [RAND_MAX], and the first
    remote replica tried fails as well. *)
Definition largest_offset : script := {|
  sc_copies := 3;
  sc_get := λ a, Some (mk_sockfd a);
  sc_send := λ _, 0;
  sc_polls := [];
  sc_reads := [];
  sc_retry := true;
  sc_random := 2147483647;
  sc_local_read := 3;
  sc_remote_read := λ _, 3
|}.

(** A session of two sent requests, as the waiter finds it. *)
Definition session_entry (a : Z) : forward_info_entry :=
  {| pfd := {| pfd_fd := 10 + a; events := POLLIN; revents := 77 |};
     ent_nid := nid (mk_node a);
     ent_sfd := mk_sockfd a |}.

Definition two_pending : forward_info :=
  {| ent := [session_entry 1; session_entry 2; stale_entry; stale_entry];
     nr_sent := 2 |}.

Definition waiting (err_ret repeat : Z) : wait_state :=
  {| w_fi := two_pending; w_err_ret := err_ret; w_repeat := repeat;
     w_rp := reply 0 |}.

(** An environment with another [poll]. *)
Definition with_poll (E : Externals)
    (p : history → list pollfd → Z → Z → poll_result) : Externals := {|
  SD_RES_SUCCESS := @SD_RES_SUCCESS E;
  SD_RES_NETWORK_ERROR := @SD_RES_NETWORK_ERROR E;
  SD_RES_READONLY := @SD_RES_READONLY E;
  SD_SHEEP_PROTO_VER := @SD_SHEEP_PROTO_VER E;
  MAX_RETRY_COUNT := @MAX_RETRY_COUNT E;
  POLL_TIMEOUT := @POLL_TIMEOUT E;
  enable_object_cache := @enable_object_cache E;
  fi_on_stack := @fi_on_stack E;
  gateway_to_peer_opcode := @gateway_to_peer_opcode E;
  oid_is_readonly := @oid_is_readonly E;
  get_req_copy_number := @get_req_copy_number E;
  vnode_is_local := @vnode_is_local E;
  ext_oid_to_vnodes := @ext_oid_to_vnodes E;
  ext_oid_to_nodes := @ext_oid_to_nodes E;
  ext_bypass_object_cache := @ext_bypass_object_cache E;
  ext_object_cache_handle_request := @ext_object_cache_handle_request E;
  ext_peer_read_obj := @ext_peer_read_obj E;
  ext_random := @ext_random E;
  ext_sheep_exec_req := @ext_sheep_exec_req E;
  ext_sockfd_cache_get := @ext_sockfd_cache_get E;
  ext_send_req := @ext_send_req E;
  ext_do_read := @ext_do_read E;
  ext_poll := p;
  ext_sheep_need_retry := @ext_sheep_need_retry E
|}.

(** [poll] always times out. *)
Definition never_ready : Externals :=
  with_poll (scripted healthy) (λ _ _ _ _, timed_out).

(** [poll] always reports a hangup on the first descriptor, and nothing to
    read. *)
Definition hung_up : Externals :=
  with_poll (scripted healthy)
    (λ _ _ _ _, {| pollret := 1; poll_errno := 0; poll_revents := [POLLHUP] |}).

(** [poll] fails for good. *)
Definition poll_broken : Externals :=
  with_poll (scripted healthy)
    (λ _ _ _ _, {| pollret := -1; poll_errno := 9; poll_revents := [] |}).

(** An environment with the object cache switched on and not bypassed. *)
Definition with_cache (E : Externals) : Externals := {|
  SD_RES_SUCCESS := @SD_RES_SUCCESS E;
  SD_RES_NETWORK_ERROR := @SD_RES_NETWORK_ERROR E;
  SD_RES_READONLY := @SD_RES_READONLY E;
  SD_SHEEP_PROTO_VER := @SD_SHEEP_PROTO_VER E;
  MAX_RETRY_COUNT := @MAX_RETRY_COUNT E;
  POLL_TIMEOUT := @POLL_TIMEOUT E;
  enable_object_cache := true;
  fi_on_stack := @fi_on_stack E;
  gateway_to_peer_opcode := @gateway_to_peer_opcode E;
  oid_is_readonly := @oid_is_readonly E;
  get_req_copy_number := @get_req_copy_number E;
  vnode_is_local := @vnode_is_local E;
  ext_oid_to_vnodes := @ext_oid_to_vnodes E;
  ext_oid_to_nodes := @ext_oid_to_nodes E;
  ext_bypass_object_cache := λ _ _, false;
  ext_object_cache_handle_request := λ _ req, (7, set_rp req (reply 7));
  ext_peer_read_obj := @ext_peer_read_obj E;
  ext_random := @ext_random E;
  ext_sheep_exec_req := @ext_sheep_exec_req E;
  ext_sockfd_cache_get := @ext_sockfd_cache_get E;
  ext_send_req := @ext_send_req E;
  ext_do_read := @ext_do_read E;
  ext_poll := @ext_poll E;
  ext_sheep_need_retry := @ext_sheep_need_retry E
|}.

(** The send to the second node fails. *)
Definition second_send_fails : script := {|
  sc_copies := 3;
  sc_get := λ a, Some (mk_sockfd a);
  sc_send := λ sock, if decide (sock = 12) then 1 else 0;
  sc_polls := [ready [1]];
  sc_reads := [(0, reply 0)];
  sc_retry := true;
  sc_random := 1;
  sc_local_read := 0;
  sc_remote_read := λ _, 0
|}.

(** No copies at all. *)
Definition no_copies : script := {|
  sc_copies := 0;
  sc_get := λ a, Some (mk_sockfd a);
  sc_send := λ _, 0;
  sc_polls := [];
  sc_reads := [];
  sc_retry := true;
  sc_random := 1;
  sc_local_read := 0;
  sc_remote_read := λ _, 0
|}.

(** The first replica answers with the result code [0xffffffff]. *)
Definition all_ones_result : script := {|
  sc_copies := 2;
  sc_get := λ a, Some (mk_sockfd a);
  sc_send := λ _, 0;
  sc_polls := [ready [1; 0]; ready [1]];
  sc_reads := [(0, reply 4294967295); (0, reply 0)];
  sc_retry := true;
  sc_random := 1;
  sc_local_read := 0;
  sc_remote_read := λ _, 0
|}.

(** A copy count below zero. *)
Definition negative_copies : script := {|
  sc_copies := -1;
  sc_get := λ a, Some (mk_sockfd a);
  sc_send := λ _, 0;
  sc_polls := [];
  sc_reads := [];
  sc_retry := true;
  sc_random := 1;
  sc_local_read := 0;
  sc_remote_read := λ _, 0
|}.

(** The first entry is readable but flagged with an error; the second
    entry's read fails. *)
Definition flagged_then_unreadable : script := {|
  sc_copies := 2;
  sc_get := λ a, Some (mk_sockfd a);
  sc_send := λ _, 0;
  sc_polls := [ready [Z.lor POLLIN POLLERR; 0]; ready [1]];
  sc_reads := [(1, reply 9)];
  sc_retry := true;
  sc_random := 1;
  sc_local_read := 0;
  sc_remote_read := λ _, 0
|}.

End Scenario.

(** * Properties *)

(** ** The monad *)

Section MonadLaws.
Context {A B : Type}.

Lemma run_ret (a : A) h : run (mret a) h = (Returned a, []).
Proof. reflexivity. Qed.

Lemma run_bind (m : M A) (f : A → M B) h :
  run (m ≫= f) h =
    match run m h with
    | (Returned a, evs) => emit_before evs (run (f a) (h ++ evs))
    | (Panicked, evs) => (Panicked, evs)
    | (Faulted, evs) => (Faulted, evs)
    | (OutOfFuel, evs) => (OutOfFuel, evs)
    end.
Proof.
  unfold run, mbind, M_mbind, M_bind, emit_before.
  destruct (m h) as [[a| | |] evs]; try reflexivity.
  by destruct (f a (h ++ evs)).
Qed.

Lemma run_call (answer : history → A) (log : A → event) h :
  run (call answer log) h = (Returned (answer h), [log (answer h)]).
Proof. reflexivity. Qed.

Lemma run_lift_Some (a : A) h : run (lift (Some a)) h = (Returned a, []).
Proof. reflexivity. Qed.

Lemma run_lift_None h : run (lift (@None A)) h = (Faulted, []).
Proof. reflexivity. Qed.

Lemma emit_before_nil (r : outcome A * list event) : emit_before [] r = r.
Proof. by destruct r. Qed.

Lemma emit_before_app evs1 evs2 (r : outcome A * list event) :
  emit_before evs1 (emit_before evs2 r) = emit_before (evs1 ++ evs2) r.
Proof. unfold emit_before; simpl. by rewrite app_assoc. Qed.

Lemma emit_before_pair evs (o : outcome A) evs' :
  emit_before evs (o, evs') = (o, evs ++ evs').
Proof. reflexivity. Qed.

End MonadLaws.

(** ** Machine integers *)

Lemma int_wrap_small z : INT_MIN ≤ z ≤ INT_MAX → int_wrap z = z.
Proof.
  unfold INT_MIN, INT_MAX, int_wrap. intros Hz.
  rewrite Z.mod_small by lia. lia.
Qed.

Lemma int_add_small a b : INT_MIN ≤ a + b ≤ INT_MAX → int_add a b = a + b.
Proof. apply int_wrap_small. Qed.

Lemma int_sub_small a b : INT_MIN ≤ a - b ≤ INT_MAX → int_sub a b = a - b.
Proof. apply int_wrap_small. Qed.

(** ** Arrays and the forward session *)

Section ForwardInfo.
Implicit Types (fi : forward_info) (e : forward_info_entry).

Lemma array_get_nat {A} (l : list A) (i : nat) :
  array_get l (Z.of_nat i) = l !! i.
Proof. unfold array_get. case_decide; [by rewrite Nat2Z.id | lia]. Qed.

Lemma array_get_pending fi (i : nat) :
  (i < Z.to_nat (nr_sent fi))%nat → array_get (ent fi) (Z.of_nat i) = pending fi !! i.
Proof. intros Hi. rewrite array_get_nat. unfold pending. by rewrite lookup_take_lt. Qed.

Lemma length_pending fi : fi_wf fi → length (pending fi) = Z.to_nat (nr_sent fi).
Proof. intros [? ?]. unfold pending. rewrite length_take. lia. Qed.

Lemma pfd_info_init_loop_spec (n : nat) (i : nat) (slots : list forward_info_entry) :
  (i + n ≤ length slots)%nat →
  pfd_info_init_loop n (Z.of_nat i) slots = Some (pfd <$> take n (drop i slots)).
Proof.
  revert i. induction n as [|n IH]; intros i Hlen; simpl.
  - done.
  - rewrite array_get_nat.
    destruct (slots !! i) as [e|] eqn:He; simpl.
    2:{ apply lookup_ge_None in He. lia. }
    replace (Z.of_nat i + 1) with (Z.of_nat (S i)) by lia.
    rewrite IH by lia. simpl.
    rewrite (drop_S _ _ _ He). simpl. done.
Qed.

Lemma pfd_info_init_wf fi :
  fi_wf fi →
  pfd_info_init fi = Some {| pi_pfds := pfd <$> pending fi; pi_nr := nr_sent fi |}.
Proof.
  intros [? ?]. unfold pfd_info_init.
  rewrite (pfd_info_init_loop_spec _ 0) by (simpl; lia). simpl. done.
Qed.

Lemma forward_info_update_wf fi (pos : nat) :
  fi_wf fi → (pos < Z.to_nat (nr_sent fi))%nat →
  ∃ fi', forward_info_update fi (Z.of_nat pos) = Some fi' ∧ fi_wf fi' ∧
         pending fi' = delete pos (pending fi) ∧
         nr_sent fi' = nr_sent fi - 1 ∧
         length (ent fi') = length (ent fi).
Proof.
  intros [Hn Hmax] Hpos. unfold forward_info_update.
  assert (Hmax' := Hmax). unfold INT_MAX in Hmax'.
  rewrite !int_sub_small by (unfold INT_MIN, INT_MAX; lia).
  unfold array_memmove. rewrite decide_True by lia. simpl.
  eexists. split; [reflexivity|].
  set (l := ent fi) in *. set (n := nr_sent fi) in *.
  replace (Z.to_nat (Z.of_nat pos)) with pos by lia.
  replace (Z.to_nat (Z.of_nat pos + 1)) with (S pos) by lia.
  replace (Z.to_nat (Z.of_nat pos + (n - 1 - Z.of_nat pos)))
    with (Z.to_nat (n - 1)) by lia.
  replace (Z.to_nat (n - 1 - Z.of_nat pos))
    with (Z.to_nat (n - 1) - pos)%nat by lia.
  set (k := Z.to_nat (n - 1)).
  assert (Hk : (pos ≤ k ∧ S k = Z.to_nat n ∧ S k ≤ length l)%nat) by lia.
  assert (Hlen : length (take pos l ++ take (k - pos) (drop (S pos) l)
                 ++ drop k l) = length l).
  { rewrite !length_app, !length_take, !length_drop. lia. }
  split_and!; simpl; try done.
  - split; simpl; [rewrite Hlen; lia | by rewrite Hlen].
  - unfold pending; simpl. fold l n. fold k.
    destruct Hk as (Hk1 & <- & Hk3).
    rewrite delete_take_drop.
    rewrite take_take, Nat.min_l by lia.
    rewrite app_assoc, take_app_le.
    2:{ rewrite length_app, !length_take, length_drop. lia. }
    rewrite take_ge.
    2:{ rewrite length_app, !length_take, length_drop. lia. }
    f_equal. rewrite take_drop_commute. f_equal. f_equal. lia.
Qed.

Lemma forward_info_advance_wf fi (n : node_id) (sfd : sockfd) :
  fi_wf fi → nr_sent fi < Z.of_nat (length (ent fi)) →
  ∃ fi' e, forward_info_advance fi n sfd = Some fi' ∧ fi_wf fi' ∧
           pending fi' = pending fi ++ [e] ∧
           conn e = (n, sfd) ∧ pfd_fd (pfd e) = fd sfd ∧
           nr_sent fi' = nr_sent fi + 1 ∧
           length (ent fi') = length (ent fi).
Proof.
  intros [Hn Hmax] Hlt. unfold forward_info_advance.
  unfold array_get. rewrite decide_True by lia.
  destruct (ent fi !! Z.to_nat (nr_sent fi)) as [e0|] eqn:He0; simpl.
  2:{ apply lookup_ge_None in He0. lia. }
  unfold array_set. rewrite decide_True by lia. simpl.
  rewrite int_add_small by (unfold INT_MIN, INT_MAX in *; lia).
  eexists _, {| pfd := {| pfd_fd := fd sfd; events := POLLIN;
                         revents := revents (pfd e0) |};
               ent_nid := n; ent_sfd := sfd |}.
  split; [reflexivity|].
  split_and!; simpl; [| |reflexivity..|by rewrite length_insert].
  - split; simpl; rewrite length_insert; lia.
  - unfold pending; simpl.
    replace (Z.to_nat (nr_sent fi + 1)) with (S (Z.to_nat (nr_sent fi))) by lia.
    erewrite take_S_r.
    2:{ apply list_lookup_insert_eq. lia. }
    by rewrite take_insert_ge by lia.
Qed.

Lemma forward_info_init_loop_length (n i : nat) (slots : list forward_info_entry) :
  (i + n ≤ length slots)%nat →
  ∃ slots', forward_info_init_loop n (Z.of_nat i) slots = Some slots' ∧
            length slots' = length slots.
Proof.
  revert i slots. induction n as [|n IH]; intros i slots Hlen; simpl.
  - by eexists.
  - rewrite array_get_nat.
    destruct (slots !! i) as [e|] eqn:He; simpl.
    2:{ apply lookup_ge_None in He. lia. }
    unfold array_set. rewrite decide_True by lia. simpl.
    replace (Z.of_nat i + 1) with (Z.of_nat (S i)) by lia.
    destruct (IH (S i) (<[Z.to_nat (Z.of_nat i) := set_pfd_fd e (-1)]> slots))
      as (slots' & -> & Hl).
    { rewrite length_insert. lia. }
    eexists. split; [done|]. by rewrite Hl, length_insert.
Qed.

Lemma forward_info_init_wf fi (n : Z) :
  0 ≤ n ≤ Z.of_nat (length (ent fi)) → Z.of_nat (length (ent fi)) ≤ INT_MAX →
  ∃ fi', forward_info_init fi n = Some fi' ∧ fi_wf fi' ∧ nr_sent fi' = 0 ∧
         length (ent fi') = length (ent fi).
Proof.
  intros Hn Hmax. unfold forward_info_init.
  destruct (forward_info_init_loop_length (Z.to_nat n) 0 (ent fi))
    as (slots & Hs & Hl); [simpl; lia|].
  change (Z.of_nat 0) with 0 in Hs. rewrite Hs. simpl. eexists. split; [done|].
  split_and!; simpl; try done. split; simpl; lia.
Qed.

End ForwardInfo.

(** ** Stepping through a computation *)

Ltac unfold_calls :=
  progress unfold bypass_object_cache, object_cache_handle_request,
    oid_to_vnodes, oid_to_nodes, peer_read_obj, random, sheep_exec_req,
    sockfd_cache_get, send_req, sockfd_cache_del_node, sockfd_cache_put,
    sockfd_cache_del, poll, sheep_need_retry, do_read.
Ltac mstep :=
  first [ rewrite run_bind | rewrite run_ret | rewrite run_call
        | rewrite run_lift_Some | rewrite run_lift_None
        | rewrite emit_before_nil | rewrite emit_before_pair
        | rewrite app_nil_r | unfold_calls ];
  cbn [fst snd app].
Ltac msteps := repeat mstep.

(** ** The waiter: helpers *)

Section WaiterHelpers.
Context {E : Externals}.
Implicit Types (fi : forward_info) (e : forward_info_entry) (st : wait_state).

Lemma close_all_loop_run (n i : nat) fi h :
  (i + n ≤ Z.to_nat (nr_sent fi))%nat → fi_wf fi →
  run (close_all_loop n (Z.of_nat i) fi) h =
    (Returned tt, evict <$> take n (drop i (pending fi))).
Proof.
  intros Hn Hwf. revert i h Hn. induction n as [|n IH]; intros i h Hn; simpl.
  - done.
  - mstep. rewrite array_get_pending by lia.
    destruct (pending fi !! i) as [e|] eqn:He.
    2:{ apply lookup_ge_None in He. rewrite length_pending in He by done. lia. }
    msteps. replace (Z.of_nat i + 1) with (Z.of_nat (S i)) by lia.
    rewrite IH by lia. rewrite (drop_S _ _ _ He). done.
Qed.

Lemma finish_one_entry_run fi (i : nat) e h :
  fi_wf fi → pending fi !! i = Some e →
  ∃ fi', run (finish_one_entry fi (Z.of_nat i)) h = (Returned fi', [release e]) ∧
         forward_info_update fi (Z.of_nat i) = Some fi' ∧
         fi_wf fi' ∧ pending fi' = delete i (pending fi) ∧
         nr_sent fi' = nr_sent fi - 1.
Proof.
  intros Hwf He.
  assert (Hi : (i < Z.to_nat (nr_sent fi))%nat).
  { apply lookup_lt_Some in He. by rewrite length_pending in He. }
  destruct (forward_info_update_wf fi i Hwf Hi) as (fi' & Hup & Hwf' & Hp & Hn & _).
  exists fi'. split_and!; try done.
  unfold finish_one_entry. mstep. rewrite array_get_pending, He by done.
  msteps. rewrite Hup. msteps. done.
Qed.

Lemma finish_one_entry_err_run fi (i : nat) e h :
  fi_wf fi → pending fi !! i = Some e →
  ∃ fi', run (finish_one_entry_err fi (Z.of_nat i)) h = (Returned fi', [evict e]) ∧
         forward_info_update fi (Z.of_nat i) = Some fi' ∧
         fi_wf fi' ∧ pending fi' = delete i (pending fi) ∧
         nr_sent fi' = nr_sent fi - 1.
Proof.
  intros Hwf He.
  assert (Hi : (i < Z.to_nat (nr_sent fi))%nat).
  { apply lookup_lt_Some in He. by rewrite length_pending in He. }
  destruct (forward_info_update_wf fi i Hwf Hi) as (fi' & Hup & Hwf' & Hp & Hn & _).
  exists fi'. split_and!; try done.
  unfold finish_one_entry_err. mstep. rewrite array_get_pending, He by done.
  msteps. rewrite Hup. msteps. done.
Qed.

Lemma store_revents_lookup fds revs (j : nat) p :
  fds !! j = Some p →
  store_revents fds revs !! j =
    Some {| pfd_fd := pfd_fd p; events := events p;
            revents := default 0 (revs !! j) |}.
Proof. intros Hp. unfold store_revents. by rewrite list_lookup_imap, Hp. Qed.

Lemma find_pollin_loop_first (n i k : nat) fds res :
  (i ≤ k < i + n)%nat → (k < length fds)%nat →
  Z.land (revents_at res k) POLLIN ≠ 0 →
  (∀ j, (i ≤ j < k)%nat → Z.land (revents_at res j) POLLIN = 0) →
  find_pollin_loop n (Z.of_nat i) (store_revents fds (poll_revents res))
    = Some (Z.of_nat k).
Proof.
  revert i. induction n as [|n IH]; intros i Hk Hlen Hon Hoff; [lia|].
  simpl. rewrite array_get_nat.
  destruct (fds !! i) as [p|] eqn:Hp.
  2:{ apply lookup_ge_None in Hp. lia. }
  rewrite (store_revents_lookup _ _ _ _ Hp). simpl.
  fold (revents_at res i).
  destruct (decide (i = k)) as [->|Hne].
  - by rewrite decide_True.
  - rewrite decide_False by (rewrite Hoff by lia; auto).
    replace (Z.of_nat i + 1) with (Z.of_nat (S i)) by lia.
    apply IH; [lia|done|done|]. intros j Hj. apply Hoff. lia.
Qed.

Lemma find_pollin_loop_none (n i : nat) fds res :
  (i + n ≤ length fds)%nat →
  (∀ j, (i ≤ j < i + n)%nat → Z.land (revents_at res j) POLLIN = 0) →
  find_pollin_loop n (Z.of_nat i) (store_revents fds (poll_revents res))
    = Some (Z.of_nat (i + n)).
Proof.
  revert i. induction n as [|n IH]; intros i Hlen Hoff; simpl.
  - by rewrite Nat.add_0_r.
  - rewrite array_get_nat.
    destruct (fds !! i) as [p|] eqn:Hp.
    2:{ apply lookup_ge_None in Hp. lia. }
    rewrite (store_revents_lookup _ _ _ _ Hp). simpl.
    fold (revents_at res i).
    rewrite decide_False by (rewrite Hoff by lia; auto).
    replace (Z.of_nat i + 1) with (Z.of_nat (S i)) by lia.
    rewrite IH; [f_equal; lia | lia |]. intros j Hj. apply Hoff. lia.
Qed.

Lemma pollin_cases res (n : nat) :
  none_pollin res n ∨ ∃ i, first_pollin res n i.
Proof.
  induction n as [|n [IH|[i (Hi & Hon & Hoff)]]].
  - left. intros j Hj. lia.
  - destruct (decide (Z.land (revents_at res n) POLLIN = 0)) as [Hz|Hnz].
    + left. intros j Hj. destruct (decide (j = n)) as [->|]; [done|].
      apply IH. lia.
    + right. exists n. split_and!; [lia|done|]. intros j Hj. by apply IH.
  - right. exists i. split_and!; [lia|done|done].
Qed.

End WaiterHelpers.

(** ** The waiter, one pass at a time *)

Section WaiterPass.
Context {E : Externals}.
Implicit Types (fi : forward_info) (e : forward_info_entry) (st : wait_state).

(** The start of every pass: build the descriptor set and poll. *)
Ltac wait_pass_start Hwf :=
  unfold wait_pass; mstep; rewrite pfd_info_init_wf by exact Hwf; msteps;
  cbn [pi_pfds pi_nr];
  repeat match goal with
  | |- context [ext_poll ?h (pfd <$> pending ?fi) (nr_sent ?fi) (1000 * POLL_TIMEOUT)] =>
      change (ext_poll h (pfd <$> pending fi) (nr_sent fi) (1000 * POLL_TIMEOUT))
        with (poll_answer h fi)
  | |- context [EvPoll (pfd <$> pending ?fi) (nr_sent ?fi) (1000 * POLL_TIMEOUT) (poll_answer ?h ?fi)] =>
      change (EvPoll (pfd <$> pending fi) (nr_sent fi) (1000 * POLL_TIMEOUT) (poll_answer h fi))
        with (poll_event h fi)
  end.

Lemma wait_pass_interrupted ep st h :
  fi_wf (w_fi st) →
  pollret (poll_answer h (w_fi st)) < 0 →
  poll_errno (poll_answer h (w_fi st)) = EINTR →
  run (wait_pass ep st) h = (Returned (inl st), [poll_event h (w_fi st)]).
Proof.
  intros Hwf Hret Herr. wait_pass_start Hwf.
  rewrite decide_True by done. rewrite decide_True by done. by msteps.
Qed.

Lemma wait_pass_poll_failed ep st h :
  fi_wf (w_fi st) →
  pollret (poll_answer h (w_fi st)) < 0 →
  poll_errno (poll_answer h (w_fi st)) ≠ EINTR →
  run (wait_pass ep st) h = (Panicked, [poll_event h (w_fi st); EvPanic]).
Proof.
  intros Hwf Hret Herr. wait_pass_start Hwf.
  rewrite decide_True by done. rewrite decide_False by done. done.
Qed.

Lemma wait_pass_timeout_retry ep st h :
  fi_wf (w_fi st) →
  pollret (poll_answer h (w_fi st)) = 0 →
  ext_sheep_need_retry (h ++ [poll_event h (w_fi st)]) ep = true →
  w_repeat st ≠ 0 →
  run (wait_pass ep st) h =
    (Returned (inl (with_repeat st (int_sub (w_repeat st) 1))),
     [poll_event h (w_fi st); EvSheepNeedRetry ep true]).
Proof.
  intros Hwf Hret Hretry Hrep. wait_pass_start Hwf.
  rewrite decide_False by lia. rewrite decide_True by done.
  msteps. rewrite Hretry. rewrite bool_decide_true by done. by msteps.
Qed.

Lemma wait_pass_timeout_give_up ep st h :
  fi_wf (w_fi st) →
  pollret (poll_answer h (w_fi st)) = 0 →
  ext_sheep_need_retry (h ++ [poll_event h (w_fi st)]) ep = false
    ∨ w_repeat st = 0 →
  run (wait_pass ep st) h =
    (Returned (inr (SD_RES_NETWORK_ERROR, w_rp st)),
     [poll_event h (w_fi st);
      EvSheepNeedRetry ep
        (ext_sheep_need_retry (h ++ [poll_event h (w_fi st)]) ep)]
     ++ (evict <$> pending (w_fi st))).
Proof.
  intros Hwf Hret Hstop. wait_pass_start Hwf.
  rewrite decide_False by lia. rewrite decide_True by done.
  msteps.
  assert (ext_sheep_need_retry (h ++ [poll_event h (w_fi st)]) ep
          && bool_decide (w_repeat st ≠ 0) = false) as ->.
  { destruct Hstop as [-> | ->]; [done|].
    rewrite bool_decide_false by auto. by rewrite andb_false_r. }
  mstep. rewrite (close_all_loop_run _ 0) by (simpl; done || lia).
  msteps. rewrite drop_0, take_ge by (rewrite length_pending by done; lia).
  done.
Qed.

Lemma wait_pass_none_ready ep st h :
  fi_wf (w_fi st) →
  0 < pollret (poll_answer h (w_fi st)) →
  none_pollin (poll_answer h (w_fi st)) (Z.to_nat (nr_sent (w_fi st))) →
  run (wait_pass ep st) h = (Returned (wait_out st), [poll_event h (w_fi st)]).
Proof.
  intros Hwf Hret Hnone. wait_pass_start Hwf.
  rewrite decide_False by lia. rewrite decide_False by lia.
  mstep. rewrite (find_pollin_loop_none _ 0).
  2:{ rewrite length_fmap, length_pending by done. simpl. lia. }
  2:{ intros j Hj. apply Hnone. lia. }
  msteps. destruct Hwf as [? ?].
  rewrite decide_False by (simpl; lia). by msteps.
Qed.

(** What the three ready-entry branches share. *)
Lemma wait_pass_ready_entry (i : nat) e st h :
  fi_wf (w_fi st) →
  first_pollin (poll_answer h (w_fi st)) (Z.to_nat (nr_sent (w_fi st))) i →
  pending (w_fi st) !! i = Some e →
  let fds := store_revents (pfd <$> pending (w_fi st))
               (poll_revents (poll_answer h (w_fi st))) in
  find_pollin_loop (Z.to_nat (nr_sent (w_fi st))) 0 fds = Some (Z.of_nat i) ∧
  Z.of_nat i < nr_sent (w_fi st) ∧
  array_get fds (Z.of_nat i) =
    Some {| pfd_fd := pfd_fd (pfd e); events := events (pfd e);
            revents := revents_at (poll_answer h (w_fi st)) i |}.
Proof.
  intros Hwf (Hi & Hon & Hoff) He fds. split_and!.
  - apply (find_pollin_loop_first _ 0); [simpl; lia| |done|].
    + rewrite length_fmap, length_pending by done. lia.
    + intros j Hj. apply Hoff. lia.
  - lia.
  - rewrite array_get_nat. unfold fds.
    erewrite store_revents_lookup; [done|].
    by rewrite list_lookup_fmap, He.
Qed.

Lemma wait_pass_ready_error ep (i : nat) e st h :
  fi_wf (w_fi st) →
  0 < pollret (poll_answer h (w_fi st)) →
  first_pollin (poll_answer h (w_fi st)) (Z.to_nat (nr_sent (w_fi st))) i →
  pending (w_fi st) !! i = Some e →
  error_flags (revents_at (poll_answer h (w_fi st)) i) ≠ 0 →
  ∃ fi', forward_info_update (w_fi st) (Z.of_nat i) = Some fi' ∧
    fi_wf fi' ∧ pending fi' = delete i (pending (w_fi st)) ∧
    run (wait_pass ep st) h =
      (Returned (wait_out {| w_fi := fi'; w_err_ret := SD_RES_NETWORK_ERROR;
                             w_repeat := w_repeat st; w_rp := w_rp st |}),
       [poll_event h (w_fi st); evict e]).
Proof.
  intros Hwf Hret Hfirst He Hflags.
  destruct (wait_pass_ready_entry i e st h Hwf Hfirst He) as (Hfind & Hlt & Hget).
  destruct (finish_one_entry_err_run (w_fi st) i e
              (h ++ [poll_event h (w_fi st)]) Hwf He)
    as (fi' & Hrun & Hup & Hwf' & Hp & _).
  exists fi'. split_and!; try done.
  wait_pass_start Hwf.
  rewrite decide_False by lia. rewrite decide_False by lia.
  mstep. rewrite Hfind. msteps. rewrite decide_True by done.
  mstep. rewrite Hget. msteps. cbn [revents].
  rewrite decide_True by done.
  mstep. rewrite Hrun. by msteps.
Qed.

Lemma wait_pass_read_failed ep (i : nat) e st h r rsp :
  fi_wf (w_fi st) →
  0 < pollret (poll_answer h (w_fi st)) →
  first_pollin (poll_answer h (w_fi st)) (Z.to_nat (nr_sent (w_fi st))) i →
  pending (w_fi st) !! i = Some e →
  error_flags (revents_at (poll_answer h (w_fi st)) i) = 0 →
  ext_do_read (h ++ [poll_event h (w_fi st)]) (pfd_fd (pfd e)) ep
    MAX_RETRY_COUNT = (r, rsp) →
  r ≠ 0 →
  ∃ fi', forward_info_update (w_fi st) (Z.of_nat i) = Some fi' ∧
    fi_wf fi' ∧ pending fi' = delete i (pending (w_fi st)) ∧
    run (wait_pass ep st) h =
      (Returned (wait_out {| w_fi := fi'; w_err_ret := SD_RES_NETWORK_ERROR;
                             w_repeat := w_repeat st; w_rp := rsp |}),
       [poll_event h (w_fi st); EvDoRead (pfd_fd (pfd e)) r rsp; evict e]).
Proof.
  intros Hwf Hret Hfirst He Hflags Hread Hr.
  destruct (wait_pass_ready_entry i e st h Hwf Hfirst He) as (Hfind & Hlt & Hget).
  destruct (finish_one_entry_err_run (w_fi st) i e
              (h ++ [poll_event h (w_fi st);
                     EvDoRead (pfd_fd (pfd e)) r rsp]) Hwf He)
    as (fi' & Hrun & Hup & Hwf' & Hp & _).
  exists fi'. split_and!; try done.
  wait_pass_start Hwf.
  rewrite decide_False by lia. rewrite decide_False by lia.
  mstep. rewrite Hfind. msteps. rewrite decide_True by done.
  mstep. rewrite Hget. msteps. cbn [revents pfd_fd].
  rewrite decide_False by (unfold error_flags in Hflags; rewrite Hflags; auto).
  msteps. rewrite Hread. cbn [fst snd]. rewrite decide_True by done.
  mstep. rewrite <- app_assoc. cbn [app]. rewrite Hrun. by msteps.
Qed.

Lemma wait_pass_read_ok ep (i : nat) e st h rsp :
  fi_wf (w_fi st) →
  0 < pollret (poll_answer h (w_fi st)) →
  first_pollin (poll_answer h (w_fi st)) (Z.to_nat (nr_sent (w_fi st))) i →
  pending (w_fi st) !! i = Some e →
  error_flags (revents_at (poll_answer h (w_fi st)) i) = 0 →
  ext_do_read (h ++ [poll_event h (w_fi st)]) (pfd_fd (pfd e)) ep
    MAX_RETRY_COUNT = (0, rsp) →
  ∃ fi', forward_info_update (w_fi st) (Z.of_nat i) = Some fi' ∧
    fi_wf fi' ∧ pending fi' = delete i (pending (w_fi st)) ∧
    run (wait_pass ep st) h =
      (Returned (wait_out {| w_fi := fi';
                             w_err_ret :=
                               if decide (int_wrap (result rsp) ≠ SD_RES_SUCCESS)
                               then int_wrap (result rsp) else w_err_ret st;
                             w_repeat := w_repeat st; w_rp := rsp |}),
       [poll_event h (w_fi st); EvDoRead (pfd_fd (pfd e)) 0 rsp; release e]).
Proof.
  intros Hwf Hret Hfirst He Hflags Hread.
  destruct (wait_pass_ready_entry i e st h Hwf Hfirst He) as (Hfind & Hlt & Hget).
  destruct (finish_one_entry_run (w_fi st) i e
              (h ++ [poll_event h (w_fi st);
                     EvDoRead (pfd_fd (pfd e)) 0 rsp]) Hwf He)
    as (fi' & Hrun & Hup & Hwf' & Hp & _).
  exists fi'. split_and!; try done.
  wait_pass_start Hwf.
  rewrite decide_False by lia. rewrite decide_False by lia.
  mstep. rewrite Hfind. msteps. rewrite decide_True by done.
  mstep. rewrite Hget. msteps. cbn [revents pfd_fd].
  rewrite decide_False by (unfold error_flags in Hflags; rewrite Hflags; auto).
  msteps. rewrite Hread. cbn [fst snd]. rewrite decide_False by auto.
  mstep. rewrite <- app_assoc. cbn [app]. rewrite Hrun. by msteps.
Qed.

End WaiterPass.

(** ** The waiter as a transition system *)

Section WaiterStep.
Context {E : Externals}.
Implicit Types (fi : forward_info) (e : forward_info_entry) (st : wait_state).

Theorem wait_pass_step ep st h :
  fi_wf (w_fi st) →
  wait_step ep st h (run (wait_pass ep st) h).1 (run (wait_pass ep st) h).2.
Proof.
  intros Hwf.
  destruct (Z.lt_trichotomy (pollret (poll_answer h (w_fi st))) 0)
    as [Hneg | [Hzero | Hpos]].
  - destruct (decide (poll_errno (poll_answer h (w_fi st)) = EINTR)) as [He|He].
    + rewrite wait_pass_interrupted by done. by constructor.
    + rewrite wait_pass_poll_failed by done. by constructor.
  - destruct (ext_sheep_need_retry (h ++ [poll_event h (w_fi st)]) ep) eqn:Hr.
    + destruct (decide (w_repeat st = 0)) as [Hz|Hnz].
      * rewrite wait_pass_timeout_give_up by auto. rewrite Hr.
        rewrite <- Hr at 2. constructor; auto.
      * rewrite wait_pass_timeout_retry by done. by constructor.
    + rewrite wait_pass_timeout_give_up by auto. rewrite Hr.
      rewrite <- Hr at 2. constructor; auto.
  - destruct (pollin_cases (poll_answer h (w_fi st))
                (Z.to_nat (nr_sent (w_fi st)))) as [Hnone | [i Hfirst]].
    + rewrite wait_pass_none_ready by done. by constructor.
    + assert (is_Some (pending (w_fi st) !! i)) as [e He].
      { apply lookup_lt_is_Some. rewrite length_pending by done.
        by destruct Hfirst. }
      destruct (decide (error_flags (revents_at (poll_answer h (w_fi st)) i) = 0))
        as [Hok|Hbad].
      * destruct (ext_do_read (h ++ [poll_event h (w_fi st)]) (pfd_fd (pfd e)) ep
                    MAX_RETRY_COUNT) as [r rsp] eqn:Hread.
        destruct (decide (r = 0)) as [->|Hr].
        -- destruct (wait_pass_read_ok ep i e st h rsp) as (fi' & _ & ? & ? & ->);
             try done.
           by econstructor.
        -- destruct (wait_pass_read_failed ep i e st h r rsp)
             as (fi' & _ & ? & ? & ->); try done.
           by econstructor.
      * destruct (wait_pass_ready_error ep i e st h) as (fi' & _ & ? & ? & ->);
          try done.
        by econstructor.
Qed.

End WaiterStep.

(** ** Reading traces: list lemmas *)

Section Traces.
Context {E : Externals}.

Lemma released_app evs1 evs2 : released (evs1 ++ evs2) = released evs1 ++ released evs2.
Proof. apply omap_app. Qed.

Lemma released_evict (l : list forward_info_entry) : released (evict <$> l) = conn <$> l.
Proof.
  induction l as [|e l IH]; [done|].
  change (released (evict <$> e :: l)) with (conn e :: released (evict <$> l)).
  by rewrite IH.
Qed.

Lemma session_error_app init evs1 evs2 :
  session_error init (evs1 ++ evs2) = session_error (session_error init evs1) evs2.
Proof. apply foldl_app. Qed.

Lemma session_error_evict init (l : list forward_info_entry) :
  l ≠ [] → session_error init (evict <$> l) = SD_RES_NETWORK_ERROR.
Proof.
  intros Hl. revert init. induction l as [|e l IH]; [done|]. intros init.
  destruct l as [|e' l]; [done|].
  change (session_error init (evict <$> e :: e' :: l))
    with (session_error SD_RES_NETWORK_ERROR (evict <$> e' :: l)).
  by apply IH.
Qed.

Lemma session_error_provenance init evs :
  session_error init evs ∈ init :: SD_RES_NETWORK_ERROR :: replied evs.
Proof.
  induction evs as [|ev evs IH] using rev_ind; [apply list_elem_of_here|].
  rewrite session_error_app. unfold replied in *. rewrite omap_app.
  rewrite !elem_of_cons, elem_of_app. rewrite !elem_of_cons in IH.
  assert (Hkeep : session_error init evs = init
                  ∨ session_error init evs = SD_RES_NETWORK_ERROR
                  ∨ session_error init evs ∈ omap replied_result evs
                    ∨ session_error init evs ∈ omap replied_result [ev])
    by tauto.
  destruct ev; try exact Hkeep.
  - (* an eviction *) right; left. reflexivity.
  - (* a read *)
    cbn [session_error foldl session_error_step omap list_omap replied_result].
    destruct (decide (ret = 0)) as [->|Hr].
    + destruct (decide (0 = 0 ∧ int_wrap (result rsp) ≠ SD_RES_SUCCESS)).
      * right; right; right. apply list_elem_of_here.
      * tauto.
    + rewrite decide_False by tauto. tauto.
Qed.

End Traces.

Section WaiterInvariant.
Context {E : Externals}.
Implicit Types (fi : forward_info) (e : forward_info_entry) (st : wait_state).

Lemma wait_step_events ep st h o evs :
  wait_step ep st h o evs → Forall waiter_event evs.
Proof.
  intros Hstep. inversion Hstep; subst; repeat constructor.
  apply Forall_fmap, Forall_true. done.
Qed.

Lemma pending_nonempty fi : fi_wf fi → 0 < nr_sent fi → pending fi ≠ [].
Proof.
  intros Hwf Hn Hnil. apply (f_equal length) in Hnil.
  rewrite length_pending in Hnil by done. simpl in Hnil. lia.
Qed.

Lemma pending_empty fi : fi_wf fi → ¬ 0 < nr_sent fi → pending fi = [].
Proof.
  intros Hwf Hn. apply length_zero_iff_nil. rewrite length_pending by done.
  destruct Hwf as [? ?]. lia.
Qed.

(** What leaving through [out] preserves. *)
Lemma wait_out_summary st0 st (evs : list event) e (i : nat) :
  fi_wf (w_fi st) →
  pending (w_fi st0) !! i = Some e →
  pending (w_fi st) = delete i (pending (w_fi st0)) →
  released evs = [conn e] →
  w_err_ret st = session_error (w_err_ret st0) evs →
  match wait_out st with
  | inl st' =>
      live st' ∧
      released evs ++ (conn <$> pending (w_fi st')) ≡ₚ conn <$> pending (w_fi st0) ∧
      w_err_ret st' = session_error (w_err_ret st0) evs
  | inr (r, _) =>
      released evs ≡ₚ conn <$> pending (w_fi st0) ∧
      r = session_error (w_err_ret st0) evs
  end.
Proof.
  intros Hwf He Hp Hrel Herr. unfold wait_out.
  assert (Hperm : conn e :: (conn <$> pending (w_fi st)) ≡ₚ conn <$> pending (w_fi st0)).
  { rewrite Hp. rewrite (delete_Permutation _ _ _ He) at 2. done. }
  case_decide as Hn.
  - split_and!; try done. by rewrite Hrel.
  - split; [|done]. rewrite Hrel, <- Hperm.
    by rewrite (pending_empty _ Hwf Hn).
Qed.

Lemma wait_step_summary ep st h x evs :
  wait_step ep st h (Returned x) evs → live st →
  match x with
  | inl st' =>
      live st' ∧
      released evs ++ (conn <$> pending (w_fi st')) ≡ₚ conn <$> pending (w_fi st) ∧
      w_err_ret st' = session_error (w_err_ret st) evs
  | inr (r, _) =>
      released evs ≡ₚ conn <$> pending (w_fi st) ∧
      r = session_error (w_err_ret st) evs
  end.
Proof.
  intros Hstep [Hwf Hn]. inversion Hstep; subst.
  - (* interrupted *) done.
  - (* retry after a timeout *) done.
  - (* give up after a timeout *)
    split.
    + rewrite released_app, released_evict. done.
    + rewrite session_error_app, session_error_evict; [done|].
      by apply pending_nonempty.
  - (* nothing readable *)
    unfold wait_out. rewrite decide_True by done. done.
  - (* error flags *)
    eapply (wait_out_summary st); try done.
  - (* read failed *)
    eapply (wait_out_summary st); try done.
  - (* read a response *)
    eapply (wait_out_summary st); try done.
    simpl. unfold session_error; simpl.
    repeat case_decide; try done; tauto.
Qed.

Theorem wait_loop_summary fuel ep st h r rsp evs :
  live st →
  run (wait_loop fuel ep st) h = (Returned (r, rsp), evs) →
  released evs ≡ₚ conn <$> pending (w_fi st) ∧
  r = session_error (w_err_ret st) evs.
Proof.
  revert st h evs. induction fuel as [|fuel IH]; intros st h evs Hlive Hrun.
  { discriminate. }
  simpl in Hrun. rewrite run_bind in Hrun.
  pose proof (wait_pass_step ep st h (proj1 Hlive)) as Hstep.
  destruct (run (wait_pass ep st) h) as [[[st'|[r' rsp']]| | |] evs1];
    simpl in Hstep; try discriminate.
  - pose proof (wait_step_summary _ _ _ _ _ Hstep Hlive) as (Hlive' & Hperm & Herr).
    destruct (run (wait_loop fuel ep st') (h ++ evs1)) as [o evs2] eqn:Hrest.
    injection Hrun as -> <-.
    destruct (IH _ _ _ Hlive' Hrest) as [Hperm2 ->].
    rewrite released_app, session_error_app, Hperm2, <- Herr. done.
  - pose proof (wait_step_summary _ _ _ _ _ Hstep Hlive) as (Hperm & Herr).
    rewrite run_ret in Hrun. injection Hrun as -> -> <-.
    by rewrite app_nil_r.
Qed.

Theorem wait_loop_events fuel ep st h :
  live st → Forall waiter_event (run (wait_loop fuel ep st) h).2.
Proof.
  revert st h. induction fuel as [|fuel IH]; intros st h Hlive.
  { constructor. }
  simpl. rewrite run_bind.
  pose proof (wait_pass_step ep st h (proj1 Hlive)) as Hstep.
  pose proof (wait_step_events _ _ _ _ _ Hstep) as Hevs.
  destruct (run (wait_pass ep st) h) as [[[st'|[r' rsp']]| | |] evs1];
    simpl in *; try done.
  - pose proof (wait_step_summary _ _ _ _ _ Hstep Hlive) as (Hlive' & _).
    apply Forall_app. split; [done|]. by apply IH.
  - by rewrite app_nil_r.
Qed.

Lemma wait_loop_unfold fuel ep st h :
  run (wait_loop (S fuel) ep st) h =
    match run (wait_pass ep st) h with
    | (Returned (inl st'), evs) =>
        emit_before evs (run (wait_loop fuel ep st') (h ++ evs))
    | (Returned (inr v), evs) => (Returned v, evs)
    | (Panicked, evs) => (Panicked, evs)
    | (Faulted, evs) => (Faulted, evs)
    | (OutOfFuel, evs) => (OutOfFuel, evs)
    end.
Proof.
  simpl. rewrite run_bind.
  destruct (run (wait_pass ep st) h) as [[[st'|v]| | |] evs]; try done.
  msteps. done.
Qed.

End WaiterInvariant.

(** ** The send phase *)

Section EventClasses.
Context {E : Externals}.

Lemma waiter_events_not_sender evs :
  Forall waiter_event evs →
  attempted evs = [] ∧ acquired evs = [] ∧ send_rets evs = [] ∧
  send_failed evs = false.
Proof.
  induction 1 as [|ev evs Hev _ (IH1 & IH2 & IH3 & IH4)]; [done|].
  unfold attempted, acquired, send_rets, send_failed in *.
  destruct ev; try done; simpl; by rewrite ?IH1, ?IH2, ?IH3, ?IH4.
Qed.

Lemma sender_events_not_waiter evs init :
  Forall sender_event evs →
  released evs = [] ∧ replied evs = [] ∧ session_error init evs = init.
Proof.
  induction 1 as [|ev evs Hev _ (IH1 & IH2 & IH3)]; [done|].
  unfold released, replied, session_error in *.
  destruct ev; try done; simpl; by rewrite ?IH1, ?IH2, ?IH3.
Qed.

Lemma attempted_app evs1 evs2 : attempted (evs1 ++ evs2) = attempted evs1 ++ attempted evs2.
Proof. apply omap_app. Qed.

Lemma replied_app evs1 evs2 : replied (evs1 ++ evs2) = replied evs1 ++ replied evs2.
Proof. apply omap_app. Qed.

Lemma send_failed_app evs1 evs2 :
  send_failed (evs1 ++ evs2) = send_failed evs1 || send_failed evs2.
Proof. apply existsb_app. Qed.

Lemma sent_app_waiter evs1 evs2 :
  Forall waiter_event evs2 → sent (evs1 ++ evs2) = sent evs1.
Proof.
  intros (_ & Ha & Hs & _)%waiter_events_not_sender.
  unfold sent, acquired, send_rets in *.
  by rewrite !omap_app, Ha, Hs, !app_nil_r.
Qed.

End EventClasses.

Section SendPhase.
Context {E : Externals}.
Implicit Types (fi : forward_info) (e : forward_info_entry).

Lemma forward_send_loop_summary (n i : nat) req hdr wlen targets err fi h :
  fi_wf fi →
  nr_sent fi + Z.of_nat n ≤ Z.of_nat (length (ent fi)) →
  (i + n ≤ length targets)%nat →
  ∃ err' fi' evs,
    run (forward_send_loop n (Z.of_nat i) req hdr wlen targets err fi) h
      = (Returned (err', fi'), evs) ∧
    fi_wf fi' ∧
    conn <$> pending fi' = (conn <$> pending fi) ++ sent evs ∧
    Forall sender_event evs ∧
    attempted evs = nid <$> take (length (attempted evs)) (drop i targets) ∧
    (if send_failed evs
     then err' = SD_RES_NETWORK_ERROR ∧
          length (attempted evs) = S (length (sent evs)) ∧
          (length (sent evs) < n)%nat
     else err' = err ∧ length (attempted evs) = n ∧ length (sent evs) = n).
Proof.
  revert i fi h. induction n as [|n IH]; intros i fi h Hwf Hroom Htargets.
  { exists err, fi, []. simpl. rewrite app_nil_r. split_and!; done. }
  simpl. mstep. rewrite array_get_nat.
  destruct (targets !! i) as [t|] eqn:Ht.
  2:{ apply lookup_ge_None in Ht. lia. }
  msteps.
  destruct (ext_sockfd_cache_get h (nid t)) as [sfd|] eqn:Hget.
  2:{ (* no connection *)
      msteps. exists SD_RES_NETWORK_ERROR, fi, [EvSockfdCacheGet (nid t) None].
      split_and!; try done.
      - by rewrite app_nil_r.
      - by repeat constructor.
      - simpl. by rewrite (drop_S _ _ _ Ht).
      - simpl. lia. }
  msteps.
  set (ret := ext_send_req _ _ _ _ _ _ _).
  destruct (decide (ret ≠ 0)) as [Hret|Hret].
  { (* the send failed *)
    msteps.
    exists SD_RES_NETWORK_ERROR, fi,
      [EvSockfdCacheGet (nid t) (Some sfd);
       EvSendReq (fd sfd) hdr wlen ret; EvSockfdCacheDelNode (nid t)].
    split_and!; try done.
    - unfold sent. simpl. rewrite filter_cons_False by done.
      by rewrite app_nil_r.
    - by repeat constructor.
    - simpl. by rewrite (drop_S _ _ _ Ht).
    - unfold send_failed. simpl. rewrite bool_decide_true by done. simpl.
      unfold sent. simpl. rewrite filter_cons_False by done. simpl.
      split_and!; [done..|lia]. }
  assert (ret = 0) as Hret0 by (destruct (decide (ret = 0)); tauto).
  destruct (forward_info_advance_wf fi (nid t) sfd Hwf)
    as (fi1 & e & Hadv & Hwf1 & Hp1 & Hconn & _ & Hn1 & Hlen1); [lia|].
  mstep. rewrite Hadv. msteps.
  replace (Z.of_nat i + 1) with (Z.of_nat (S i)) by lia.
  destruct (IH (S i) fi1
              (h ++ [EvSockfdCacheGet (nid t) (Some sfd);
                     EvSendReq (fd sfd) hdr wlen ret]))
    as (err' & fi' & evs & Hrun & Hwf' & Hp' & Hevs & Hatt & Hfail);
    [done | rewrite Hn1, Hlen1; lia | lia |].
  rewrite <- app_assoc. cbn [app]. rewrite Hrun. mstep.
  exists err', fi', (EvSockfdCacheGet (nid t) (Some sfd)
                     :: EvSendReq (fd sfd) hdr wlen ret :: evs).
  assert (Hsent : sent (EvSockfdCacheGet (nid t) (Some sfd)
                        :: EvSendReq (fd sfd) hdr wlen ret :: evs)
                  = (nid t, sfd) :: sent evs).
  { unfold sent. simpl. by rewrite filter_cons_True by done. }
  split_and!; try done.
  - rewrite Hp', Hp1, fmap_app, Hsent, <- app_assoc. simpl. by rewrite Hconn.
  - by repeat constructor.
  - change (attempted (EvSockfdCacheGet (nid t) (Some sfd)
                       :: EvSendReq (fd sfd) hdr wlen ret :: evs))
      with (nid t :: attempted evs).
    simpl. rewrite (drop_S _ _ _ Ht). simpl. f_equal. exact Hatt.
  - change (send_failed (EvSockfdCacheGet (nid t) (Some sfd)
                         :: EvSendReq (fd sfd) hdr wlen ret :: evs))
      with (bool_decide (ret ≠ 0) || send_failed evs).
    rewrite bool_decide_false by auto. simpl. rewrite Hsent.
    change (attempted (EvSockfdCacheGet (nid t) (Some sfd)
                       :: EvSendReq (fd sfd) hdr wlen ret :: evs))
      with (nid t :: attempted evs).
    simpl. destruct (send_failed evs).
    + destruct Hfail as (-> & -> & Hlt). split_and!; [done..|simpl; lia].
    + destruct Hfail as (-> & -> & ->). done.
Qed.

End SendPhase.

(** ** The fan-out as a whole *)

Section FanOut.
Context {E : Externals}.
Implicit Types (fi : forward_info) (e : forward_info_entry).

Lemma wait_forward_request_run fuel fi req h :
  run (wait_forward_request fuel fi req) h =
    match run (wait_loop fuel (epoch (rq req)) (wait_start fi req)) h with
    | (Returned (ret, rsp), evs) => (Returned (ret, set_rp req rsp), evs)
    | (Panicked, evs) => (Panicked, evs)
    | (Faulted, evs) => (Faulted, evs)
    | (OutOfFuel, evs) => (OutOfFuel, evs)
    end.
Proof.
  unfold wait_forward_request. rewrite run_bind. fold (wait_start fi req).
  destruct (run (wait_loop fuel (epoch (rq req)) (wait_start fi req)) h)
    as [[[ret rsp]| | |] evs]; try done.
  msteps. done.
Qed.

Lemma size_t_of_int_small z : 0 ≤ z ≤ INT_MAX → size_t_of_int z = z.
Proof. unfold INT_MAX, size_t_of_int. intros ?. apply Z.mod_small. lia. Qed.

(** The fan-out, taken apart: resolve, send, and (if anything was sent)
    wait. *)
Lemma gateway_forward_request_run fuel req h :
  fan_out_ready req →
  let oid := obj_oid (rq req) in
  let nr_copies := get_req_copy_number req in
  let targets := ext_oid_to_nodes oid (vroot (vinfo req)) nr_copies in
  ∃ err fi evs,
    fi_wf fi ∧ conn <$> pending fi = sent evs ∧ Forall sender_event evs ∧
    attempted evs = nid <$> take (length (attempted evs)) targets ∧
    (if send_failed evs
     then err = SD_RES_NETWORK_ERROR ∧
          length (attempted evs) = S (length (sent evs)) ∧
          (length (sent evs) < Z.to_nat nr_copies)%nat
     else err = SD_RES_SUCCESS ∧
          length (attempted evs) = Z.to_nat nr_copies ∧
          length (sent evs) = Z.to_nat nr_copies) ∧
    run (gateway_forward_request fuel req) h =
      if decide (0 < nr_sent fi) then
        let h' := h ++ EvOidToNodes oid nr_copies :: evs in
        let w := run (wait_loop fuel (epoch (rq req)) (wait_start fi req)) h' in
        (forward_result err req w.1, EvOidToNodes oid nr_copies :: evs ++ w.2)
      else (Returned (err, req), EvOidToNodes oid nr_copies :: evs).
Proof.
  intros (Hn & Hmax & Htargets) oid nr_copies targets.
  fold nr_copies in Hn, Htargets. fold oid targets in Htargets.
  destruct (forward_info_init_wf fi_on_stack nr_copies)
    as (fi0 & Hinit & Hwf0 & Hn0 & Hlen0); [lia | done |].
  destruct (forward_send_loop_summary (Z.to_nat nr_copies) 0 req
              (gateway_init_fwd_hdr (rq req))
              (data_length (gateway_init_fwd_hdr (rq req)))
              targets SD_RES_SUCCESS fi0
              (h ++ [EvOidToNodes oid nr_copies]))
    as (err & fi & evs & Hrun & Hwf & Hp & Hevs & Hatt & Hfail);
    [done | lia | simpl; lia |].
  exists err, fi, evs. rewrite drop_0 in Hatt.
  split_and!; try done.
  { rewrite Hp. unfold pending. rewrite Hn0. done. }
  unfold gateway_forward_request. fold oid nr_copies.
  msteps. fold targets.
  rewrite size_t_of_int_small by lia. rewrite Hinit. msteps.
  change (Z.of_nat 0) with 0 in Hrun. rewrite Hrun. msteps.
  destruct (decide (0 < nr_sent fi)) as [Hsent|Hsent]; [|by msteps].
  mstep. rewrite wait_forward_request_run.
  rewrite <- app_assoc. cbn [app].
  destruct (run (wait_loop fuel (epoch (rq req)) (wait_start fi req))
              (h ++ EvOidToNodes oid nr_copies :: evs))
    as [[[ret rsp]| | |] evs_w]; cbn [fst snd forward_result]; try done.
  msteps. by destruct (decide (ret ≠ SD_RES_SUCCESS)); msteps.
Qed.


Lemma live_wait_start fi req : fi_wf fi → 0 < nr_sent fi → live (wait_start fi req).
Proof. by split. Qed.

(** The same, with the trace split into what the send phase and what the
    waiter produced. *)
Lemma gateway_forward_request_shape fuel req h :
  fan_out_ready req →
  let oid := obj_oid (rq req) in
  let nr_copies := get_req_copy_number req in
  let targets := ext_oid_to_nodes oid (vroot (vinfo req)) nr_copies in
  ∃ err fi evs_s o evs_w,
    run (gateway_forward_request fuel req) h
      = (o, EvOidToNodes oid nr_copies :: evs_s ++ evs_w) ∧
    fi_wf fi ∧ conn <$> pending fi = sent evs_s ∧
    Forall sender_event evs_s ∧ Forall waiter_event evs_w ∧
    attempted evs_s = nid <$> take (length (attempted evs_s)) targets ∧
    (if send_failed evs_s
     then err = SD_RES_NETWORK_ERROR ∧
          length (attempted evs_s) = S (length (sent evs_s)) ∧
          (length (sent evs_s) < Z.to_nat nr_copies)%nat
     else err = SD_RES_SUCCESS ∧
          length (attempted evs_s) = Z.to_nat nr_copies ∧
          length (sent evs_s) = Z.to_nat nr_copies) ∧
    (if decide (0 < nr_sent fi)
     then ∃ w, run (wait_loop fuel (epoch (rq req)) (wait_start fi req))
                 (h ++ EvOidToNodes oid nr_copies :: evs_s) = (w, evs_w) ∧
               o = forward_result err req w
     else o = Returned (err, req) ∧ evs_w = []).
Proof.
  intros Hready oid nr_copies targets.
  destruct (gateway_forward_request_run fuel req h Hready)
    as (err & fi & evs_s & Hwf & Hp & Hevs & Hatt & Hfail & Hrun).
  fold oid nr_copies targets in Hatt, Hfail, Hrun.
  destruct (decide (0 < nr_sent fi)) as [Hsent|Hsent].
  - destruct (run (wait_loop fuel (epoch (rq req)) (wait_start fi req))
                (h ++ EvOidToNodes oid nr_copies :: evs_s)) as [w evs_w] eqn:Hw.
    exists err, fi, evs_s, (forward_result err req w), evs_w.
    simpl in Hrun. rewrite Hw in Hrun. split_and!; try done.
    + pose proof (wait_loop_events fuel (epoch (rq req)) (wait_start fi req)
                    (h ++ EvOidToNodes oid nr_copies :: evs_s)
                    (live_wait_start fi req Hwf Hsent)) as Hev.
      by rewrite Hw in Hev.
    + rewrite decide_True by done. by exists w.
  - exists err, fi, evs_s, (Returned (err, req)), [].
    rewrite app_nil_r. split_and!; try done.
    by rewrite decide_False by done.
Qed.

Lemma trace_send_phase oid nr_copies evs_s evs_w :
  Forall waiter_event evs_w →
  let evs := EvOidToNodes oid nr_copies :: evs_s ++ evs_w in
  attempted evs = attempted evs_s ∧ sent evs = sent evs_s ∧
  send_failed evs = send_failed evs_s.
Proof.
  intros Hw. pose proof (waiter_events_not_sender _ Hw) as (Ha & _ & _ & Hf).
  split_and!.
  - change (attempted (evs_s ++ evs_w) = attempted evs_s).
    by rewrite attempted_app, Ha, app_nil_r.
  - change (sent (evs_s ++ evs_w) = sent evs_s). by apply sent_app_waiter.
  - change (send_failed (evs_s ++ evs_w) = send_failed evs_s).
    by rewrite send_failed_app, Hf, orb_false_r.
Qed.

Lemma trace_wait_phase oid nr_copies evs_s evs_w init :
  Forall sender_event evs_s →
  let evs := EvOidToNodes oid nr_copies :: evs_s ++ evs_w in
  released evs = released evs_w ∧ replied evs = replied evs_w ∧
  session_error init evs = session_error init evs_w.
Proof.
  intros Hs. pose proof (sender_events_not_waiter _ init Hs) as (Hr & Hp & He).
  split_and!.
  - change (released (evs_s ++ evs_w) = released evs_w).
    by rewrite released_app, Hr.
  - change (replied (evs_s ++ evs_w) = replied evs_w).
    by rewrite replied_app, Hp.
  - change (session_error init (evs_s ++ evs_w) = session_error init evs_w).
    by rewrite session_error_app, He.
Qed.

(** The send phase of a fan-out as its whole trace shows it. *)
Lemma gateway_forward_request_attempts fuel req h :
  fan_out_ready req →
  let nr_copies := get_req_copy_number req in
  let targets :=
    ext_oid_to_nodes (obj_oid (rq req)) (vroot (vinfo req)) nr_copies in
  let evs := (run (gateway_forward_request fuel req) h).2 in
  attempted evs = nid <$> take (length (attempted evs)) targets ∧
  length (attempted evs) =
    (if send_failed evs then S (length (sent evs)) else Z.to_nat nr_copies) ∧
  (length (attempted evs) ≤ Z.to_nat nr_copies)%nat.
Proof.
  intros Hready nr_copies targets.
  destruct (gateway_forward_request_shape fuel req h Hready)
    as (err & fi & evs_s & o & evs_w & -> & Hwf & Hp & Hevs & Hw & Hatt & Hfail & _).
  fold nr_copies targets in Hatt, Hfail |- *. cbn [snd].
  destruct (trace_send_phase (obj_oid (rq req)) nr_copies evs_s evs_w Hw)
    as (-> & -> & ->).
  split; [done|]. destruct (send_failed evs_s).
  - destruct Hfail as (_ & -> & ?). split; [done|lia].
  - destruct Hfail as (_ & -> & _). split; [done|lia].
Qed.

(** What a fan-out returns, and that it drains what it sent. *)
Lemma gateway_forward_request_result fuel req h r req' evs :
  fan_out_ready req →
  run (gateway_forward_request fuel req) h = (Returned (r, req'), evs) →
  released evs ≡ₚ sent evs ∧
  r = (if decide (session_error SD_RES_SUCCESS evs ≠ SD_RES_SUCCESS)
       then session_error SD_RES_SUCCESS evs
       else if send_failed evs then SD_RES_NETWORK_ERROR else SD_RES_SUCCESS).
Proof.
  intros Hready Hrun.
  destruct (gateway_forward_request_shape fuel req h Hready)
    as (err & fi & evs_s & o & evs_w & Hrun' & Hwf & Hp & Hevs & Hw & _ & Hfail & Hwait).
  rewrite Hrun in Hrun'. injection Hrun' as <- ->.
  destruct (trace_send_phase (obj_oid (rq req)) (get_req_copy_number req)
              evs_s evs_w Hw) as (_ & -> & ->).
  destruct (trace_wait_phase (obj_oid (rq req)) (get_req_copy_number req)
              evs_s evs_w SD_RES_SUCCESS Hevs) as (-> & _ & ->).
  assert (err = if send_failed evs_s then SD_RES_NETWORK_ERROR else SD_RES_SUCCESS)
    as Herr by (destruct (send_failed evs_s); by destruct Hfail).
  destruct (decide (0 < nr_sent fi)) as [Hsent|Hsent].
  - destruct Hwait as ([[ret rsp]| | |] & Hloop & Hres); try done.
    destruct (wait_loop_summary _ _ _ _ _ _ _ (live_wait_start fi req Hwf Hsent) Hloop)
      as [Hperm Hret].
    cbn [wait_start w_fi w_err_ret] in Hperm, Hret. injection Hres as -> _.
    split; [by rewrite Hperm, Hp|]. rewrite <- Hret, <- Herr. done.
  - destruct Hwait as [[= -> _] ->].
    rewrite <- Hp, (pending_empty _ Hwf Hsent). split; [done|].
    simpl. rewrite decide_False by auto. done.
Qed.

End FanOut.

(** ** Termination *)

Section Termination.
Context {E : Externals}.
Implicit Types (fi : forward_info) (e : forward_info_entry) (st : wait_state).

Lemma nr_sent_delete fi fi' (i : nat) e :
  fi_wf fi → fi_wf fi' → pending fi !! i = Some e →
  pending fi' = delete i (pending fi) →
  nr_sent fi' = nr_sent fi - 1.
Proof.
  intros Hwf Hwf' He Hp. apply (f_equal length) in Hp.
  rewrite length_delete in Hp by eauto.
  rewrite !length_pending in Hp by done.
  apply lookup_lt_Some in He. rewrite length_pending in He by done.
  destruct Hwf as [? _], Hwf' as [? _]. lia.
Qed.

(** With a responsive [poll], the waiter returns: every pass uses up one
    unit of the retry budget or completes one entry. *)
Theorem wait_loop_returns fuel ep st h :
  responsive_poll → live st → 0 ≤ w_repeat st ≤ INT_MAX →
  (Z.to_nat (w_repeat st) + Z.to_nat (nr_sent (w_fi st)) < fuel)%nat →
  ∃ r rsp evs, run (wait_loop fuel ep st) h = (Returned (r, rsp), evs).
Proof.
  intros Hpoll. revert st h.
  induction fuel as [|fuel IH]; intros st h Hlive Hrep Hfuel; [lia|].
  rewrite wait_loop_unfold.
  pose proof (wait_pass_step ep st h (proj1 Hlive)) as Hstep.
  destruct (run (wait_pass ep st) h) as [o evs1]. cbn [fst snd] in Hstep.
  destruct Hlive as [Hwf Hn].
  assert (∀ fi' err rsp (i : nat) e,
            fi_wf fi' → pending (w_fi st) !! i = Some e →
            pending fi' = delete i (pending (w_fi st)) →
            ∀ evs, ∃ r rsp' evs',
              match wait_out {| w_fi := fi'; w_err_ret := err;
                                w_repeat := w_repeat st; w_rp := rsp |} with
              | inl st' => emit_before evs (run (wait_loop fuel ep st') (h ++ evs))
              | inr v => (Returned v, evs)
              end = (Returned (r, rsp'), evs')) as Hout.
  { intros fi' err rsp i e Hwf' He Hp evs.
    pose proof (nr_sent_delete _ _ _ _ Hwf Hwf' He Hp) as Hn'.
    unfold wait_out. cbn [w_fi w_err_ret w_rp].
    destruct (decide (0 < nr_sent fi')) as [Hmore|Hdone]; [|by eexists _, _, _].
    destruct (IH {| w_fi := fi'; w_err_ret := err; w_repeat := w_repeat st;
                    w_rp := rsp |} (h ++ evs)) as (r & rsp' & evs' & ->);
      [by split | done | cbn [w_fi w_repeat]; lia |].
    by eexists _, _, _. }
  destruct (Hpoll h (w_fi st) Hwf Hn) as [Hzero | [Hpos [i0 Hfirst0]]];
    inversion Hstep as
      [ Hneg _ | Hneg _ | Hz Hretry Hnz | Hz Hstop
      | Hp0 Hnone | i e fi' Hp0 Hfirst He _ Hwf' Hp
      | i e fi' r rsp Hp0 Hfirst He _ _ _ Hwf' Hp
      | i e fi' rsp Hp0 Hfirst He _ _ Hwf' Hp ];
    subst o evs1; try lia.
  - (* a timeout, and another try *)
    destruct (IH (with_repeat st (int_sub (w_repeat st) 1))
                (h ++ [poll_event h (w_fi st); EvSheepNeedRetry ep true]))
      as (r & rsp & evs & ->).
    + by split.
    + cbn [with_repeat w_repeat].
      rewrite int_sub_small by (unfold INT_MIN, INT_MAX in *; lia). lia.
    + cbn [with_repeat w_repeat w_fi].
      rewrite int_sub_small by (unfold INT_MIN, INT_MAX in *; lia). lia.
    + by eexists _, _, _.
  - (* a timeout, and no more tries *)
    by eexists _, _, _.
  - (* woken up for nothing: excluded *)
    destruct Hfirst0 as (Hi & Hon & _). by specialize (Hnone i0 Hi).
  - by apply (Hout fi' _ _ i e).
  - by apply (Hout fi' _ _ i e).
  - by apply (Hout fi' _ _ i e).
Qed.

(** With a responsive [poll] and fuel for the retry budget and the copies,
    the fan-out returns. *)
Theorem gateway_forward_request_returns fuel req h :
  fan_out_ready req → responsive_poll → 0 ≤ MAX_RETRY_COUNT ≤ INT_MAX →
  (Z.to_nat MAX_RETRY_COUNT + Z.to_nat (get_req_copy_number req) < fuel)%nat →
  ∃ r req' evs,
    run (gateway_forward_request fuel req) h = (Returned (r, req'), evs).
Proof.
  intros Hready Hpoll Hbudget Hfuel.
  destruct (gateway_forward_request_shape fuel req h Hready)
    as (err & fi & evs_s & o & evs_w & -> & Hwf & Hp & _ & _ & _ & Hfail & Hwait).
  destruct (decide (0 < nr_sent fi)) as [Hsent|Hsent].
  2:{ destruct Hwait as [-> ->]. by eexists _, _, _. }
  destruct Hwait as (w & Hloop & ->).
  destruct (wait_loop_returns fuel (epoch (rq req)) (wait_start fi req)
              (h ++ EvOidToNodes (obj_oid (rq req)) (get_req_copy_number req)
                    :: evs_s))
    as (r & rsp & evs & Hret); [done | by split | done | |].
  - cbn [wait_start w_repeat w_fi].
    assert (length (sent evs_s) = Z.to_nat (nr_sent fi)) as Hlen.
    { rewrite <- Hp, length_fmap. by apply length_pending. }
    destruct (send_failed evs_s).
    + destruct Hfail as (_ & _ & ?). lia.
    + destruct Hfail as (_ & _ & ?). lia.
  - rewrite Hloop in Hret. injection Hret as -> ->.
    by eexists _, _, _.
Qed.

End Termination.

(** ** The read path *)

Section ReadPath.
Context {E : Externals}.

Lemma read_local_loop_none (n i : nat) vs req ret h :
  (i + n ≤ length vs)%nat →
  (∀ j u, (i ≤ j < i + n)%nat → vs !! j = Some u → vnode_is_local u = false) →
  run (read_local_loop n (Z.of_nat i) vs req ret) h = (Returned (inr (ret, req)), []).
Proof.
  revert i. induction n as [|n IH]; intros i Hlen Hremote; [done|].
  simpl. mstep. rewrite array_get_nat.
  destruct (vs !! i) as [v|] eqn:Hv.
  2:{ apply lookup_ge_None in Hv. lia. }
  msteps. rewrite (Hremote i v) by (done || lia). simpl.
  replace (Z.of_nat i + 1) with (Z.of_nat (S i)) by lia.
  apply IH; [lia|]. intros j u Hj. apply Hremote. lia.
Qed.

Lemma read_local_loop_first (n i k : nat) vs v req ret h :
  (i ≤ k < i + n)%nat → vs !! k = Some v → vnode_is_local v = true →
  (∀ j u, (i ≤ j < k)%nat → vs !! j = Some u → vnode_is_local u = false) →
  run (read_local_loop n (Z.of_nat i) vs req ret) h =
    (Returned (if decide ((ext_peer_read_obj h req).1 = SD_RES_SUCCESS)
               then inl (ext_peer_read_obj h req)
               else inr (ext_peer_read_obj h req)),
     [EvPeerReadObj (obj_oid (rq req)) (ext_peer_read_obj h req).1]).
Proof.
  revert i. induction n as [|n IH]; intros i Hk Hv Hlocal Hremote; [lia|].
  simpl. mstep. rewrite array_get_nat.
  destruct (decide (i = k)) as [->|Hne].
  - rewrite Hv. msteps. rewrite Hlocal. simpl. msteps.
    destruct (ext_peer_read_obj h req) as [r req1]. simpl.
    by destruct (decide (r = SD_RES_SUCCESS)); msteps.
  - destruct (vs !! i) as [u|] eqn:Hu.
    2:{ apply lookup_ge_None in Hu. apply lookup_lt_Some in Hv. lia. }
    msteps. rewrite (Hremote i u) by (done || lia). simpl.
    replace (Z.of_nat i + 1) with (Z.of_nat (S i)) by lia.
    apply IH; [lia|done|done|]. intros j w Hj. apply Hremote. lia.
Qed.

Lemma read_remote_loop_events (n : nat) i j nr_copies vs req ret h :
  Forall remote_read_event
    (run (read_remote_loop n i j nr_copies vs req ret) h).2.
Proof.
  revert i req ret h. induction n as [|n IH]; intros i req ret h; [constructor|].
  simpl. mstep.
  destruct (array_get vs (int_rem (int_add i j) nr_copies)) as [v|];
    msteps; [|constructor].
  destruct (vnode_is_local v); [apply IH|].
  msteps.
  destruct (ext_sheep_exec_req h (nid (node v)) (gateway_init_fwd_hdr (rq req))
              (data req)) as [[r rsp] d]. cbn [fst snd].
  destruct (decide (r ≠ SD_RES_SUCCESS)).
  - unfold emit_before. simpl. constructor; [done|]. apply IH.
  - msteps. by repeat constructor.
Qed.

(** The read path up to the end of the first loop, when a local replica
    is among the resolved ones. *)
Lemma gateway_read_obj_local req h (k : nat) v :
  let oid := obj_oid (rq req) in
  let nr_copies := get_req_copy_number req in
  let vs := ext_oid_to_vnodes oid (vroot (vinfo req)) nr_copies in
  read_skips_cache h req →
  (k < Z.to_nat nr_copies)%nat → vs !! k = Some v → vnode_is_local v = true →
  (∀ j u, (j < k)%nat → vs !! j = Some u → vnode_is_local u = false) →
  let pre := cache_check_events h req ++ [EvOidToVnodes oid nr_copies] in
  let local_read := ext_peer_read_obj (h ++ pre) req in
  let ev := EvPeerReadObj oid local_read.1 in
  let r := ext_random (h ++ pre ++ [ev]) in
  run (gateway_read_obj req) h =
    if decide (local_read.1 = SD_RES_SUCCESS)
    then (Returned local_read, pre ++ [ev])
    else emit_before (pre ++ [ev; EvRandom r])
           (run (read_remote_loop (Z.to_nat nr_copies) 0 (int_wrap r) nr_copies
                   vs local_read.2 local_read.1)
                (h ++ pre ++ [ev; EvRandom r])).
Proof.
  intros oid nr_copies vs Hskip Hk Hv Hlocal Hremote pre local_read ev r.
  assert (run (gateway_read_obj req) h =
          emit_before (cache_check_events h req)
            (run (obj_vnodes ← oid_to_vnodes oid (vinfo req) nr_copies;
                  first ← read_local_loop (Z.to_nat nr_copies) 0 obj_vnodes req
                            SD_RES_SUCCESS;
                  match first with
                  | inl out => mret out
                  | inr (ret, req) =>
                      r ← random;
                      read_remote_loop (Z.to_nat nr_copies) 0 (int_wrap r)
                        nr_copies obj_vnodes req ret
                  end) (h ++ cache_check_events h req))) as ->.
  { unfold read_skips_cache, cache_check_events, gateway_read_obj in *.
    mstep. destruct (enable_object_cache && negb (local req)); simpl in Hskip.
    - msteps. rewrite Hskip. by msteps.
    - by msteps. }
  msteps. fold vs.
  rewrite (read_local_loop_first (Z.to_nat nr_copies) 0 k vs v);
    [|lia|done|done|intros j u Hj; apply Hremote; lia].
  rewrite <- app_assoc. fold pre. fold local_read. fold ev.
  destruct (decide (local_read.1 = SD_RES_SUCCESS)) as [Hok|Hfail].
  - msteps. unfold emit_before. simpl. unfold pre. by rewrite <- app_assoc.
  - destruct local_read as [ret req1] eqn:Hread. cbn [fst snd] in *.
    msteps. rewrite <- !app_assoc. cbn [app].
    rewrite !emit_before_app. subst r ev pre. rewrite <- !app_assoc.
    cbn [app]. done.
Qed.

(** The read path when none of the resolved replicas is local: straight to
    the second loop. *)
Lemma gateway_read_obj_no_local req h :
  let oid := obj_oid (rq req) in
  let nr_copies := get_req_copy_number req in
  let vs := ext_oid_to_vnodes oid (vroot (vinfo req)) nr_copies in
  read_skips_cache h req →
  (Z.to_nat nr_copies ≤ length vs)%nat →
  (∀ j u, (j < Z.to_nat nr_copies)%nat → vs !! j = Some u →
          vnode_is_local u = false) →
  let pre := cache_check_events h req ++ [EvOidToVnodes oid nr_copies] in
  let r := ext_random (h ++ pre) in
  run (gateway_read_obj req) h =
    emit_before (pre ++ [EvRandom r])
      (run (read_remote_loop (Z.to_nat nr_copies) 0 (int_wrap r) nr_copies
              vs req SD_RES_SUCCESS)
           (h ++ pre ++ [EvRandom r])).
Proof.
  intros oid nr_copies vs Hskip Hlen Hremote pre r.
  unfold read_skips_cache, gateway_read_obj in *. fold oid nr_copies.
  assert (Hpre : ∀ (k : M (Z * request)),
            run (use_cache ←
                   (if enable_object_cache && negb (local req)
                    then b ← bypass_object_cache req; mret (negb b)
                    else mret false);
                 if use_cache : bool then object_cache_handle_request req
                 else k) h
            = emit_before (cache_check_events h req)
                (run k (h ++ cache_check_events h req))).
  { intros k. unfold cache_check_events. mstep.
    destruct (enable_object_cache && negb (local req)); simpl in Hskip.
    - msteps. rewrite Hskip. by msteps.
    - by msteps. }
  rewrite Hpre. msteps. fold vs.
  rewrite (read_local_loop_none (Z.to_nat nr_copies) 0 vs);
    [|simpl; lia|intros j u Hj; apply Hremote; lia].
  msteps. rewrite !emit_before_app. subst r pre.
  rewrite <- !app_assoc. cbn [app]. done.
Qed.

End ReadPath.

Section ReadFallback.
Context {E : Externals}.

Lemma int_rem_cyclic (i j n : Z) :
  0 ≤ i → 0 ≤ j → 0 < n → i + j ≤ INT_MAX →
  int_rem (int_add i j) n = (j + i) mod n.
Proof.
  intros Hi Hj Hn Hmax. unfold int_rem.
  rewrite int_add_small by (unfold INT_MIN, INT_MAX in *; lia).
  rewrite Z.rem_mod_nonneg by lia. f_equal. lia.
Qed.

(** X26. While [i + j] stays below [INT_MAX], the second loop is the
    fallback pass of the specification over the replicas rotated by [j]. *)
Lemma read_remote_loop_cyclic (n i N : nat) (j : Z) vs req ret h :
  (i + n = N)%nat → (N ≤ length vs)%nat →
  0 ≤ j → j + Z.of_nat N - 1 ≤ INT_MAX →
  run (read_remote_loop n (Z.of_nat i) j (Z.of_nat N) vs req ret) h =
  run (read_fallback_spec (drop i (rotate (Z.to_nat j) (take N vs))) req ret) h.
Proof.
  intros HN Hlen Hj Hmax. revert i req ret h HN.
  induction n as [|n IH]; intros i req ret h HN.
  { simpl. rewrite drop_ge; [done|]. rewrite length_rotate, length_take. lia. }
  assert (Hidx : rotate (Z.to_nat j) (take N vs) !! i
                 = array_get vs (int_rem (int_add (Z.of_nat i) j) (Z.of_nat N))).
  { rewrite int_rem_cyclic by lia.
    rewrite lookup_rotate_r by (rewrite length_take; lia).
    rewrite length_take, Nat.min_l by lia. unfold rotate_nat_add.
    rewrite Z2Nat.id by lia.
    pose proof (Z.mod_pos_bound (j + Z.of_nat i) (Z.of_nat N)).
    rewrite lookup_take_lt by lia.
    unfold array_get. by rewrite decide_True by lia. }
  destruct (rotate (Z.to_nat j) (take N vs) !! i) as [v|] eqn:Hv.
  2:{ apply lookup_ge_None in Hv. rewrite length_rotate, length_take in Hv. lia. }
  rewrite (drop_S _ _ _ Hv). simpl. mstep. rewrite <- Hidx. msteps.
  replace (Z.of_nat i + 1) with (Z.of_nat (S i)) by lia.
  destruct (vnode_is_local v); [apply IH; lia|].
  msteps.
  destruct (ext_sheep_exec_req h (nid (node v)) (gateway_init_fwd_hdr (rq req))
              (data req)) as [[r rsp] d]. cbn [fst snd].
  destruct (decide (r ≠ SD_RES_SUCCESS)); [|done].
  f_equal. apply IH. lia.
Qed.

End ReadFallback.

(** * The claims of the specification *)

(** ** The completion waiter *)

Section WaiterClaims.
Context {E : Externals}.
Implicit Types (fi : forward_info) (e : forward_info_entry) (st : wait_state).

(** C8. When [poll] is interrupted ([EINTR]), the waiter goes straight back
    to the same wait: the pass adds the [poll] call and nothing else to the
    trace, consults no retry oracle, and continues in the very same state,
    so the retry budget [w_repeat] is what it was.  And only timeouts
    consume the budget: whenever a pass goes back to [again], the budget is
    one less if [poll] returned 0, and what it was in every other case (an
    interrupt, a wake-up with nothing to read, an entry completed). *)
Theorem wait_interrupted_repeats fuel ep st h :
  fi_wf (w_fi st) →
  (pollret (poll_answer h (w_fi st)) < 0 →
   poll_errno (poll_answer h (w_fi st)) = EINTR →
   run (wait_pass ep st) h = (Returned (inl st), [poll_event h (w_fi st)]) ∧
   run (wait_loop (S fuel) ep st) h =
     emit_before [poll_event h (w_fi st)]
       (run (wait_loop fuel ep st) (h ++ [poll_event h (w_fi st)]))) ∧
  (∀ st' evs,
     run (wait_pass ep st) h = (Returned (inl st'), evs) →
     w_repeat st' =
       if decide (pollret (poll_answer h (w_fi st)) = 0)
       then int_sub (w_repeat st) 1 else w_repeat st).
Proof.
  intros Hwf. split.
  - intros Hret Herr. split.
    + by rewrite wait_pass_interrupted.
    + by rewrite wait_loop_unfold, wait_pass_interrupted.
  - intros st' evs Hrun.
    pose proof (wait_pass_step ep st h Hwf) as Hstep.
    rewrite Hrun in Hstep. cbn [fst snd] in Hstep.
    assert (∀ s : wait_state, wait_out s = inl st' → st' = s) as Hout.
    { intros s. unfold wait_out. case_decide; [|done]. by intros [= ->]. }
    remember (Returned (inl st')) as o eqn:Ho.
    destruct Hstep as
      [ Hneg _ | Hneg _ | Hz _ _ | Hz _ | Hpos _
      | i e fi' Hpos _ _ _ _ _
      | i e fi' r rsp Hpos _ _ _ _ _ _ _
      | i e fi' rsp Hpos _ _ _ _ _ _ ].
    + injection Ho as <-. by rewrite decide_False by lia.
    + discriminate.
    + injection Ho as <-. by rewrite decide_True by done.
    + discriminate.
    + rewrite decide_False by lia. injection Ho as Ho. by rewrite (Hout _ Ho).
    + rewrite decide_False by lia. injection Ho as Ho. by rewrite (Hout _ Ho).
    + rewrite decide_False by lia. injection Ho as Ho. by rewrite (Hout _ Ho).
    + rewrite decide_False by lia. injection Ho as Ho. by rewrite (Hout _ Ho).
Qed.

(** C7. When [poll] times out, the waiter asks the retry oracle.  If the
    oracle approves and the budget is not used up, it polls again with the
    budget decremented, touching no connection.  Otherwise it evicts every
    pending connection, gives none back, and returns a network error. *)
Theorem wait_timeout_policy fuel ep st h :
  fi_wf (w_fi st) →
  pollret (poll_answer h (w_fi st)) = 0 →
  0 ≤ w_repeat st ≤ INT_MAX →
  let ev := poll_event h (w_fi st) in
  let retry := ext_sheep_need_retry (h ++ [ev]) ep in
  run (wait_loop (S fuel) ep st) h =
    if retry && bool_decide (0 < w_repeat st)
    then emit_before [ev; EvSheepNeedRetry ep retry]
           (run (wait_loop fuel ep (with_repeat st (w_repeat st - 1)))
                (h ++ [ev; EvSheepNeedRetry ep retry]))
    else (Returned (SD_RES_NETWORK_ERROR, w_rp st),
          [ev; EvSheepNeedRetry ep retry] ++ (evict <$> pending (w_fi st))).
Proof.
  intros Hwf Hret Hrep ev retry. rewrite wait_loop_unfold.
  destruct retry eqn:Hretry; subst retry.
  - destruct (decide (0 < w_repeat st)) as [Hpos|Hzero].
    + rewrite bool_decide_true by done. simpl.
      rewrite wait_pass_timeout_retry by (done || lia).
      rewrite int_sub_small by (unfold INT_MIN, INT_MAX in *; lia). done.
    + rewrite bool_decide_false by done. simpl.
      rewrite wait_pass_timeout_give_up by (done || right; lia).
      fold ev. by rewrite Hretry.
  - simpl. rewrite wait_pass_timeout_give_up by (done || by left).
    fold ev. by rewrite Hretry.
Qed.

(** C4, as amended.  When the first readable entry has no error flag and
    its response header is read cleanly, its connection is given back to
    the pool, not evicted, and the entry leaves the session.  The result
    code is the header's [result] as the [int] the waiter stores it in.  A
    non-success result code replaces whatever error the session had recorded (so the
    latest one is kept, not the first); a success code leaves the record as
    it is.  If that was the last entry, the record is what the waiter
    returns. *)
Theorem clean_read_records_result fuel ep (i : nat) e st h rsp :
  fi_wf (w_fi st) →
  0 < pollret (poll_answer h (w_fi st)) →
  first_pollin (poll_answer h (w_fi st)) (Z.to_nat (nr_sent (w_fi st))) i →
  pending (w_fi st) !! i = Some e →
  error_flags (revents_at (poll_answer h (w_fi st)) i) = 0 →
  ext_do_read (h ++ [poll_event h (w_fi st)]) (pfd_fd (pfd e)) ep
    MAX_RETRY_COUNT = (0, rsp) →
  ∃ fi',
    pending fi' = delete i (pending (w_fi st)) ∧
    let evs := [poll_event h (w_fi st); EvDoRead (pfd_fd (pfd e)) 0 rsp;
                release e] in
    let st' := {| w_fi := fi';
                  w_err_ret := if decide (int_wrap (result rsp) ≠ SD_RES_SUCCESS)
                               then int_wrap (result rsp) else w_err_ret st;
                  w_repeat := w_repeat st; w_rp := rsp |} in
    run (wait_loop (S fuel) ep st) h =
      if decide (0 < nr_sent fi')
      then emit_before evs (run (wait_loop fuel ep st') (h ++ evs))
      else (Returned (w_err_ret st', rsp), evs).
Proof.
  intros Hwf Hret Hfirst He Hflags Hread.
  destruct (wait_pass_read_ok ep i e st h rsp Hwf Hret Hfirst He Hflags Hread)
    as (fi' & _ & Hwf' & Hp & Hrun).
  exists fi'. split; [done|]. intros evs st'.
  rewrite wait_loop_unfold, Hrun. unfold wait_out. cbn [w_fi].
  by destruct (decide (0 < nr_sent fi')).
Qed.

(** X24. The waiter returns the error recorded last.  Over the whole run the
    record follows the trace: every eviction sets it to a network error,
    every cleanly read non-success result sets it to that result, and
    nothing resets it to success.  Every pending connection has been given
    back or evicted when the waiter returns. *)
Theorem wait_forward_request_summary fuel fi req h r req' evs :
  fi_wf fi → 0 < nr_sent fi →
  run (wait_forward_request fuel fi req) h = (Returned (r, req'), evs) →
  r = session_error SD_RES_SUCCESS evs ∧
  released evs ≡ₚ conn <$> pending fi.
Proof.
  intros Hwf Hn. rewrite wait_forward_request_run.
  destruct (run (wait_loop fuel (epoch (rq req)) (wait_start fi req)) h)
    as [[[ret rsp]| | |] evs_w] eqn:Hloop; try done.
  intros [= -> _ ->].
  destruct (wait_loop_summary _ _ _ _ _ _ _ (live_wait_start fi req Hwf Hn) Hloop).
  done.
Qed.

(** X25. If [poll] keeps timing out
    while the oracle keeps approving, the waiter polls once plus
    [MAX_RETRY_COUNT] times, asking the oracle after every poll and calling
    nothing else, then evicts every pending connection and returns a
    network error. *)
Theorem wait_gives_up_after_budget fi req h :
  fi_wf fi → 0 ≤ MAX_RETRY_COUNT ≤ INT_MAX →
  (∀ h', pollret (poll_answer h' fi) = 0) →
  (∀ h', ext_sheep_need_retry h' (epoch (rq req)) = true) →
  ∃ evs,
    run (wait_forward_request (S (Z.to_nat MAX_RETRY_COUNT)) fi req) h
      = (Returned (SD_RES_NETWORK_ERROR, req),
         evs ++ (evict <$> pending fi)) ∧
    length evs = (2 * S (Z.to_nat MAX_RETRY_COUNT))%nat ∧
    released evs = [] ∧
    length (filter poll_call evs) = S (Z.to_nat MAX_RETRY_COUNT) ∧
    length (filter retry_call evs) = S (Z.to_nat MAX_RETRY_COUNT).
Proof.
  intros Hwf Hbudget Hpoll Hretry. rewrite wait_forward_request_run.
  unfold wait_start.
  assert (∀ (n : nat) h, Z.of_nat n ≤ INT_MAX →
    ∃ evs,
      run (wait_loop (S n) (epoch (rq req))
             {| w_fi := fi; w_err_ret := SD_RES_SUCCESS;
                w_repeat := Z.of_nat n; w_rp := rp req |}) h
        = (Returned (SD_RES_NETWORK_ERROR, rp req), evs ++ (evict <$> pending fi)) ∧
      length evs = (2 * S n)%nat ∧ released evs = [] ∧
      length (filter poll_call evs) = S n ∧
      length (filter retry_call evs) = S n) as Hloop.
  2:{ destruct (Hloop (Z.to_nat MAX_RETRY_COUNT) h)
        as (evs & Hrun & Hlen & Hrel & Hpolls & Hasks); [lia|].
      rewrite Z2Nat.id in Hrun by lia. rewrite Hrun.
      exists evs. by destruct req. }
  clear h. intros n. induction n as [|n IH]; intros h Hn.
  - rewrite wait_loop_unfold.
    rewrite wait_pass_timeout_give_up by (done || by right).
    cbn [w_fi w_rp]. eexists [_; _]. done.
  - rewrite wait_loop_unfold.
    rewrite wait_pass_timeout_retry by (done || cbn [w_repeat]; lia).
    cbn [w_fi w_repeat with_repeat w_err_ret w_rp].
    rewrite int_sub_small by (unfold INT_MIN, INT_MAX in *; lia).
    replace (Z.of_nat (S n) - 1) with (Z.of_nat n) by lia.
    unfold with_repeat. cbn [w_fi w_err_ret w_rp].
    destruct (IH (h ++ [poll_event h fi; EvSheepNeedRetry (epoch (rq req)) true]))
      as (evs & -> & Hlen & Hrel & Hpolls & Hasks); [lia|].
    exists (poll_event h fi :: EvSheepNeedRetry (epoch (rq req)) true :: evs).
    split_and!; [done | simpl; lia | done | |].
    + rewrite filter_cons_True by done.
      rewrite filter_cons_False by (by intros ?).
      simpl. by rewrite Hpolls.
    + rewrite filter_cons_False by (by intros ?).
      rewrite filter_cons_True by done.
      simpl. by rewrite Hasks.
Qed.

End WaiterClaims.

(** ** The request router and the fan-out *)

Section RouterClaims.
Context {E : Externals}.

(** C9. The forwarded header has the peer opcode of the request's opcode
    and the protocol version of the daemon; every other field holds what
    the request's header holds. *)
Theorem gateway_init_fwd_hdr_frame (hdr : sd_req) (f : sd_req_field) :
  field_of f (gateway_init_fwd_hdr hdr) =
    match f with
    | F_opcode => [gateway_to_peer_opcode (opcode hdr)]
    | F_proto_ver => [SD_SHEEP_PROTO_VER]
    | _ => field_of f hdr
    end.
Proof. by destruct f. Qed.

(** C3. A write or a create-and-write to an object of the read-only range
    returns the read-only error at once: the trace of the call is empty,
    so neither the cache layer (not even its bypass check), nor the
    resolver, nor the pool, nor the transport has been called.  This holds
    for every behaviour of the collaborators. *)
Theorem write_readonly_rejected fuel req h :
  oid_is_readonly (obj_oid (rq req)) = true →
  run (gateway_write_obj fuel req) h = (Returned (SD_RES_READONLY, req), []) ∧
  run (gateway_create_and_write_obj fuel req) h
    = (Returned (SD_RES_READONLY, req), []).
Proof.
  intros Hro. unfold gateway_write_obj, gateway_create_and_write_obj.
  by rewrite Hro.
Qed.

(** C10. [gateway_remove_obj] is the fan-out, whatever the object id: its
    trace starts with the resolution of the replica nodes, it asks the pool
    for all N of them unless the send phase fails, and a result it returns
    is success, a network error, or a result code that a replica delivered;
    it has no read-only check of its own. *)
Theorem remove_skips_readonly_check fuel req h :
  fan_out_ready req →
  let res := run (gateway_remove_obj fuel req) h in
  res = run (gateway_forward_request fuel req) h ∧
  (∃ evs, res.2 = EvOidToNodes (obj_oid (rq req)) (get_req_copy_number req)
                  :: evs) ∧
  length (attempted res.2) =
    (if send_failed res.2 then S (length (sent res.2))
     else Z.to_nat (get_req_copy_number req)) ∧
  match res.1 with
  | Returned (r, _) =>
      r ∈ SD_RES_SUCCESS :: SD_RES_NETWORK_ERROR :: replied res.2
  | _ => True
  end.
Proof.
  intros Hready res. subst res. unfold gateway_remove_obj.
  split; [done|].
  pose proof (gateway_forward_request_attempts fuel req h Hready)
    as (_ & Hattempts & _).
  destruct (gateway_forward_request_shape fuel req h Hready)
    as (err & fi & evs_s & o & evs_w & Hrun & _).
  rewrite Hrun in Hattempts |- *. cbn [fst snd] in Hattempts |- *.
  split; [by eexists|]. split; [exact Hattempts|].
  destruct o as [[r req']| | |]; try done.
  destruct (gateway_forward_request_result fuel req h r req' _ Hready Hrun)
    as [_ ->].
  pose proof (session_error_provenance SD_RES_SUCCESS
                (EvOidToNodes (obj_oid (rq req)) (get_req_copy_number req)
                 :: evs_s ++ evs_w)) as Hprov.
  destruct (decide _); [done|].
  destruct (send_failed _).
  - apply list_elem_of_further, list_elem_of_here.
  - apply list_elem_of_here.
Qed.

(** C2, as amended.  [remove] asks the pool for the resolver's nodes in the
    resolver's order, one after the other, and stops at the first node for
    which the pool has no connection or the send fails.  It attempts all N
    nodes when no such failure occurs, and otherwise one node more than it
    has successfully sent to; never more than N. *)
Theorem remove_attempts_until_failure fuel req h :
  fan_out_ready req →
  let nr_copies := get_req_copy_number req in
  let targets :=
    ext_oid_to_nodes (obj_oid (rq req)) (vroot (vinfo req)) nr_copies in
  let evs := (run (gateway_remove_obj fuel req) h).2 in
  attempted evs = nid <$> take (length (attempted evs)) targets ∧
  length (attempted evs) =
    (if send_failed evs then S (length (sent evs)) else Z.to_nat nr_copies) ∧
  (length (attempted evs) ≤ Z.to_nat nr_copies)%nat.
Proof.
  intros Hready. unfold gateway_remove_obj.
  by apply gateway_forward_request_attempts.
Qed.

(** C1, as amended.  A fan-out returns (given a responsive [poll] and fuel
    for the retry budget and the copies), and when it does, every connection
    the request was sent on has been handled by the waiter: it has been
    given back to the pool or evicted from it, also when the send phase
    failed for a later node.  The result is the error the waiter recorded,
    if it recorded one; otherwise it is a network error when the send phase
    failed, in particular when every awaited entry completed successfully,
    and success when it did not fail. *)
Theorem forward_request_drains_and_reports fuel req h :
  fan_out_ready req → responsive_poll → 0 ≤ MAX_RETRY_COUNT ≤ INT_MAX →
  (Z.to_nat MAX_RETRY_COUNT + Z.to_nat (get_req_copy_number req) < fuel)%nat →
  ∃ r req' evs,
    run (gateway_forward_request fuel req) h = (Returned (r, req'), evs) ∧
    released evs ≡ₚ sent evs ∧
    r = (if decide (session_error SD_RES_SUCCESS evs ≠ SD_RES_SUCCESS)
         then session_error SD_RES_SUCCESS evs
         else if send_failed evs then SD_RES_NETWORK_ERROR
         else SD_RES_SUCCESS).
Proof.
  intros Hready Hpoll Hbudget Hfuel.
  destruct (gateway_forward_request_returns fuel req h Hready Hpoll Hbudget Hfuel)
    as (r & req' & evs & Hrun).
  exists r, req', evs. split; [done|].
  by apply (gateway_forward_request_result fuel req h r req' evs).
Qed.

(** C5.  When the read goes to the replicas and the [k]-th resolved replica
    is the first local one, [gateway_read_obj] reads it locally, once.  If
    that read succeeds, the call returns its result and the trace ends
    there: no remote read.  If it fails, what follows is [random()] and the
    second loop, whose events are remote reads only: no other local copy
    is tried. *)
Theorem read_local_first req h (k : nat) v :
  let oid := obj_oid (rq req) in
  let nr_copies := get_req_copy_number req in
  let vs := ext_oid_to_vnodes oid (vroot (vinfo req)) nr_copies in
  read_skips_cache h req →
  (k < Z.to_nat nr_copies)%nat → vs !! k = Some v → vnode_is_local v = true →
  (∀ j u, (j < k)%nat → vs !! j = Some u → vnode_is_local u = false) →
  let pre := cache_check_events h req ++ [EvOidToVnodes oid nr_copies] in
  let local_read := ext_peer_read_obj (h ++ pre) req in
  let ev := EvPeerReadObj oid local_read.1 in
  let r := ext_random (h ++ pre ++ [ev]) in
  ∃ o evs,
    run (gateway_read_obj req) h = (o, pre ++ ev :: evs) ∧
    if decide (local_read.1 = SD_RES_SUCCESS)
    then o = Returned local_read ∧ evs = []
    else ∃ evs',
      evs = EvRandom r :: evs' ∧ Forall remote_read_event evs' ∧
      (o, evs') =
        run (read_remote_loop (Z.to_nat nr_copies) 0 (int_wrap r) nr_copies
               vs local_read.2 local_read.1)
            (h ++ pre ++ [ev; EvRandom r]).
Proof.
  intros oid nr_copies vs Hskip Hk Hv Hlocal Hremote pre local_read ev r.
  rewrite (gateway_read_obj_local req h k v Hskip Hk Hv Hlocal Hremote).
  fold oid nr_copies vs pre local_read ev r.
  destruct (decide (local_read.1 = SD_RES_SUCCESS)) as [Hok|Hfail].
  - by exists (Returned local_read), [].
  - pose proof (read_remote_loop_events (Z.to_nat nr_copies) 0 (int_wrap r)
                  nr_copies vs local_read.2 local_read.1
                  (h ++ pre ++ [ev; EvRandom r])) as Hevs.
    destruct (run _ _) as [o evs'] eqn:Hloop. cbn [snd] in Hevs.
    exists o, (EvRandom r :: evs'). split.
    + unfold emit_before. cbn [fst snd]. by rewrite <- app_assoc.
    + by exists evs'.
Qed.

End RouterClaims.

(** ** The claims on the small cluster *)

Section OnTheCluster.
Import Scenario.

(** C1, the sentence of the specification refuted: the pool has no
    connection for the third of three nodes, the first node answers with the
    result code 5, and the call returns 5, not the network error. *)
Lemma send_failure_not_always_network_error :
  ¬ send_failure_yields_network_error (E := scripted third_unreachable)
      5 (request_for 42 [1; 2; 3]) [].
Proof.
  intros Hclaim.
  assert (5 = 134) as Habsurd; [|discriminate Habsurd].
  eapply Hclaim; vm_compute; reflexivity.
Qed.

(** The scripted [poll] of that scenario is responsive. *)
Lemma third_unreachable_responsive :
  responsive_poll (E := scripted third_unreachable).
Proof.
  intros h fi Hwf Hn. right.
  unfold poll_answer. cbn [ext_poll scripted sc_polls third_unreachable].
  destruct (count is_poll h) as [|[|n]]; simpl;
    (split; [lia|]); exists 0%nat; (split_and!; [lia | done | intros j Hj; lia]).
Defined.

Lemma forward_request_drains_and_reports_witness :
  ∃ r req' evs,
    run (gateway_forward_request (E := scripted third_unreachable)
           6 (request_for 42 [1; 2; 3])) [] = (Returned (r, req'), evs) ∧
    released evs ≡ₚ sent evs ∧
    r = (if decide (session_error (E := scripted third_unreachable) 0 evs ≠ 0)
         then session_error (E := scripted third_unreachable) 0 evs
         else if send_failed evs then 134 else 0).
Proof.
  apply (forward_request_drains_and_reports (E := scripted third_unreachable)
           6 (request_for 42 [1; 2; 3]) []).
  - unfold fan_out_ready, INT_MAX. simpl. lia.
  - exact third_unreachable_responsive.
  - unfold INT_MAX. simpl. lia.
  - simpl. lia.
Defined.

(** C2, the sentence of the specification refuted: the object is outside
    the read-only range, the pool has no connection for the first of three
    nodes, and [remove] attempts that one node only. *)
Lemma remove_stops_at_first_failure :
  oid_is_readonly (Externals := scripted first_unreachable) 42 = false ∧
  ¬ remove_attempts_all_copies (E := scripted first_unreachable)
      5 (request_for 42 [1; 2; 3]) [].
Proof. split; [reflexivity|]. vm_compute. discriminate. Qed.

Lemma remove_attempts_until_failure_witness :
  let E := scripted first_unreachable in
  let req := request_for 42 [1; 2; 3] in
  let evs := (run (gateway_remove_obj (E := E) 5 req) []).2 in
  fan_out_ready (E := E) req ∧
  attempted evs = nid <$> take (length (attempted evs))
                            (ext_oid_to_nodes (Externals := E) 42
                               (vroot (vinfo req)) 3) ∧
  length (attempted evs) =
    (if send_failed evs then S (length (sent evs)) else Z.to_nat 3) ∧
  (length (attempted evs) ≤ Z.to_nat 3)%nat.
Proof.
  intros E req evs.
  assert (Hready : fan_out_ready (E := E) req).
  { unfold fan_out_ready, INT_MAX. simpl. lia. }
  split; [exact Hready|].
  exact (remove_attempts_until_failure (E := E) 5 req [] Hready).
Defined.

(** Object ids with bit 63 set are the read-only ones of the scenario. *)
Lemma write_readonly_rejected_witness :
  let E := scripted healthy in
  let req := request_for (2 ^ 63 + 42) [1; 2; 3] in
  oid_is_readonly (Externals := E) (obj_oid (rq req)) = true ∧
  run (gateway_write_obj (E := E) 5 req) [] = (Returned (26, req), []) ∧
  run (gateway_create_and_write_obj (E := E) 5 req) [] = (Returned (26, req), []).
Proof.
  intros E req. split; [reflexivity|].
  apply (write_readonly_rejected (E := E) 5 req []). reflexivity.
Defined.

Lemma remove_skips_readonly_check_witness :
  let E := scripted healthy in
  let req := request_for (2 ^ 63 + 42) [1; 2; 3] in
  let res := run (gateway_remove_obj (E := E) 5 req) [] in
  oid_is_readonly (Externals := E) (obj_oid (rq req)) = true ∧
  res = run (gateway_forward_request (E := E) 5 req) [] ∧
  (∃ evs, res.2 = EvOidToNodes (obj_oid (rq req)) 3 :: evs) ∧
  length (attempted res.2) =
    (if send_failed res.2 then S (length (sent res.2)) else Z.to_nat 3) ∧
  match res.1 with
  | Returned (r, _) => r ∈ 0 :: 134 :: replied res.2
  | _ => True
  end.
Proof.
  intros E req res. split; [reflexivity|].
  apply (remove_skips_readonly_check (E := E) 5 req []).
  unfold fan_out_ready, INT_MAX. simpl. lia.
Defined.

(** C4, the sentence of the specification refuted: two replicas answer, the
    first with the result code 5, the second with 7; the waiter returns 7,
    the latest, not 5, the first. *)
Lemma latest_non_success_wins :
  ¬ first_non_success_wins (E := scripted two_errors)
      5 two_pending (request_for 42 [1; 2]) [].
Proof.
  intros Hclaim.
  assert (7 = 5) as Habsurd; [|discriminate Habsurd].
  eapply Hclaim.
  - vm_compute. reflexivity.
  - vm_compute. reflexivity.
Qed.

(** The session has recorded the error 9; the first entry answers 5. *)
Lemma clean_read_records_result_witness :
  let E := scripted two_errors in
  let st := waiting 9 2 in
  ∃ fi',
    pending fi' = [session_entry 2] ∧
    ∃ evs,
      run (wait_loop (E := E) 3 3 st) [] =
        emit_before evs
          (run (wait_loop (E := E) 2 3
                  {| w_fi := fi'; w_err_ret := 5; w_repeat := 2;
                     w_rp := reply 5 |}) evs).
Proof.
  intros E st.
  destruct (clean_read_records_result (E := E) 2 3 0 (session_entry 1) st []
              (reply 5)) as (fi' & Hp & Hrun).
  - unfold fi_wf, INT_MAX. simpl. lia.
  - simpl. lia.
  - split_and!; [simpl; lia | done | intros j Hj; lia].
  - reflexivity.
  - reflexivity.
  - reflexivity.
  - exists fi'. split; [exact Hp|].
    assert (0 < nr_sent fi') as Hn.
    { apply (f_equal length) in Hp. unfold pending in Hp.
      rewrite length_take in Hp. simpl in Hp. lia. }
    simpl in Hrun. rewrite decide_True in Hrun by exact Hn.
    eexists. exact Hrun.
Defined.

Lemma wait_timeout_policy_witness :
  let E := scripted timing_out in
  let st := waiting 0 2 in
  let ev := poll_event (E := E) [] two_pending in
  run (wait_loop (E := E) 3 3 st) [] =
    emit_before [ev; EvSheepNeedRetry 3 true]
      (run (wait_loop (E := E) 2 3 (waiting 0 1)) [ev; EvSheepNeedRetry 3 true]).
Proof.
  intros E st ev.
  apply (wait_timeout_policy (E := E) 2 3 st []).
  - unfold fi_wf, INT_MAX. simpl. lia.
  - reflexivity.
  - unfold INT_MAX. simpl. lia.
Defined.

Lemma wait_interrupted_repeats_witness :
  let E := scripted stalled in
  let st := waiting 0 2 in
  let ev := poll_event (E := E) [] two_pending in
  run (wait_pass (E := E) 3 st) [] = (Returned (inl st), [ev]) ∧
  run (wait_loop (E := E) 3 3 st) [] =
    emit_before [ev] (run (wait_loop (E := E) 2 3 st) [ev]).
Proof.
  intros E st ev.
  destruct (wait_interrupted_repeats (E := E) 2 3 st []) as [Hinterrupt _].
  - unfold fi_wf, INT_MAX. simpl. lia.
  - apply Hinterrupt.
    + simpl. lia.
    + reflexivity.
Defined.

(** The second of three replicas is the local one, and its read succeeds. *)
Lemma read_local_first_witness :
  let E := scripted healthy in
  let req := request_for 42 [1; 0; 2] in
  ∃ o evs,
    run (gateway_read_obj (E := E) req) []
      = (o, [EvOidToVnodes 42 3; EvPeerReadObj 42 0] ++ evs) ∧
    o = Returned (0, req) ∧ evs = [].
Proof.
  intros E req.
  destruct (read_local_first (E := E) req [] 1 (mk_vnode 0))
    as (o & evs & Hrun & Hcase).
  - reflexivity.
  - simpl. lia.
  - reflexivity.
  - reflexivity.
  - intros j u Hj Hu. destruct j as [|j]; [|lia].
    injection Hu as <-. reflexivity.
  - exists o, evs. split; [exact Hrun|]. exact Hcase.
Defined.

(** Two scenarios of the specification.  A write to three replicas: the
    sends to the first two succeed, the pool has no connection for the
    third; the call waits for the two answers, both of them success, gives
    both connections back, and returns the network error. *)
Example write_with_third_unreachable :
  let E := scripted third_unreachable_clean in
  let req := request_for 42 [1; 2; 3] in
  let res := run (gateway_write_obj (E := E) 6 req) [] in
  res.1 = Returned (134, req) ∧
  replied res.2 = [0; 0] ∧
  released res.2 = [(nid (mk_node 1), mk_sockfd 1); (nid (mk_node 2), mk_sockfd 2)] ∧
  attempted res.2 = [nid (mk_node 1); nid (mk_node 2); nid (mk_node 3)].
Proof. vm_compute. by repeat split. Qed.

(** A read of an object on the replicas A (local), B and C: the local read
    fails, the offset 4 lands on B (4 mod 3 = 1), B answers with success;
    the call returns B's response, and C is never contacted. *)
Example read_falls_back_to_one_remote :
  let E := scripted local_store_broken in
  let req := request_for 42 [0; 1; 2] in
  let res := run (gateway_read_obj (E := E) req) [] in
  res.1 = Returned (0, set_rp req (reply 0)) ∧
  res.2 = [EvOidToVnodes 42 3; EvPeerReadObj 42 3; EvRandom 4;
           EvSheepExecReq (nid (mk_node 1))
             (gateway_init_fwd_hdr (E := E) (rq req)) 0].
Proof. vm_compute. by repeat split. Qed.

(** [poll] is interrupted once and then keeps timing out: the waiter polls
    once for the interrupt and then 1 + [MAX_RETRY_COUNT] = 3 times, so the
    interrupt has cost nothing of the budget; then it evicts both pending
    connections and the call returns the network error. *)
Example interrupt_costs_no_budget :
  let E := scripted stalled in
  let res := run (gateway_remove_obj (E := E) 6 (request_for 42 [1; 2])) [] in
  res.1 = Returned (134, request_for 42 [1; 2]) ∧
  count is_poll res.2 = 4%nat ∧
  count is_need_retry res.2 = 3%nat ∧
  released res.2 = [(nid (mk_node 1), mk_sockfd 1); (nid (mk_node 2), mk_sockfd 2)].
Proof. vm_compute. by repeat split. Qed.

(** C6: the code at the input that breaks the claim.  [random()] returns
    [RAND_MAX]; for [i = 1] the sum [i + j] wraps around to [INT_MIN], the
    index [(i + j) % nr_copies] is [-2], and the read of [obj_vnodes[-2]]
    is outside the array.  The claim has index [(1 + j) mod 3 = 2] there. *)
Theorem read_fallback_offset_overflows :
  let E := scripted largest_offset in
  let req := request_for 42 [0; 1; 2] in
  let res := run (gateway_read_obj (E := E) req) [] in
  int_wrap (ext_random (Externals := E) []) = INT_MAX ∧
  int_rem (int_add 1 INT_MAX) 3 = -2 ∧
  (1 + INT_MAX) mod 3 = 2 ∧
  res.1 = Faulted ∧
  length (filter remote_read_event res.2) = 1%nat.
Proof. vm_compute. by repeat split. Qed.

End OnTheCluster.

(** * Further properties of the gateway

    What the code shows beyond the sentences of the specification. *)

(** ** The bookkeeping of a forward session *)

Section SessionBookkeeping.
Implicit Types (fi : forward_info) (e : forward_info_entry).

(** X1. [forward_info_update] takes the entry at [pos] out of a well-formed
    session: the pending entries are the former ones without the [pos]-th,
    in their order, there is one pending entry less, and the array keeps
    its size. *)
Theorem forward_info_update_removes_entry fi (pos : nat) :
  fi_wf fi → (pos < Z.to_nat (nr_sent fi))%nat →
  ∃ fi', forward_info_update fi (Z.of_nat pos) = Some fi' ∧
         pending fi' = delete pos (pending fi) ∧
         nr_sent fi' = nr_sent fi - 1 ∧
         length (ent fi') = length (ent fi) ∧
         fi_wf fi'.
Proof.
  intros Hwf Hpos.
  destruct (forward_info_update_wf fi pos Hwf Hpos)
    as (fi' & Hup & Hwf' & Hp & Hn & Hlen).
  by exists fi'.
Qed.

(** X2. [forward_info_update] at a position that is not pending is a
    fault: the entry count handed to [memmove] is negative, or the
    destination lies before the array. *)
Theorem forward_info_update_not_pending fi (pos : Z) :
  fi_wf fi → INT_MIN ≤ pos ≤ INT_MAX →
  ¬ (0 ≤ pos < nr_sent fi) →
  forward_info_update fi pos = None.
Proof.
  intros [Hn Hmax] Hpos Hout. unfold forward_info_update.
  unfold INT_MIN, INT_MAX in *.
  rewrite (int_sub_small (nr_sent fi)) by (unfold INT_MIN, INT_MAX; lia).
  destruct (decide (pos < 0)) as [Hneg|Hnonneg].
  - unfold array_memmove. by rewrite decide_False by lia.
  - rewrite int_sub_small by (unfold INT_MIN, INT_MAX; lia).
    unfold array_memmove. by rewrite decide_False by lia.
Qed.

(** X3. [forward_info_advance] registers a connection at the end of the
    pending entries: the new entry carries the node and the connection, and
    polls the connection's descriptor for [POLLIN]; the entries before it
    are untouched.  When the array is full, it is a fault. *)
Theorem forward_info_advance_appends fi (n : node_id) (sfd : sockfd) :
  fi_wf fi →
  if decide (nr_sent fi < Z.of_nat (length (ent fi))) then
    ∃ fi' e, forward_info_advance fi n sfd = Some fi' ∧
             pending fi' = pending fi ++ [e] ∧
             ent_nid e = n ∧ ent_sfd e = sfd ∧
             pfd_fd (pfd e) = fd sfd ∧ events (pfd e) = POLLIN ∧
             nr_sent fi' = nr_sent fi + 1 ∧ fi_wf fi'
  else forward_info_advance fi n sfd = None.
Proof.
  intros [Hn Hmax]. case_decide as Hroom.
  - unfold forward_info_advance, array_get. rewrite decide_True by lia.
    destruct (ent fi !! Z.to_nat (nr_sent fi)) as [e0|] eqn:He0; simpl.
    2:{ apply lookup_ge_None in He0. lia. }
    unfold array_set. rewrite decide_True by lia. simpl.
    rewrite int_add_small by (unfold INT_MIN, INT_MAX in *; lia).
    eexists _, {| pfd := {| pfd_fd := fd sfd; events := POLLIN;
                           revents := revents (pfd e0) |};
                 ent_nid := n; ent_sfd := sfd |}.
    split; [reflexivity|].
    split_and!; simpl; [|reflexivity..|].
    + unfold pending; simpl.
      replace (Z.to_nat (nr_sent fi + 1)) with (S (Z.to_nat (nr_sent fi))) by lia.
      erewrite take_S_r.
      2:{ apply list_lookup_insert_eq. lia. }
      by rewrite take_insert_ge by lia.
    + split; simpl; rewrite length_insert; lia.
  - unfold forward_info_advance, array_get. rewrite decide_True by lia.
    rewrite (lookup_ge_None_2 (ent fi)) by lia. done.
Qed.

Lemma forward_info_init_loop_spec (n i : nat) (slots : list forward_info_entry) :
  (i + n ≤ length slots)%nat →
  forward_info_init_loop n (Z.of_nat i) slots =
    Some (take i slots
          ++ ((λ e, set_pfd_fd e (-1)) <$> take n (drop i slots))
          ++ drop (i + n) slots).
Proof.
  revert i slots. induction n as [|n IH]; intros i slots Hlen; simpl.
  - rewrite Nat.add_0_r, take_drop. done.
  - rewrite array_get_nat.
    destruct (slots !! i) as [e|] eqn:He; simpl.
    2:{ apply lookup_ge_None in He. lia. }
    unfold array_set. rewrite decide_True by lia. simpl.
    replace (Z.of_nat i + 1) with (Z.of_nat (S i)) by lia.
    rewrite Nat2Z.id, IH by (rewrite length_insert; lia).
    f_equal.
    rewrite (take_S_r _ _ (set_pfd_fd e (-1)))
      by (apply list_lookup_insert_eq; lia).
    rewrite take_insert_ge by lia.
    rewrite !drop_insert_lt by lia.
    rewrite (drop_S slots e i He).
    rewrite <- app_assoc. simpl.
    by replace (S (i + n)) with (i + S n)%nat by lia.
Qed.

Lemma forward_info_init_loop_overrun (n i : nat) (slots : list forward_info_entry) :
  (i ≤ length slots < i + n)%nat →
  forward_info_init_loop n (Z.of_nat i) slots = None.
Proof.
  revert i slots. induction n as [|n IH]; intros i slots Hlen; [lia|].
  simpl. rewrite array_get_nat.
  destruct (slots !! i) as [e|] eqn:He; simpl; [|done].
  apply lookup_lt_Some in He.
  unfold array_set. rewrite decide_True by lia. simpl.
  replace (Z.of_nat i + 1) with (Z.of_nat (S i)) by lia.
  apply IH. rewrite length_insert. lia.
Qed.

(** X4. [forward_info_init] empties a session: no entry is pending
    afterwards, the first [nr_to_send] slots have the descriptor -1 and are
    otherwise what they were, the other slots are untouched.  A count
    larger than the array is a fault. *)
Theorem forward_info_init_empties fi (nr_to_send : Z) :
  0 ≤ nr_to_send →
  if decide (nr_to_send ≤ Z.of_nat (length (ent fi))) then
    ∃ fi', forward_info_init fi nr_to_send = Some fi' ∧
           nr_sent fi' = 0 ∧ pending fi' = [] ∧
           ent fi' =
             ((λ e, set_pfd_fd e (-1)) <$> take (Z.to_nat nr_to_send) (ent fi))
             ++ drop (Z.to_nat nr_to_send) (ent fi)
  else forward_info_init fi nr_to_send = None.
Proof.
  intros Hn. unfold forward_info_init. case_decide as Hroom.
  - rewrite (forward_info_init_loop_spec _ 0) by (simpl; lia). simpl.
    eexists. split; [reflexivity|]. split_and!; done.
  - rewrite (forward_info_init_loop_overrun _ 0) by (simpl; lia). done.
Qed.

(** X5. Registering a connection and then taking that entry out again
    leaves the pending entries as they were. *)
Theorem forward_info_advance_update fi (n : node_id) (sfd : sockfd) :
  fi_wf fi → nr_sent fi < Z.of_nat (length (ent fi)) →
  ∃ fi1 fi2,
    forward_info_advance fi n sfd = Some fi1 ∧
    forward_info_update fi1 (nr_sent fi) = Some fi2 ∧
    pending fi2 = pending fi ∧ nr_sent fi2 = nr_sent fi.
Proof.
  intros Hwf Hroom.
  destruct (forward_info_advance_wf fi n sfd Hwf Hroom)
    as (fi1 & e & Hadv & Hwf1 & Hp1 & _ & _ & Hn1 & _).
  destruct (forward_info_update_wf fi1 (Z.to_nat (nr_sent fi)) Hwf1)
    as (fi2 & Hup & _ & Hp2 & Hn2 & _).
  { destruct Hwf as [? _]. lia. }
  exists fi1, fi2. destruct Hwf as [[? ?] ?].
  rewrite Z2Nat.id in Hup by lia.
  split_and!; [done..| |lia].
  rewrite Hp2, Hp1.
  assert (length (pending fi) = Z.to_nat (nr_sent fi)) as <-.
  { unfold pending. rewrite length_take. lia. }
  rewrite delete_take_drop, take_app_length.
  rewrite drop_ge by (rewrite length_app; simpl; lia).
  by rewrite app_nil_r.
Qed.

End SessionBookkeeping.

(** ** The waiter at its edges *)

Section WaiterEdges.
Context {E : Externals}.
Implicit Types (fi : forward_info) (e : forward_info_entry) (st : wait_state).

(** X6. A failure of [poll] other than [EINTR] makes the waiter panic: it
    returns no result code, and the pending connections are neither given
    back nor evicted. *)
Theorem wait_panics_when_poll_fails fuel fi req h :
  fi_wf fi →
  pollret (poll_answer h fi) < 0 →
  poll_errno (poll_answer h fi) ≠ EINTR →
  run (wait_forward_request (S fuel) fi req) h
    = (Panicked, [poll_event h fi; EvPanic]).
Proof.
  intros Hwf Hret Herr.
  rewrite wait_forward_request_run, wait_loop_unfold.
  by rewrite wait_pass_poll_failed.
Qed.

(** X7. A readable entry that carries an error flag ([POLLERR], [POLLHUP]
    or [POLLNVAL]) is evicted without being read: the pass calls [poll] and
    [sockfd_cache_del] and nothing else, the session records a network
    error, and the response buffer is left alone. *)
Theorem flagged_entry_is_evicted fuel ep (i : nat) e st h :
  fi_wf (w_fi st) →
  0 < pollret (poll_answer h (w_fi st)) →
  first_pollin (poll_answer h (w_fi st)) (Z.to_nat (nr_sent (w_fi st))) i →
  pending (w_fi st) !! i = Some e →
  error_flags (revents_at (poll_answer h (w_fi st)) i) ≠ 0 →
  ∃ fi',
    pending fi' = delete i (pending (w_fi st)) ∧
    let evs := [poll_event h (w_fi st); evict e] in
    let st' := {| w_fi := fi'; w_err_ret := SD_RES_NETWORK_ERROR;
                  w_repeat := w_repeat st; w_rp := w_rp st |} in
    run (wait_loop (S fuel) ep st) h =
      if decide (0 < nr_sent fi')
      then emit_before evs (run (wait_loop fuel ep st') (h ++ evs))
      else (Returned (SD_RES_NETWORK_ERROR, w_rp st), evs).
Proof.
  intros Hwf Hret Hfirst He Hflags.
  destruct (wait_pass_ready_error ep i e st h Hwf Hret Hfirst He Hflags)
    as (fi' & _ & Hwf' & Hp & Hrun).
  exists fi'. split; [done|]. intros evs st'.
  rewrite wait_loop_unfold, Hrun. unfold wait_out. cbn [w_fi].
  by destruct (decide (0 < nr_sent fi')).
Qed.

(** X8. When [do_read] fails on the readable entry, its connection is
    evicted, not given back, and the session records a network error
    whatever the header buffer holds after the failed read. *)
Theorem unreadable_entry_is_evicted fuel ep (i : nat) e st h r rsp :
  fi_wf (w_fi st) →
  0 < pollret (poll_answer h (w_fi st)) →
  first_pollin (poll_answer h (w_fi st)) (Z.to_nat (nr_sent (w_fi st))) i →
  pending (w_fi st) !! i = Some e →
  error_flags (revents_at (poll_answer h (w_fi st)) i) = 0 →
  ext_do_read (h ++ [poll_event h (w_fi st)]) (pfd_fd (pfd e)) ep
    MAX_RETRY_COUNT = (r, rsp) →
  r ≠ 0 →
  ∃ fi',
    pending fi' = delete i (pending (w_fi st)) ∧
    let evs := [poll_event h (w_fi st); EvDoRead (pfd_fd (pfd e)) r rsp;
                evict e] in
    let st' := {| w_fi := fi'; w_err_ret := SD_RES_NETWORK_ERROR;
                  w_repeat := w_repeat st; w_rp := rsp |} in
    run (wait_loop (S fuel) ep st) h =
      if decide (0 < nr_sent fi')
      then emit_before evs (run (wait_loop fuel ep st') (h ++ evs))
      else (Returned (SD_RES_NETWORK_ERROR, rsp), evs).
Proof.
  intros Hwf Hret Hfirst He Hflags Hread Hr.
  destruct (wait_pass_read_failed ep i e st h r rsp Hwf Hret Hfirst He Hflags
              Hread Hr) as (fi' & _ & Hwf' & Hp & Hrun).
  exists fi'. split; [done|]. intros evs st'.
  rewrite wait_loop_unfold, Hrun. unfold wait_out. cbn [w_fi].
  by destruct (decide (0 < nr_sent fi')).
Qed.

(** X9. Interrupts, and wake-ups that report no descriptor readable (a
    hangup or an error flag without [POLLIN], say), cost nothing of the
    retry budget and complete no entry: such a pass calls [poll] and goes
    back to [again] in the very state it started in, budget, recorded
    error and response buffer included.  If [poll] answers nothing else,
    the waiter polls on and on: whatever the fuel, it is used up by calls
    of [poll] alone, and no connection is given back or evicted. *)
Theorem wait_spins_on_idle_wakeups fuel fi req h :
  fi_wf fi → 0 < nr_sent fi →
  (∀ h', (pollret (poll_answer h' fi) < 0 ∧
          poll_errno (poll_answer h' fi) = EINTR) ∨
         (0 < pollret (poll_answer h' fi) ∧
          none_pollin (poll_answer h' fi) (Z.to_nat (nr_sent fi)))) →
  (∀ ep st h',
     w_fi st = fi →
     run (wait_pass ep st) h' = (Returned (inl st), [poll_event h' fi])) ∧
  ∃ evs,
    run (wait_forward_request fuel fi req) h = (OutOfFuel, evs) ∧
    length evs = fuel ∧ Forall poll_call evs.
Proof.
  intros Hwf Hn Hidle. split.
  { intros ep st h' <-. destruct (Hidle h') as [[Hneg Heintr] | [Hpos Hnone]].
    - by rewrite wait_pass_interrupted.
    - rewrite wait_pass_none_ready by done.
      unfold wait_out. by rewrite decide_True by done. }
  rewrite wait_forward_request_run.
  assert (∃ evs,
            run (wait_loop fuel (epoch (rq req)) (wait_start fi req)) h
              = (OutOfFuel, evs) ∧
            length evs = fuel ∧ Forall poll_call evs) as (evs & -> & ? & ?);
    [|by exists evs].
  revert h. induction fuel as [|fuel IH]; intros h.
  { by exists []. }
  rewrite wait_loop_unfold.
  destruct (Hidle h) as [[Hneg Heintr] | [Hpos Hnone]].
  - rewrite wait_pass_interrupted by done.
    destruct (IH (h ++ [poll_event h (w_fi (wait_start fi req))]))
      as (evs & -> & Hlen & Hpolls).
    eexists. split; [reflexivity|]. simpl. split; [by rewrite Hlen|].
    by constructor.
  - rewrite wait_pass_none_ready by done.
    unfold wait_out. rewrite decide_True by done.
    destruct (IH (h ++ [poll_event h (w_fi (wait_start fi req))]))
      as (evs & -> & Hlen & Hpolls).
    eexists. split; [reflexivity|]. simpl. split; [by rewrite Hlen|].
    by constructor.
Qed.

Lemma wait_loop_poll_bound fuel ep st h :
  responsive_poll → live st → 0 ≤ w_repeat st ≤ INT_MAX →
  (Z.to_nat (w_repeat st) + Z.to_nat (nr_sent (w_fi st)) ≤ fuel)%nat →
  ∃ r rsp evs,
    run (wait_loop fuel ep st) h = (Returned (r, rsp), evs) ∧
    (length (filter poll_call evs)
       ≤ Z.to_nat (w_repeat st) + Z.to_nat (nr_sent (w_fi st)))%nat.
Proof.
  intros Hpoll. revert st h.
  induction fuel as [|fuel IH]; intros st h Hlive Hrep Hfuel.
  { destruct Hlive as [_ ?]. lia. }
  rewrite wait_loop_unfold.
  pose proof (wait_pass_step ep st h (proj1 Hlive)) as Hstep.
  destruct (run (wait_pass ep st) h) as [o evs1]. cbn [fst snd] in Hstep.
  destruct Hlive as [Hwf Hn].
  assert (∀ fi' err rsp (i : nat) e,
            fi_wf fi' → pending (w_fi st) !! i = Some e →
            pending fi' = delete i (pending (w_fi st)) →
            ∀ evs, length (filter poll_call evs) = 1%nat →
            ∃ r rsp' evs',
              match wait_out {| w_fi := fi'; w_err_ret := err;
                                w_repeat := w_repeat st; w_rp := rsp |} with
              | inl st' => emit_before evs (run (wait_loop fuel ep st') (h ++ evs))
              | inr v => (Returned v, evs)
              end = (Returned (r, rsp'), evs') ∧
              (length (filter poll_call evs')
                 ≤ Z.to_nat (w_repeat st) + Z.to_nat (nr_sent (w_fi st)))%nat)
    as Hout.
  { intros fi' err rsp i e Hwf' He Hp evs Hone.
    pose proof (nr_sent_delete _ _ _ _ Hwf Hwf' He Hp) as Hn'.
    unfold wait_out. cbn [w_fi w_err_ret w_rp].
    destruct (decide (0 < nr_sent fi')) as [Hmore|Hdone].
    2:{ eexists _, _, _. split; [done|]. lia. }
    destruct (IH {| w_fi := fi'; w_err_ret := err; w_repeat := w_repeat st;
                    w_rp := rsp |} (h ++ evs))
      as (r & rsp' & evs' & -> & Hbound);
      [by split | done | cbn [w_fi w_repeat]; lia |].
    rewrite emit_before_pair.
    eexists _, _, _. split; [reflexivity|].
    cbn [w_fi w_repeat] in Hbound.
    rewrite list.filter_app, length_app. lia. }
  destruct (Hpoll h (w_fi st) Hwf Hn) as [Hzero | [Hpos [i0 Hfirst0]]];
    inversion Hstep as
      [ Hneg _ | Hneg _ | Hz Hretry Hnz | Hz Hstop
      | Hp0 Hnone | i e fi' Hp0 Hfirst He _ Hwf' Hp
      | i e fi' r rsp Hp0 Hfirst He _ _ _ Hwf' Hp
      | i e fi' rsp Hp0 Hfirst He _ _ Hwf' Hp ];
    subst o evs1; try lia.
  - destruct (IH (with_repeat st (int_sub (w_repeat st) 1))
                (h ++ [poll_event h (w_fi st); EvSheepNeedRetry ep true]))
      as (r & rsp & evs & -> & Hbound).
    + by split.
    + cbn [with_repeat w_repeat].
      rewrite int_sub_small by (unfold INT_MIN, INT_MAX in *; lia). lia.
    + cbn [with_repeat w_repeat w_fi].
      rewrite int_sub_small by (unfold INT_MIN, INT_MAX in *; lia). lia.
    + rewrite emit_before_pair.
      eexists _, _, _. split; [reflexivity|].
      cbn [with_repeat w_repeat w_fi] in Hbound.
      rewrite int_sub_small in Hbound by (unfold INT_MIN, INT_MAX in *; lia).
      rewrite list.filter_app, length_app.
      change (length (filter poll_call
                [poll_event h (w_fi st); EvSheepNeedRetry ep true])) with 1%nat.
      lia.
  - eexists _, _, _. split; [reflexivity|].
    rewrite list.filter_app, length_app.
    change (length (filter poll_call
              [poll_event h (w_fi st);
               EvSheepNeedRetry ep
                 (ext_sheep_need_retry (h ++ [poll_event h (w_fi st)]) ep)]))
      with 1%nat.
    assert (∀ l : list forward_info_entry,
              filter poll_call (evict <$> l) = []) as ->.
    { clear. induction l as [|x l IHl]; [done|]. exact IHl. }
    simpl. lia.
  - destruct Hfirst0 as (Hi & Hon & _). by specialize (Hnone i0 Hi).
  - by apply (Hout fi' _ _ i e).
  - by apply (Hout fi' _ _ i e).
  - by apply (Hout fi' _ _ i e).
Qed.

(** X10. With a [poll] that times out or reports a pending descriptor
    readable, the waiter returns, and it has called [poll] at most
    [MAX_RETRY_COUNT] plus the number of pending entries times: every call
    uses up a retry or completes an entry. *)
Theorem wait_returns_within_budget fuel fi req h :
  responsive_poll → fi_wf fi → 0 < nr_sent fi →
  0 ≤ MAX_RETRY_COUNT ≤ INT_MAX →
  (Z.to_nat MAX_RETRY_COUNT + Z.to_nat (nr_sent fi) ≤ fuel)%nat →
  ∃ r req' evs,
    run (wait_forward_request fuel fi req) h = (Returned (r, req'), evs) ∧
    (length (filter poll_call evs)
       ≤ Z.to_nat MAX_RETRY_COUNT + Z.to_nat (nr_sent fi))%nat.
Proof.
  intros Hpoll Hwf Hn Hbudget Hfuel. rewrite wait_forward_request_run.
  destruct (wait_loop_poll_bound fuel (epoch (rq req)) (wait_start fi req) h)
    as (r & rsp & evs & -> & Hbound); [done | by split | done | done |].
  by eexists _, _, _.
Qed.

End WaiterEdges.

(** ** What a trace accounts for *)

Section TraceAccounting.
Context {E : Externals}.
Implicit Types (fi : forward_info) (e : forward_info_entry) (st : wait_state).

(** A record that reads success at the end was success all along: nothing
    was evicted, and every response read cleanly carried success. *)
Lemma session_error_success init evs :
  SD_RES_NETWORK_ERROR ≠ SD_RES_SUCCESS →
  session_error init evs = SD_RES_SUCCESS →
  init = SD_RES_SUCCESS ∧ evicted evs = [] ∧
  Forall (λ c, c = SD_RES_SUCCESS) (replied evs).
Proof.
  intros Hne. revert init. induction evs as [|ev evs IH]; intros init Herr.
  { by split_and!. }
  change (session_error init (ev :: evs))
    with (session_error (session_error_step init ev) evs) in Herr.
  destruct (IH _ Herr) as (Hstep & Hev & Hrep).
  unfold evicted, replied in *.
  destruct ev; try (split_and!; done).
  (* what is left is a read *)
  cbn [session_error_step] in Hstep.
  cbn [omap list_omap evicted_conn replied_result].
  destruct (decide (ret = 0)) as [->|Hr].
  - destruct (decide (0 = 0 ∧ int_wrap (result rsp) ≠ SD_RES_SUCCESS))
      as [[_ Hres]|Hres].
    + done.
    + split_and!; [done..|]. constructor; [|done].
      destruct (decide (int_wrap (result rsp) = SD_RES_SUCCESS)); tauto.
  - rewrite decide_False in Hstep by tauto. by split_and!.
Qed.

Lemma released_no_evictions evs : evicted evs = [] → released evs = given_back evs.
Proof.
  unfold evicted, released, given_back.
  induction evs as [|ev evs IH]; [done|]. intros Hev.
  destruct ev; simpl in *; try (by apply IH); try done.
  f_equal. by apply IH.
Qed.

Lemma replied_evict (l : list forward_info_entry) : replied (evict <$> l) = [].
Proof. by induction l. Qed.

Lemma given_back_evict (l : list forward_info_entry) : given_back (evict <$> l) = [].
Proof. by induction l. Qed.

Lemma given_back_app evs1 evs2 :
  given_back (evs1 ++ evs2) = given_back evs1 ++ given_back evs2.
Proof. apply omap_app. Qed.

Lemma last_response_app init evs1 evs2 :
  last_response init (evs1 ++ evs2) = last_response (last_response init evs1) evs2.
Proof. apply foldl_app. Qed.

Lemma last_response_evict init (l : list forward_info_entry) :
  last_response init (evict <$> l) = init.
Proof. by induction l. Qed.

(** One pass: a response counted is a connection given back, and the
    response buffer holds the header read last. *)
Lemma wait_step_replies ep st h x evs :
  wait_step ep st h (Returned x) evs →
  length (replied evs) = length (given_back evs) ∧
  match x with
  | inl st' => w_rp st' = last_response (w_rp st) evs
  | inr (_, rsp) => rsp = last_response (w_rp st) evs
  end.
Proof.
  assert (∀ s : wait_state, ∀ rsp,
            w_rp s = rsp →
            match wait_out s with
            | inl st' => w_rp st' = rsp
            | inr (_, rsp') => rsp' = rsp
            end) as Hout.
  { intros s rsp <-. unfold wait_out. by case_decide. }
  intros Hstep. inversion Hstep; subst.
  - done.
  - done.
  - split.
    + change (length (replied (evict <$> pending (w_fi st)))
              = length (given_back (evict <$> pending (w_fi st)))).
      by rewrite replied_evict, given_back_evict.
    + change (w_rp st = last_response (w_rp st) (evict <$> pending (w_fi st))).
      by rewrite last_response_evict.
  - split; [done|]. by apply Hout.
  - split; [done|]. by apply Hout.
  - split.
    + unfold replied. simpl. by rewrite decide_False by done.
    + by apply Hout.
  - split; [done|]. by apply Hout.
Qed.

Lemma wait_loop_replies fuel ep st h :
  live st →
  let evs := (run (wait_loop fuel ep st) h).2 in
  length (replied evs) = length (given_back evs).
Proof.
  revert st h. induction fuel as [|fuel IH]; intros st h Hlive; [done|].
  cbn zeta. rewrite wait_loop_unfold.
  pose proof (wait_pass_step ep st h (proj1 Hlive)) as Hstep.
  destruct (run (wait_pass ep st) h) as [[[st'|[r' rsp']]| | |] evs1];
    cbn [fst snd] in *.
  - pose proof (wait_step_summary _ _ _ _ _ Hstep Hlive) as (Hlive' & _).
    destruct (wait_step_replies _ _ _ _ _ Hstep) as [Hlen _].
    specialize (IH st' (h ++ evs1) Hlive'). cbn zeta in IH.
    unfold emit_before. cbn [snd].
    rewrite replied_app, given_back_app, !length_app. lia.
  - by destruct (wait_step_replies _ _ _ _ _ Hstep) as [Hlen _].
  - inversion Hstep; subst. done.
  - inversion Hstep.
  - inversion Hstep.
Qed.

Lemma wait_loop_response fuel ep st h r rsp evs :
  live st →
  run (wait_loop fuel ep st) h = (Returned (r, rsp), evs) →
  rsp = last_response (w_rp st) evs.
Proof.
  revert st h evs. induction fuel as [|fuel IH]; intros st h evs Hlive Hrun.
  { discriminate. }
  rewrite wait_loop_unfold in Hrun.
  pose proof (wait_pass_step ep st h (proj1 Hlive)) as Hstep.
  destruct (run (wait_pass ep st) h) as [[[st'|[r' rsp']]| | |] evs1];
    cbn [fst snd] in *; try discriminate.
  - pose proof (wait_step_summary _ _ _ _ _ Hstep Hlive) as (Hlive' & _).
    destruct (wait_step_replies _ _ _ _ _ Hstep) as [_ Hrp].
    destruct (run (wait_loop fuel ep st') (h ++ evs1)) as [o evs2] eqn:Hrest.
    injection Hrun as -> <-.
    rewrite last_response_app, <- Hrp. by eapply IH.
  - destruct (wait_step_replies _ _ _ _ _ Hstep) as [_ Hrp].
    by injection Hrun as _ <- <-.
Qed.

End TraceAccounting.

Section SendAccounting.
Context {E : Externals}.
Implicit Types (fi : forward_info) (e : forward_info_entry).

(** The send loop, whatever comes of it: a connection obtained is one the
    request went out on or the one whose send failed; a failed send is the
    last thing the loop does, and it evicts the node's connections. *)
Lemma forward_send_loop_accounting (n : nat) i req hdr wlen targets err fi h :
  let evs := (run (forward_send_loop n i req hdr wlen targets err fi) h).2 in
  acquired evs = sent evs ++ failed_sends evs ∧
  evicted_nodes evs = fst <$> failed_sends evs ∧
  (length (failed_sends evs) ≤ 1)%nat ∧
  Forall (λ p, p = (hdr, wlen)) (send_headers evs).
Proof.
  cbn zeta. revert i fi h. induction n as [|n IH]; intros i fi h.
  { simpl. split_and!; try done. simpl; lia. }
  simpl. mstep.
  destruct (array_get targets i) as [t|]; msteps;
    [|split_and!; try done; simpl; lia].
  destruct (ext_sockfd_cache_get h (nid t)) as [sfd|]; msteps;
    [|split_and!; try done; simpl; lia].
  set (ret := ext_send_req _ _ _ _ _ _ _).
  destruct (decide (ret ≠ 0)) as [Hret|Hret].
  { msteps. unfold sent, failed_sends. simpl.
    rewrite filter_cons_False by (simpl; tauto).
    rewrite filter_cons_True by done.
    split_and!; try done. by repeat constructor. }
  assert (ret = 0) as Hret0 by (destruct (decide (ret = 0)); tauto).
  assert (∀ evs : list event,
            acquired evs = sent evs ++ failed_sends evs ∧
            evicted_nodes evs = fst <$> failed_sends evs ∧
            (length (failed_sends evs) ≤ 1)%nat ∧
            Forall (λ p, p = (hdr, wlen)) (send_headers evs) →
            let evs' := EvSockfdCacheGet (nid t) (Some sfd)
                        :: EvSendReq (fd sfd) hdr wlen ret :: evs in
            acquired evs' = sent evs' ++ failed_sends evs' ∧
            evicted_nodes evs' = fst <$> failed_sends evs' ∧
            (length (failed_sends evs') ≤ 1)%nat ∧
            Forall (λ p, p = (hdr, wlen)) (send_headers evs')) as Hcons.
  { intros evs (Ha & Hn & Hf & Hh) evs'.
    assert (sent evs' = (nid t, sfd) :: sent evs) as ->.
    { unfold sent. simpl. by rewrite filter_cons_True by done. }
    assert (failed_sends evs' = failed_sends evs) as ->.
    { unfold failed_sends. simpl. rewrite filter_cons_False; [done|].
      simpl. tauto. }
    split_and!; try done.
    - change (acquired evs') with ((nid t, sfd) :: acquired evs).
      by rewrite Ha.
    - by constructor. }
  mstep.
  destruct (forward_info_advance fi (nid t) sfd) as [fi1|]; msteps.
  2:{ apply (Hcons []). split_and!; try done. simpl; lia. }
  rewrite <- app_assoc. cbn [app].
  specialize (IH (i + 1) fi1
                (h ++ [EvSockfdCacheGet (nid t) (Some sfd);
                       EvSendReq (fd sfd) hdr wlen ret])).
  destruct (run (forward_send_loop n (i + 1) req hdr wlen targets err fi1)
              (h ++ [EvSockfdCacheGet (nid t) (Some sfd);
                     EvSendReq (fd sfd) hdr wlen ret])) as [o evs].
  unfold emit_before. cbn [fst snd app] in *. by apply Hcons.
Qed.

Lemma waiter_events_accounting evs :
  Forall waiter_event evs →
  acquired evs = [] ∧ send_rets evs = [] ∧ evicted_nodes evs = [] ∧
  send_headers evs = [].
Proof.
  induction 1 as [|ev evs Hev _ (IH1 & IH2 & IH3 & IH4)]; [done|].
  unfold acquired, send_rets, evicted_nodes, send_headers in *.
  destruct ev; try done; simpl; by rewrite ?IH1, ?IH2, ?IH3, ?IH4.
Qed.

(** The trace of a fan-out: the resolution, the trace of the send loop,
    and what the waiter adds. *)
Lemma gateway_forward_request_trace fuel req h :
  fan_out_ready req →
  let oid := obj_oid (rq req) in
  let nr_copies := get_req_copy_number req in
  let targets := ext_oid_to_nodes oid (vroot (vinfo req)) nr_copies in
  let hdr := gateway_init_fwd_hdr (rq req) in
  ∃ fi0 evs_w,
    Forall waiter_event evs_w ∧
    (run (gateway_forward_request fuel req) h).2 =
      EvOidToNodes oid nr_copies
      :: (run (forward_send_loop (Z.to_nat nr_copies) 0 req hdr (data_length hdr)
                 targets SD_RES_SUCCESS fi0) (h ++ [EvOidToNodes oid nr_copies])).2
      ++ evs_w.
Proof.
  intros (Hn & Hmax & Htargets) oid nr_copies targets hdr.
  fold nr_copies in Hn, Htargets. fold oid targets in Htargets.
  destruct (forward_info_init_wf fi_on_stack nr_copies)
    as (fi0 & Hinit & Hwf0 & Hn0 & Hlen0); [lia | done |].
  destruct (forward_send_loop_summary (Z.to_nat nr_copies) 0 req hdr
              (data_length hdr) targets SD_RES_SUCCESS fi0
              (h ++ [EvOidToNodes oid nr_copies]))
    as (err & fi & evs & Hrun & Hwf & Hp & Hevs & Hatt & Hfail);
    [done | lia | simpl; lia |].
  exists fi0. change (Z.of_nat 0) with 0 in Hrun. rewrite Hrun. cbn [snd].
  unfold gateway_forward_request. fold oid nr_copies hdr.
  msteps. fold targets.
  rewrite size_t_of_int_small by lia. rewrite Hinit. msteps.
  rewrite Hrun. msteps.
  destruct (decide (0 < nr_sent fi)) as [Hsent|Hsent].
  2:{ msteps. exists []. by rewrite app_nil_r. }
  mstep. rewrite wait_forward_request_run.
  rewrite <- app_assoc. cbn [app].
  pose proof (wait_loop_events fuel (epoch (rq req)) (wait_start fi req)
                (h ++ EvOidToNodes oid nr_copies :: evs)
                (live_wait_start fi req Hwf Hsent)) as Hev.
  destruct (run (wait_loop fuel (epoch (rq req)) (wait_start fi req))
              (h ++ EvOidToNodes oid nr_copies :: evs))
    as [[[ret rsp]| | |] evs_w]; cbn [fst snd] in *;
    exists evs_w; (split; [done|]); try done.
  msteps. by destruct (decide (ret ≠ SD_RES_SUCCESS)); msteps.
Qed.

Lemma trace_accounting oid nr_copies evs_s evs_w :
  Forall waiter_event evs_w →
  let evs := EvOidToNodes oid nr_copies :: evs_s ++ evs_w in
  acquired evs = acquired evs_s ∧ sent evs = sent evs_s ∧
  failed_sends evs = failed_sends evs_s ∧
  evicted_nodes evs = evicted_nodes evs_s ∧
  send_headers evs = send_headers evs_s.
Proof.
  intros Hw. pose proof (waiter_events_accounting _ Hw) as (Ha & Hs & Hn & Hh).
  cbn zeta.
  assert (acquired (EvOidToNodes oid nr_copies :: evs_s ++ evs_w) = acquired evs_s)
    as Hacq.
  { change (acquired (evs_s ++ evs_w) = acquired evs_s).
    unfold acquired in *. by rewrite omap_app, Ha, app_nil_r. }
  assert (send_rets (EvOidToNodes oid nr_copies :: evs_s ++ evs_w) = send_rets evs_s)
    as Hrets.
  { change (send_rets (evs_s ++ evs_w) = send_rets evs_s).
    unfold send_rets in *. by rewrite omap_app, Hs, app_nil_r. }
  split_and!.
  - done.
  - unfold sent. by rewrite Hacq, Hrets.
  - unfold failed_sends. by rewrite Hacq, Hrets.
  - change (evicted_nodes (evs_s ++ evs_w) = evicted_nodes evs_s).
    unfold evicted_nodes in *. by rewrite omap_app, Hn, app_nil_r.
  - change (send_headers (evs_s ++ evs_w) = send_headers evs_s).
    unfold send_headers in *. by rewrite omap_app, Hh, app_nil_r.
Qed.

End SendAccounting.

(** ** The fan-out *)

Section FanOutProperties.
Context {E : Externals}.
Implicit Types (fi : forward_info) (e : forward_info_entry).

Lemma sender_events_quiet evs init :
  Forall sender_event evs →
  given_back evs = [] ∧ evicted evs = [] ∧ last_response init evs = init.
Proof.
  induction 1 as [|ev evs Hev _ (IH1 & IH2 & IH3)]; [done|].
  unfold given_back, evicted, last_response in *.
  destruct ev; try done; simpl; by rewrite ?IH1, ?IH2, ?IH3.
Qed.

Lemma no_send_failure_no_failed_send evs :
  send_failed evs = false → failed_sends evs = [].
Proof.
  intros Hf. unfold failed_sends.
  assert (Forall (λ r, r = 0) (send_rets evs)) as Hrets.
  { unfold send_failed, send_rets in *.
    induction evs as [|ev evs IH]; [constructor|].
    simpl in Hf. apply orb_false_iff in Hf as [Hev Hf].
    destruct ev; simpl; try (by apply IH).
    constructor; [|by apply IH].
    simpl in Hev. apply bool_decide_eq_false in Hev.
    destruct (decide (ret = 0)); tauto. }
  revert Hrets. generalize (send_rets evs) as rets.
  induction (acquired evs) as [|c l IH]; intros rets Hrets; [done|].
  destruct Hrets as [|r rets Hr Hrets]; [done|]. simpl.
  rewrite filter_cons_False by (simpl; tauto). by apply IH.
Qed.

(** The accounting of the send loop, read off the trace of the fan-out. *)
Lemma gateway_forward_request_accounting fuel req h :
  fan_out_ready req →
  let evs := (run (gateway_forward_request fuel req) h).2 in
  acquired evs = sent evs ++ failed_sends evs ∧
  evicted_nodes evs = fst <$> failed_sends evs ∧
  (length (failed_sends evs) ≤ 1)%nat ∧
  Forall (λ p, p = (gateway_init_fwd_hdr (rq req), data_length (rq req)))
    (send_headers evs).
Proof.
  intros Hready.
  destruct (gateway_forward_request_trace fuel req h Hready)
    as (fi0 & evs_w & Hw & Htrace).
  cbn zeta in *. rewrite Htrace. clear Htrace.
  pose proof (forward_send_loop_accounting
                (Z.to_nat (get_req_copy_number req)) 0 req
                (gateway_init_fwd_hdr (rq req))
                (data_length (gateway_init_fwd_hdr (rq req)))
                (ext_oid_to_nodes (obj_oid (rq req)) (vroot (vinfo req))
                   (get_req_copy_number req))
                SD_RES_SUCCESS fi0
                (h ++ [EvOidToNodes (obj_oid (rq req)) (get_req_copy_number req)]))
    as Hloop.
  cbn zeta in Hloop. revert Hloop.
  generalize (run (forward_send_loop (Z.to_nat (get_req_copy_number req)) 0 req
                     (gateway_init_fwd_hdr (rq req))
                     (data_length (gateway_init_fwd_hdr (rq req)))
                     (ext_oid_to_nodes (obj_oid (rq req)) (vroot (vinfo req))
                        (get_req_copy_number req))
                     SD_RES_SUCCESS fi0)
                (h ++ [EvOidToNodes (obj_oid (rq req))
                         (get_req_copy_number req)])).2 as evs_s.
  intros evs_s (Hacq & Hnodes & Hone & Hhdr).
  destruct (trace_accounting (obj_oid (rq req)) (get_req_copy_number req) evs_s
              evs_w Hw) as (-> & -> & -> & -> & ->).
  done.
Qed.

(** X11. A fan-out talks to the pool and the replicas in two phases: after
    the node resolution come the calls of the send loop, and only then
    those of the waiter, so no response is awaited before the last send.
    When the request went out on no connection, the waiter does not run. *)
Theorem forward_request_sends_then_waits fuel req h :
  fan_out_ready req →
  ∃ evs_s evs_w,
    (run (gateway_forward_request fuel req) h).2
      = EvOidToNodes (obj_oid (rq req)) (get_req_copy_number req)
        :: evs_s ++ evs_w ∧
    Forall sender_event evs_s ∧ Forall waiter_event evs_w ∧
    (sent evs_s = [] → evs_w = []).
Proof.
  intros Hready.
  destruct (gateway_forward_request_shape fuel req h Hready)
    as (err & fi & evs_s & o & evs_w & -> & Hwf & Hp & Hevs & Hw & _ & _ & Hwait).
  exists evs_s, evs_w. split_and!; try done.
  intros Hnone. destruct (decide (0 < nr_sent fi)) as [Hsent|Hsent].
  - rewrite Hnone in Hp. apply fmap_nil_inv in Hp.
    by destruct (pending_nonempty fi Hwf Hsent).
  - by destruct Hwait as [_ ->].
Qed.

(** X12. A fan-out that returns has accounted for every connection it
    obtained from the pool: each one was given back, evicted, or is the
    one whose send failed, and then all connections of its node were
    evicted.  At most one send fails, since the loop stops there. *)
Theorem forward_request_accounts_for_connections fuel req h r req' evs :
  fan_out_ready req →
  run (gateway_forward_request fuel req) h = (Returned (r, req'), evs) →
  acquired evs ≡ₚ released evs ++ failed_sends evs ∧
  evicted_nodes evs = fst <$> failed_sends evs ∧
  (length (failed_sends evs) ≤ 1)%nat.
Proof.
  intros Hready Hrun.
  destruct (gateway_forward_request_result fuel req h r req' evs Hready Hrun)
    as [Hdrain _].
  pose proof (gateway_forward_request_accounting fuel req h Hready) as Hacc.
  cbn zeta in Hacc. rewrite Hrun in Hacc. cbn [snd] in Hacc. destruct Hacc as (Hacq & Hnodes & Hone & _).
  split_and!; [|done..]. by rewrite Hdrain, Hacq.
Qed.

(** X13. Every replica is sent the same thing: the forwarded header of the
    request (peer opcode, the daemon's protocol version) and as many
    payload bytes as the request's [data_length] says. *)
Theorem forward_request_sends_forwarded_header fuel req h :
  fan_out_ready req →
  Forall (λ p, p = (gateway_init_fwd_hdr (rq req), data_length (rq req)))
    (send_headers (run (gateway_forward_request fuel req) h).2).
Proof.
  intros Hready.
  by destruct (gateway_forward_request_accounting fuel req h Hready)
    as (_ & _ & _ & ?).
Qed.

Lemma replied_clean_responses evs :
  replied evs = (λ rsp, int_wrap (result rsp)) <$> clean_responses evs.
Proof.
  unfold replied, clean_responses.
  induction evs as [|ev evs IH]; [done|].
  destruct ev; try exact IH.
  cbn [omap list_omap replied_result clean_response].
  destruct (decide (ret = 0)); [|exact IH].
  cbn [fmap list_fmap]. f_equal. exact IH.
Qed.

(** An unsigned 32-bit value that reads as the [int] [c], for [c] not
    negative, is [c]. *)
Lemma int_wrap_unsigned z c :
  0 ≤ z < 2 ^ 32 → 0 ≤ c ≤ INT_MAX → int_wrap z = c → z = c.
Proof.
  unfold int_wrap, INT_MAX. intros Hz Hc Hwrap.
  destruct (decide (z < 2 ^ 31)) as [Hsmall|Hlarge].
  - rewrite Z.mod_small in Hwrap by lia. lia.
  - assert ((z + 2 ^ 31) mod 2 ^ 32 = z - 2 ^ 31) as Hmod.
    { symmetry. apply (Z.mod_unique _ _ 1); lia. }
    lia.
Qed.

(** X14. Success is unanimous.  When a fan-out returns success, no
    connection was refused and no send failed, the request went out to all
    N replicas, all N answered with a cleanly read success, and every
    connection was given back to the pool: nothing was evicted.  (The
    result codes are those the waiter reads, as [int]; with the success
    code not negative, an unsigned 32-bit [result] field of such a
    response holds the success code itself.) *)
Theorem forward_request_success_is_unanimous fuel req h req' evs :
  fan_out_ready req → SD_RES_NETWORK_ERROR ≠ SD_RES_SUCCESS →
  run (gateway_forward_request fuel req) h
    = (Returned (SD_RES_SUCCESS, req'), evs) →
  let N := Z.to_nat (get_req_copy_number req) in
  send_failed evs = false ∧ length (sent evs) = N ∧
  given_back evs ≡ₚ sent evs ∧ evicted evs = [] ∧ evicted_nodes evs = [] ∧
  replied evs = replicate N SD_RES_SUCCESS ∧
  length (clean_responses evs) = N ∧
  (0 ≤ SD_RES_SUCCESS ≤ INT_MAX →
   Forall (λ rsp, 0 ≤ result rsp < 2 ^ 32 → result rsp = SD_RES_SUCCESS)
     (clean_responses evs)).
Proof.
  intros Hready Hne Hrun N.
  destruct (gateway_forward_request_result fuel req h _ req' evs Hready Hrun)
    as [Hdrain Hres].
  destruct (decide (session_error SD_RES_SUCCESS evs ≠ SD_RES_SUCCESS))
    as [Herr|Herr]; [by rewrite <- Hres in Herr|].
  assert (session_error SD_RES_SUCCESS evs = SD_RES_SUCCESS) as Hclean.
  { destruct (decide (session_error SD_RES_SUCCESS evs = SD_RES_SUCCESS)); tauto. }
  destruct (send_failed evs) eqn:Hfail; [done|].
  destruct (session_error_success _ _ Hne Hclean) as (_ & Hev & Hrep).
  pose proof (released_no_evictions evs Hev) as Hrel.
  pose proof (gateway_forward_request_accounting fuel req h Hready) as Hacc.
  cbn zeta in Hacc. rewrite Hrun in Hacc. cbn [snd] in Hacc. destruct Hacc as (_ & Hnodes & _ & _).
  rewrite (no_send_failure_no_failed_send evs Hfail) in Hnodes.
  destruct (gateway_forward_request_shape fuel req h Hready)
    as (err & fi & evs_s & o & evs_w & Hrun' & Hwf & Hp & Hevs & Hw & _
        & Hsend & Hwait).
  rewrite Hrun in Hrun'. injection Hrun' as <- ->.
  destruct (trace_send_phase (obj_oid (rq req)) (get_req_copy_number req)
              evs_s evs_w Hw) as (_ & Hsent & Hfailed).
  rewrite Hfailed in Hfail. rewrite Hfail in Hsend.
  destruct Hsend as (_ & _ & Hall). rewrite <- Hsent in Hall.
  assert (length (replied (EvOidToNodes (obj_oid (rq req))
                             (get_req_copy_number req) :: evs_s ++ evs_w))
          = length (given_back (EvOidToNodes (obj_oid (rq req))
                                  (get_req_copy_number req) :: evs_s ++ evs_w)))
    as Hlen.
  { destruct (trace_wait_phase (obj_oid (rq req)) (get_req_copy_number req)
                evs_s evs_w SD_RES_SUCCESS Hevs) as (_ & -> & _).
    destruct (sender_events_quiet evs_s (rp req) Hevs) as (Hgb & _ & _).
    change (length (replied evs_w) = length (given_back (evs_s ++ evs_w))).
    rewrite given_back_app, Hgb. cbn [app].
    destruct (decide (0 < nr_sent fi)) as [Hpos|Hzero].
    - destruct Hwait as (w & Hloop & _).
      pose proof (wait_loop_replies fuel (epoch (rq req)) (wait_start fi req)
                    (h ++ EvOidToNodes (obj_oid (rq req))
                            (get_req_copy_number req) :: evs_s)
                    (live_wait_start fi req Hwf Hpos)) as Hcount.
      by rewrite Hloop in Hcount.
    - by destruct Hwait as [_ ->]. }
  assert (length (replied (EvOidToNodes (obj_oid (rq req))
                             (get_req_copy_number req) :: evs_s ++ evs_w)) = N)
    as HN.
  { rewrite Hlen, <- Hrel, Hdrain. done. }
  split_and!; try done.
  - by rewrite <- Hrel.
  - symmetry. apply replicate_as_Forall. split; [done|].
    revert Hrep. apply Forall_impl. by intros c ->.
  - rewrite replied_clean_responses, length_fmap in HN. done.
  - intros Hsuccess. rewrite replied_clean_responses in Hrep.
    apply Forall_fmap in Hrep. revert Hrep. apply Forall_impl.
    intros rsp Hwrap Hfield. simpl in Hwrap.
    by apply int_wrap_unsigned.
Qed.

Lemma last_response_fan_out oid nr_copies evs_s evs_w init :
  Forall sender_event evs_s →
  last_response init (EvOidToNodes oid nr_copies :: evs_s ++ evs_w)
    = last_response init evs_w.
Proof.
  intros Hs. destruct (sender_events_quiet evs_s init Hs) as (_ & _ & Hl).
  change (last_response init (evs_s ++ evs_w) = last_response init evs_w).
  by rewrite last_response_app, Hl.
Qed.

(** X15. A fan-out that returns changes nothing of the request but its
    response header, and that holds the header [do_read] stored last,
    whichever replica it came from and whatever result it carries; when no
    header was read, the request is as it was. *)
Theorem forward_request_response_is_last_read fuel req h r req' evs :
  fan_out_ready req →
  run (gateway_forward_request fuel req) h = (Returned (r, req'), evs) →
  req' = set_rp req (last_response (rp req) evs).
Proof.
  intros Hready Hrun.
  destruct (gateway_forward_request_shape fuel req h Hready)
    as (err & fi & evs_s & o & evs_w & Hrun' & Hwf & _ & Hevs & _ & _ & _ & Hwait).
  rewrite Hrun in Hrun'. injection Hrun' as <- ->.
  rewrite last_response_fan_out by done.
  destruct (decide (0 < nr_sent fi)) as [Hpos|Hzero].
  - destruct Hwait as ([[ret rsp]| | |] & Hloop & Hres); try done.
    injection Hres as _ ->. f_equal.
    by apply (wait_loop_response _ _ _ _ _ _ _
                (live_wait_start fi req Hwf Hpos) Hloop).
  - destruct Hwait as [[= _ ->] ->]. by destruct req.
Qed.

(** X16. With a copy count of zero, a fan-out resolves the nodes, contacts
    none of them and reports success, the request untouched. *)
Theorem forward_request_no_copies fuel req h :
  get_req_copy_number req = 0 →
  run (gateway_forward_request fuel req) h
    = (Returned (SD_RES_SUCCESS, req), [EvOidToNodes (obj_oid (rq req)) 0]).
Proof.
  intros Hzero. unfold gateway_forward_request. rewrite Hzero.
  msteps. change (size_t_of_int 0) with 0. unfold forward_info_init. simpl.
  msteps. done.
Qed.

(** X17. A negative copy count is not caught: converted to [size_t] it
    makes [forward_info_init] run over the end of the session array,
    before any connection is asked for. *)
Theorem forward_request_negative_copies fuel req h :
  INT_MIN ≤ get_req_copy_number req < 0 →
  Z.of_nat (length (ent fi_on_stack)) ≤ INT_MAX →
  run (gateway_forward_request fuel req) h
    = (Faulted, [EvOidToNodes (obj_oid (rq req)) (get_req_copy_number req)]).
Proof.
  intros Hneg Hmax. unfold gateway_forward_request.
  msteps. unfold forward_info_init.
  rewrite (forward_info_init_loop_overrun _ 0).
  - simpl. msteps. done.
  - unfold size_t_of_int, INT_MIN, INT_MAX in *.
    pose proof (Z.mod_pos_bound (get_req_copy_number req) (2 ^ 64)).
    assert (get_req_copy_number req mod 2 ^ 64
            = get_req_copy_number req + 2 ^ 64) as ->.
    { symmetry. apply (Z.mod_unique _ _ (-1)); lia. }
    simpl length. lia.
Qed.

End FanOutProperties.

(** ** The read path, whatever comes of it *)

Section ReadProperties.
Context {E : Externals}.

Lemma read_local_loop_trace (n : nat) i vs req ret h :
  let evs := (run (read_local_loop n i vs req ret) h).2 in
  evs = [] ∨ ∃ c, evs = [EvPeerReadObj (obj_oid (rq req)) c].
Proof.
  cbn zeta. revert i. induction n as [|n IH]; intros i; [by left|].
  simpl. mstep. destruct (array_get vs i) as [v|]; msteps; [|by left].
  destruct (vnode_is_local v); simpl; [|apply IH].
  msteps. destruct (ext_peer_read_obj h req) as [r req1]. cbn [fst snd].
  right. exists r. by destruct (decide (r = SD_RES_SUCCESS)); msteps.
Qed.

Lemma read_local_loop_result (n : nat) i vs req ret h x evs :
  run (read_local_loop n i vs req ret) h = (Returned x, evs) →
  (evs = [] ∧ x = inr (ret, req)) ∨
  ∃ c req1, evs = [EvPeerReadObj (obj_oid (rq req)) c] ∧
            if decide (c = SD_RES_SUCCESS) then x = inl (c, req1)
            else x = inr (c, req1).
Proof.
  revert i. induction n as [|n IH]; intros i.
  { simpl. rewrite run_ret. intros [= <- <-]. by left. }
  simpl. mstep. destruct (array_get vs i) as [v|]; msteps; [|done].
  destruct (vnode_is_local v); simpl; [|apply IH].
  msteps. destruct (ext_peer_read_obj h req) as [r req1]. cbn [fst snd].
  intros Hrun. right. exists r, req1.
  destruct (decide (r = SD_RES_SUCCESS)); msteps;
    revert Hrun; msteps; by intros [= <- <-].
Qed.

Lemma read_remote_loop_count (n : nat) i j nr_copies vs req ret h :
  (length (run (read_remote_loop n i j nr_copies vs req ret) h).2 ≤ n)%nat.
Proof.
  revert i req ret h. induction n as [|n IH]; intros i req ret h; [done|].
  simpl. mstep.
  destruct (array_get vs (int_rem (int_add i j) nr_copies)) as [v|];
    msteps; [|simpl; lia].
  destruct (vnode_is_local v).
  { specialize (IH (i + 1) req ret h). lia. }
  msteps.
  destruct (ext_sheep_exec_req h (nid (node v)) (gateway_init_fwd_hdr (rq req))
              (data req)) as [[r rsp] d]. cbn [fst snd].
  destruct (decide (r ≠ SD_RES_SUCCESS)).
  - unfold emit_before. simpl.
    specialize (IH (i + 1) (set_data req d) r
                  (h ++ [EvSheepExecReq (nid (node v))
                           (gateway_init_fwd_hdr (rq req)) r])).
    lia.
  - msteps. simpl. lia.
Qed.

Lemma default_last_cons {A} (a b : A) l :
  default a (list.last (b :: l)) = default b (list.last l).
Proof.
  revert a b. induction l as [|c l IH]; intros a b; [done|].
  change (list.last (b :: c :: l)) with (list.last (c :: l)).
  by rewrite (IH a c), (IH b c).
Qed.

(** The second loop returns the result of its last read, or what it was
    entered with when it reads nothing; a read that is not the last one
    has failed. *)
Lemma read_remote_loop_result (n : nat) i j nr_copies vs req ret h r req' evs :
  run (read_remote_loop n i j nr_copies vs req ret) h = (Returned (r, req'), evs) →
  r = default ret (list.last (read_rets evs)) ∧
  ∀ (k : nat) c, read_rets evs !! k = Some c →
                 (S k < length (read_rets evs))%nat → c ≠ SD_RES_SUCCESS.
Proof.
  revert i req ret h evs. induction n as [|n IH]; intros i req ret h evs.
  { simpl. rewrite run_ret. intros [= <- <- <-]. split; [done|]. by intros []. }
  simpl. mstep.
  destruct (array_get vs (int_rem (int_add i j) nr_copies)) as [v|];
    msteps; [|done].
  destruct (vnode_is_local v); [apply IH|].
  msteps.
  destruct (ext_sheep_exec_req h (nid (node v)) (gateway_init_fwd_hdr (rq req))
              (data req)) as [[r1 rsp] d]. cbn [fst snd].
  destruct (decide (r1 ≠ SD_RES_SUCCESS)) as [Hfail|Hok].
  - destruct (run (read_remote_loop n (i + 1) j nr_copies vs (set_data req d) r1)
                (h ++ [EvSheepExecReq (nid (node v))
                         (gateway_init_fwd_hdr (rq req)) r1]))
      as [o evs1] eqn:Hrest.
    unfold emit_before. cbn [fst snd app]. intros [= -> <-].
    destruct (IH _ _ _ _ _ Hrest) as [Hr Hbefore].
    change (read_rets (EvSheepExecReq (nid (node v))
                         (gateway_init_fwd_hdr (rq req)) r1 :: evs1))
      with (r1 :: read_rets evs1).
    rewrite default_last_cons. split; [done|].
    intros [|k] c; simpl.
    + by intros [= <-] _.
    + intros Hc Hk. apply (Hbefore k c Hc). lia.
  - msteps. intros [= <- <- <-]. split; [done|].
    intros [|k] c; simpl; [lia|done].
Qed.

(** The cache check at the head of [gateway_read_obj]. *)
Lemma gateway_read_obj_gate req h (k : M (Z * request)) :
  run (use_cache ←
         (if enable_object_cache && negb (local req)
          then b ← bypass_object_cache req; mret (negb b)
          else mret false);
       if use_cache : bool then object_cache_handle_request req else k) h
  = if enable_object_cache && negb (local req)
         && negb (ext_bypass_object_cache h req)
    then (Returned (ext_object_cache_handle_request
                      (h ++ cache_check_events h req) req),
          cache_check_events h req ++
          [EvObjectCacheHandle (obj_oid (rq req))
             (ext_object_cache_handle_request
                (h ++ cache_check_events h req) req).1])
    else emit_before (cache_check_events h req)
           (run k (h ++ cache_check_events h req)).
Proof.
  unfold cache_check_events. mstep.
  destruct (enable_object_cache && negb (local req)); simpl.
  - msteps. destruct (ext_bypass_object_cache h req); simpl; by msteps.
  - by msteps.
Qed.

(** The trace of a read: the cache check, then either the cache's handling
    or the reads of the replicas. *)
Lemma gateway_read_obj_trace req h :
  let oid := obj_oid (rq req) in
  let nr_copies := get_req_copy_number req in
  let evs := (run (gateway_read_obj req) h).2 in
  (¬ read_skips_cache h req ∧
   run (gateway_read_obj req) h =
     (Returned (ext_object_cache_handle_request
                  (h ++ cache_check_events h req) req),
      cache_check_events h req ++
      [EvObjectCacheHandle oid
         (ext_object_cache_handle_request
            (h ++ cache_check_events h req) req).1])) ∨
  (read_skips_cache h req ∧
   ∃ evs_l evs_r,
     evs = cache_check_events h req ++ EvOidToVnodes oid nr_copies :: evs_l ++ evs_r ∧
     (evs_l = [] ∨ ∃ c, evs_l = [EvPeerReadObj oid c]) ∧
     (evs_r = [] ∨
      ∃ j evs_x, evs_r = EvRandom j :: evs_x ∧ Forall remote_read_event evs_x ∧
                 (length evs_x ≤ Z.to_nat nr_copies)%nat)).
Proof.
  intros oid nr_copies. cbn zeta.
  unfold read_skips_cache, gateway_read_obj.
  fold oid nr_copies. rewrite gateway_read_obj_gate. fold oid.
  destruct (enable_object_cache && negb (local req)
            && negb (ext_bypass_object_cache h req)) eqn:Hgate.
  { left. by split. }
  right. split; [done|]. unfold emit_before. cbn [snd].
  generalize (h ++ cache_check_events h req) as h0. intros h0.
  msteps.
  pose proof (read_local_loop_trace (Z.to_nat nr_copies) 0
                (ext_oid_to_vnodes oid (vroot (vinfo req)) nr_copies) req
                SD_RES_SUCCESS (h0 ++ [EvOidToVnodes oid nr_copies])) as Hl.
  cbn zeta in Hl.
  destruct (run (read_local_loop (Z.to_nat nr_copies) 0
                   (ext_oid_to_vnodes oid (vroot (vinfo req)) nr_copies) req
                   SD_RES_SUCCESS) (h0 ++ [EvOidToVnodes oid nr_copies]))
    as [o evs_l]. cbn [fst snd] in *.
  exists evs_l.
  destruct o as [[out|[ret req1]]| | |]; msteps;
    try (exists []; rewrite app_nil_r; split_and!; [done|done|by left]).
  eexists. split; [reflexivity|]. split; [done|]. right.
  eexists _, _. split; [reflexivity|].
  split; [apply read_remote_loop_events | apply read_remote_loop_count].
Qed.

End ReadProperties.

Section ReadBehaviour.
Context {E : Externals}.

Lemma replica_reads_no_cache evs :
  Forall remote_read_event evs → Forall replica_read_event evs.
Proof. apply Forall_impl. by intros []. Qed.

Lemma read_rets_app evs1 evs2 :
  read_rets (evs1 ++ evs2) = read_rets evs1 ++ read_rets evs2.
Proof. apply omap_app. Qed.

Lemma read_rets_cons ev evs :
  read_rets (ev :: evs) =
    match read_ret ev with Some c => c :: read_rets evs | None => read_rets evs end.
Proof. unfold read_rets. simpl. by destruct (read_ret ev). Qed.

Lemma read_rets_cache_check h req : read_rets (cache_check_events h req) = [].
Proof. unfold cache_check_events. by case_match. Qed.

(** X18. The object cache serves a read exactly when it is enabled, the
    request is not a local one and [bypass_object_cache] says no; then the
    cache's answer is the result and no replica is read.  When the cache
    is disabled or the request is local, [bypass_object_cache] is not even
    asked; when it says yes, the read goes to the replicas. *)
Theorem read_cache_gate req h :
  let oid := obj_oid (rq req) in
  let evs := (run (gateway_read_obj req) h).2 in
  if enable_object_cache && negb (local req) then
    if ext_bypass_object_cache h req then
      ∃ rest, evs = EvBypassObjectCache oid true :: rest ∧
              Forall replica_read_event rest
    else
      let answer :=
        ext_object_cache_handle_request (h ++ [EvBypassObjectCache oid false]) req in
      run (gateway_read_obj req) h =
        (Returned answer,
         [EvBypassObjectCache oid false; EvObjectCacheHandle oid answer.1])
  else Forall replica_read_event evs.
Proof.
  intros oid evs. subst evs.
  destruct (gateway_read_obj_trace req h)
    as [[Hcache Hrun] | (Hskip & evs_l & evs_r & Htrace & Hl & Hr)].
  - unfold read_skips_cache, cache_check_events in *.
    destruct (enable_object_cache && negb (local req)); simpl in *; [|done].
    destruct (ext_bypass_object_cache h req); simpl in *; [done|].
    exact Hrun.
  - cbn zeta in Htrace. rewrite Htrace. clear Htrace.
    assert (Forall replica_read_event
              (EvOidToVnodes oid (get_req_copy_number req) :: evs_l ++ evs_r))
      as Hreplicas.
    { constructor; [done|]. apply Forall_app. split.
      - destruct Hl as [->|[c ->]]; by repeat constructor.
      - destruct Hr as [->|(j & evs_x & -> & Hx & _)]; [constructor|].
        constructor; [done|]. by apply replica_reads_no_cache. }
    unfold read_skips_cache, cache_check_events in *.
    destruct (enable_object_cache && negb (local req)); simpl in *; [|done].
    destruct (ext_bypass_object_cache h req); simpl in *; [|done].
    by eexists.
Qed.

(** X19. A read calls nothing but the cache and the replica reads: it
    takes no connection from the pool, sends and polls nothing.  It reads
    the local replica at most once and makes at most one remote read per
    copy. *)
Theorem read_reads_sparingly req h :
  let evs := (run (gateway_read_obj req) h).2 in
  Forall (λ ev, cache_event ev || replica_read_event ev) evs ∧
  (length (filter local_read_event evs) ≤ 1)%nat ∧
  (length (filter remote_read_event evs)
     ≤ Z.to_nat (get_req_copy_number req))%nat.
Proof.
  cbn zeta.
  assert (∀ evs, Forall remote_read_event evs →
            filter remote_read_event evs = evs ∧
            filter local_read_event evs = []) as Hremote.
  { induction 1 as [|ev evs Hev _ [IH1 IH2]]; [done|].
    destruct ev; try done. split.
    - rewrite filter_cons_True by done. by rewrite IH1.
    - rewrite filter_cons_False by (by intros ?). done. }
  destruct (gateway_read_obj_trace req h)
    as [[Hcache ->] | (Hskip & evs_l & evs_r & Htrace & Hl & Hr)].
  - cbn [snd]. unfold cache_check_events.
    destruct (enable_object_cache && negb (local req)); simpl;
      split_and!; try (by repeat constructor); lia.
  - cbn zeta in Htrace. rewrite Htrace. clear Htrace.
    rewrite !list.filter_app, !length_app.
    assert (Forall (λ ev, cache_event ev || replica_read_event ev)
              (cache_check_events h req) ∧
            filter local_read_event (cache_check_events h req) = [] ∧
            filter remote_read_event (cache_check_events h req) = [])
      as (Hc1 & -> & ->).
    { unfold cache_check_events.
      destruct (enable_object_cache && negb (local req)); by repeat constructor. }
    rewrite !(filter_cons_False _ (EvOidToVnodes _ _)) by (by intros ?).
    rewrite !list.filter_app, !length_app.
    assert (Forall (λ ev, cache_event ev || replica_read_event ev) evs_l ∧
            (length (filter local_read_event evs_l) ≤ 1)%nat ∧
            filter remote_read_event evs_l = []) as (Hl1 & Hl2 & ->).
    { destruct Hl as [->|[c ->]]; split_and!; try (by repeat constructor);
        simpl; lia. }
    assert (Forall (λ ev, cache_event ev || replica_read_event ev) evs_r ∧
            filter local_read_event evs_r = [] ∧
            (length (filter remote_read_event evs_r)
               ≤ Z.to_nat (get_req_copy_number req))%nat) as (Hr1 & -> & Hr3).
    { destruct Hr as [->|(j & evs_x & -> & Hx & Hlen)].
      - split_and!; try done. simpl; lia.
      - destruct (Hremote evs_x Hx) as [Hf1 Hf2].
        rewrite !(filter_cons_False _ (EvRandom _)) by (by intros ?).
        rewrite Hf1, Hf2. split_and!; try done.
        constructor; [done|]. revert Hx. apply Forall_impl. by intros []. }
    split_and!.
    + apply Forall_app. split; [done|]. constructor; [done|].
      apply Forall_app. by split.
    + simpl. lia.
    + simpl. lia.
Qed.

(** X20. "Return success if any read succeed": a read that goes to the
    replicas returns the result of the last read it made, local or remote,
    and every read before that one has failed.  When it makes no read at
    all (no copies, or no remote replica after no local one), it returns
    success. *)
Theorem read_returns_last_read req h r req' evs :
  read_skips_cache h req →
  run (gateway_read_obj req) h = (Returned (r, req'), evs) →
  r = default SD_RES_SUCCESS (list.last (read_rets evs)) ∧
  ∀ (k : nat) c, read_rets evs !! k = Some c →
                 (S k < length (read_rets evs))%nat → c ≠ SD_RES_SUCCESS.
Proof.
  intros Hskip. unfold gateway_read_obj. rewrite gateway_read_obj_gate.
  unfold read_skips_cache in Hskip. rewrite Hskip.
  generalize (h ++ cache_check_events h req) as h0. intros h0.
  msteps.
  set (oid := obj_oid (rq req)). set (nr_copies := get_req_copy_number req).
  set (vs := ext_oid_to_vnodes oid (vroot (vinfo req)) nr_copies).
  pose proof (read_local_loop_result (Z.to_nat nr_copies) 0 vs req
                SD_RES_SUCCESS (h0 ++ [EvOidToVnodes oid nr_copies])) as Hl.
  destruct (run (read_local_loop (Z.to_nat nr_copies) 0 vs req SD_RES_SUCCESS)
              (h0 ++ [EvOidToVnodes oid nr_copies])) as [o evs_l].
  destruct o as [x| | |]; msteps; try done.
  specialize (Hl x evs_l eq_refl).
  assert (∀ ret req1 evs_x,
            run (read_remote_loop (Z.to_nat nr_copies) 0
                   (int_wrap (ext_random (h0 ++ EvOidToVnodes oid nr_copies :: evs_l)))
                   nr_copies vs req1 ret)
                (h0 ++ EvOidToVnodes oid nr_copies
                    :: evs_l ++ [EvRandom (ext_random
                         (h0 ++ EvOidToVnodes oid nr_copies :: evs_l))])
              = (Returned (r, req'), evs_x) →
            r = default ret (list.last (read_rets evs_x)) ∧
            ∀ (k : nat) c, read_rets evs_x !! k = Some c →
                           (S k < length (read_rets evs_x))%nat →
                           c ≠ SD_RES_SUCCESS) as Hremote.
  { intros ret req1 evs_x. apply read_remote_loop_result. }
  destruct Hl as [[-> ->] | (c & req1 & -> & Hx)].
  - (* no local replica *)
    msteps. rewrite <- !app_assoc. cbn [app].
    destruct (run (read_remote_loop (Z.to_nat nr_copies) 0 _ nr_copies vs req
                     SD_RES_SUCCESS) _) as [o evs_x] eqn:Hrest.
    cbn [fst snd]. intros [= -> <-].
    rewrite read_rets_app, read_rets_cache_check. cbn [app].
    rewrite !read_rets_cons. cbn [read_ret].
    apply (Hremote SD_RES_SUCCESS req evs_x). exact Hrest.
  - destruct (decide (c = SD_RES_SUCCESS)) as [Hok|Hfail]; subst x.
    + (* the local read succeeded *)
      msteps. intros [= <- <- <-].
      rewrite read_rets_app, read_rets_cache_check. cbn [app].
      split; [done|]. intros [|k] c'; simpl; [lia|done].
    + (* the local read failed *)
      msteps. rewrite <- !app_assoc. cbn [app].
      destruct (run (read_remote_loop (Z.to_nat nr_copies) 0 _ nr_copies vs req1
                       c) _) as [o evs_x] eqn:Hrest.
      cbn [fst snd]. intros [= -> <-].
      rewrite read_rets_app, read_rets_cache_check. cbn [app].
      rewrite !read_rets_cons. cbn [read_ret].
      destruct (Hremote c req1 evs_x Hrest) as [Hr Hbefore].
      rewrite default_last_cons. split; [done|].
      intros [|k] c'; simpl.
      * by intros [= <-] _.
      * intros Hc Hk. apply (Hbefore k c' Hc). lia.
Qed.

End ReadBehaviour.

(** ** The calls on a session, and the entry points *)

Section SessionCalls.
Context {E : Externals}.
Implicit Types (fi : forward_info) (e : forward_info_entry).

Lemma pfd_info_init_loop_overrun (n i : nat) (slots : list forward_info_entry) :
  (length slots < i + n)%nat → (0 < n)%nat →
  pfd_info_init_loop n (Z.of_nat i) slots = None.
Proof.
  revert i. induction n as [|n IH]; intros i Hlen Hn; [lia|].
  simpl. rewrite array_get_nat.
  destruct (slots !! i) as [e|] eqn:He; simpl; [|done].
  apply lookup_lt_Some in He.
  replace (Z.of_nat i + 1) with (Z.of_nat (S i)) by lia.
  rewrite IH by lia. done.
Qed.

(** X21. [pfd_info_init] hands [poll] the descriptors of the pending
    entries, in their order, and their number; a session that claims more
    entries than its array holds is a fault. *)
Theorem pfd_info_init_collects_pending fi :
  0 ≤ nr_sent fi →
  if decide (nr_sent fi ≤ Z.of_nat (length (ent fi))) then
    pfd_info_init fi
      = Some {| pi_pfds := pfd <$> pending fi; pi_nr := nr_sent fi |}
  else pfd_info_init fi = None.
Proof.
  intros Hn. unfold pfd_info_init. case_decide as Hroom.
  - rewrite (pfd_info_init_loop_spec _ 0) by (simpl; lia). done.
  - rewrite (pfd_info_init_loop_overrun _ 0) by (simpl; lia). done.
Qed.

(** X22. [finish_one_entry] and [finish_one_entry_err] take the same entry
    out of the session and leave the same session behind; they differ in
    what the pool is told: the first gives the connection back, the second
    evicts it.  Each makes that one call and no other. *)
Theorem finish_entry_puts_or_evicts fi (i : nat) e h :
  fi_wf fi → pending fi !! i = Some e →
  ∃ fi',
    pending fi' = delete i (pending fi) ∧ nr_sent fi' = nr_sent fi - 1 ∧
    run (finish_one_entry fi (Z.of_nat i)) h = (Returned fi', [release e]) ∧
    run (finish_one_entry_err fi (Z.of_nat i)) h = (Returned fi', [evict e]).
Proof.
  intros Hwf He.
  destruct (finish_one_entry_run fi i e h Hwf He)
    as (fi1 & Hrun1 & Hup1 & _ & Hp & Hn).
  destruct (finish_one_entry_err_run fi i e h Hwf He)
    as (fi2 & Hrun2 & Hup2 & _).
  rewrite Hup1 in Hup2. injection Hup2 as <-.
  by exists fi1.
Qed.

(** X23. None of the three entry points for writes and removes loses a
    connection: when the call returns, every connection it obtained from
    the pool was given back, evicted, or is the one whose send failed (and
    then the node's connections were evicted).  A write that the cache
    serves, or that is refused as read-only, asks the pool for none. *)
Theorem entry_points_account_for_connections
    (op : nat → request → M (Z * request)) fuel req h r req' evs :
  op ∈ [gateway_write_obj; gateway_create_and_write_obj; gateway_remove_obj] →
  fan_out_ready req →
  run (op fuel req) h = (Returned (r, req'), evs) →
  acquired evs ≡ₚ released evs ++ failed_sends evs ∧
  evicted_nodes evs = fst <$> failed_sends evs ∧
  (op ∈ [gateway_write_obj; gateway_create_and_write_obj] →
   oid_is_readonly (obj_oid (rq req)) = true
     ∨ ext_bypass_object_cache h req = false →
   attempted evs = [] ∧ Forall (λ ev, sender_event ev = false) evs).
Proof.
  intros Hop Hready.
  assert (run (gateway_write_obj fuel req) h = (Returned (r, req'), evs) →
          oid_is_readonly (obj_oid (rq req)) = true
            ∨ ext_bypass_object_cache h req = false →
          attempted evs = [] ∧ Forall (λ ev, sender_event ev = false) evs)
    as Hquiet.
  { unfold gateway_write_obj.
    destruct (oid_is_readonly (obj_oid (rq req))).
    { rewrite run_ret. by intros [= <- <- <-]. }
    msteps. intros Hrun [?|Hcache]; [done|].
    rewrite Hcache in Hrun. simpl in Hrun. revert Hrun. msteps.
    intros [= _ <-]. split; [done|]. by repeat constructor. }
  assert (∀ h0 evs0,
            run (gateway_forward_request fuel req) h0 = (Returned (r, req'), evs0) →
            acquired evs0 ≡ₚ released evs0 ++ failed_sends evs0 ∧
            evicted_nodes evs0 = fst <$> failed_sends evs0) as Hfan.
  { intros h0 evs0 Hrun.
    destruct (gateway_forward_request_result fuel req h0 r req' evs0 Hready Hrun)
      as [Hdrain _].
    pose proof (gateway_forward_request_accounting fuel req h0 Hready) as Hacc.
    cbn zeta in Hacc. rewrite Hrun in Hacc. cbn [snd] in Hacc.
    destruct Hacc as (Hacq & Hnodes & _ & _).
    split; [|done]. by rewrite Hdrain, Hacq. }
  assert (run (gateway_write_obj fuel req) h = (Returned (r, req'), evs) →
          acquired evs ≡ₚ released evs ++ failed_sends evs ∧
          evicted_nodes evs = fst <$> failed_sends evs) as Hwrite.
  { unfold gateway_write_obj.
    destruct (oid_is_readonly (obj_oid (rq req))).
    { rewrite run_ret. by intros [= <- <- <-]. }
    msteps. destruct (ext_bypass_object_cache h req); simpl.
    - destruct (run (gateway_forward_request fuel req)
                  (h ++ [EvBypassObjectCache (obj_oid (rq req)) true]))
        as [o evs0] eqn:Hrun.
      unfold emit_before. cbn [fst snd app]. intros Heq.
      injection Heq as Ho Hevs. subst o evs.
      exact (Hfan _ _ Hrun).
    - msteps. by intros [= _ <-]. }
  rewrite !elem_of_cons, elem_of_nil in Hop.
  destruct Hop as [->|[->|[->|[]]]].
  - intros Hrun. destruct (Hwrite Hrun) as [? ?].
    split_and!; [done..|]. intros _. by apply Hquiet.
  - intros Hrun. destruct (Hwrite Hrun) as [? ?].
    split_and!; [done..|]. intros _. by apply Hquiet.
  - intros Hrun. destruct (Hfan _ _ Hrun) as [? ?].
    split_and!; [done..|].
    intros Hsame Hcache.
    rewrite !elem_of_cons, elem_of_nil in Hsame.
    destruct Hsame as [Heq|[Heq|[]]]; rewrite Heq in Hrun; by apply Hquiet.
Qed.

End SessionCalls.

(** ** The further properties, on the small cluster *)

Section FurtherOnTheCluster.
Import Scenario.

Lemma two_pending_wf : fi_wf two_pending.
Proof. unfold fi_wf, INT_MAX. simpl. lia. Defined.

Lemma forward_info_update_removes_entry_witness :
  ∃ fi', forward_info_update two_pending 0 = Some fi' ∧
         pending fi' = [session_entry 2] ∧ nr_sent fi' = 1 ∧
         length (ent fi') = 4%nat ∧ fi_wf fi'.
Proof.
  apply (forward_info_update_removes_entry two_pending 0).
  - exact two_pending_wf.
  - simpl. lia.
Defined.

Lemma forward_info_update_not_pending_witness :
  forward_info_update two_pending 2 = None.
Proof.
  apply (forward_info_update_not_pending two_pending 2).
  - exact two_pending_wf.
  - unfold INT_MIN, INT_MAX. lia.
  - simpl. lia.
Defined.

Lemma forward_info_advance_appends_witness :
  ∃ fi' e, forward_info_advance two_pending (nid (mk_node 3)) (mk_sockfd 3)
             = Some fi' ∧
           pending fi' = [session_entry 1; session_entry 2; e] ∧
           ent_nid e = nid (mk_node 3) ∧ ent_sfd e = mk_sockfd 3 ∧
           pfd_fd (pfd e) = 13 ∧ events (pfd e) = POLLIN ∧
           nr_sent fi' = 3 ∧ fi_wf fi'.
Proof.
  pose proof (forward_info_advance_appends two_pending (nid (mk_node 3))
                (mk_sockfd 3) two_pending_wf) as Hadv.
  rewrite decide_True in Hadv by (simpl; lia). exact Hadv.
Defined.

Lemma forward_info_init_empties_witness :
  ∃ fi', forward_info_init two_pending 3 = Some fi' ∧
         nr_sent fi' = 0 ∧ pending fi' = [] ∧
         ent fi' = [set_pfd_fd (session_entry 1) (-1);
                    set_pfd_fd (session_entry 2) (-1);
                    set_pfd_fd stale_entry (-1); stale_entry].
Proof.
  assert (0 ≤ 3) as Hn by lia.
  pose proof (forward_info_init_empties two_pending 3 Hn) as Hinit.
  rewrite decide_True in Hinit by (simpl; lia). exact Hinit.
Defined.

Lemma forward_info_advance_update_witness :
  ∃ fi1 fi2,
    forward_info_advance two_pending (nid (mk_node 3)) (mk_sockfd 3) = Some fi1 ∧
    forward_info_update fi1 2 = Some fi2 ∧
    pending fi2 = [session_entry 1; session_entry 2] ∧ nr_sent fi2 = 2.
Proof.
  apply (forward_info_advance_update two_pending (nid (mk_node 3)) (mk_sockfd 3)).
  - exact two_pending_wf.
  - simpl. lia.
Defined.

Lemma wait_panics_when_poll_fails_witness :
  run (wait_forward_request (E := poll_broken) 3 two_pending
         (request_for 42 [1; 2])) []
    = (Panicked, [poll_event (E := poll_broken) [] two_pending; EvPanic]).
Proof.
  apply (wait_panics_when_poll_fails (E := poll_broken) 2 two_pending
           (request_for 42 [1; 2]) []).
  - exact two_pending_wf.
  - simpl. lia.
  - discriminate.
Defined.

(** The first entry is flagged with [POLLERR]. *)
Lemma flagged_entry_is_evicted_witness :
  let E := scripted flagged_then_unreadable in
  ∃ fi',
    pending fi' = [session_entry 2] ∧
    ∃ evs,
      run (wait_loop (E := E) 3 3 (waiting 0 2)) [] =
        emit_before evs
          (run (wait_loop (E := E) 2 3
                  {| w_fi := fi'; w_err_ret := 134; w_repeat := 2;
                     w_rp := reply 0 |}) evs).
Proof.
  intros E.
  destruct (flagged_entry_is_evicted (E := E) 2 3 0 (session_entry 1)
              (waiting 0 2) []) as (fi' & Hp & Hrun).
  - exact two_pending_wf.
  - simpl. lia.
  - split_and!; [simpl; lia | done | intros j Hj; lia].
  - reflexivity.
  - discriminate.
  - exists fi'. split; [exact Hp|].
    assert (0 < nr_sent fi') as Hn.
    { apply (f_equal length) in Hp. unfold pending in Hp.
      rewrite length_take in Hp. simpl in Hp. lia. }
    simpl in Hrun. rewrite decide_True in Hrun by exact Hn.
    eexists. exact Hrun.
Defined.

(** After one poll, the first entry is readable and its read fails. *)
Lemma unreadable_entry_is_evicted_witness :
  let E := scripted flagged_then_unreadable in
  let h := [EvPoll [] 0 0 timed_out] in
  ∃ fi',
    pending fi' = [session_entry 2] ∧
    ∃ evs,
      run (wait_loop (E := E) 3 3 (waiting 0 2)) h =
        emit_before evs
          (run (wait_loop (E := E) 2 3
                  {| w_fi := fi'; w_err_ret := 134; w_repeat := 2;
                     w_rp := reply 9 |}) (h ++ evs)).
Proof.
  intros E h.
  destruct (unreadable_entry_is_evicted (E := E) 2 3 0 (session_entry 1)
              (waiting 0 2) h 1 (reply 9)) as (fi' & Hp & Hrun).
  - exact two_pending_wf.
  - simpl. lia.
  - split_and!; [simpl; lia | done | intros j Hj; lia].
  - reflexivity.
  - reflexivity.
  - reflexivity.
  - discriminate.
  - exists fi'. split; [exact Hp|].
    assert (0 < nr_sent fi') as Hn.
    { apply (f_equal length) in Hp. unfold pending in Hp.
      rewrite length_take in Hp. simpl in Hp. lia. }
    simpl in Hrun. rewrite decide_True in Hrun by exact Hn.
    eexists. exact Hrun.
Defined.

(** [poll] keeps reporting a hangup and nothing to read. *)
Lemma wait_spins_on_idle_wakeups_witness :
  (∀ ep st h',
     w_fi st = two_pending →
     run (wait_pass (E := hung_up) ep st) h'
       = (Returned (inl st), [poll_event (E := hung_up) h' two_pending])) ∧
  ∃ evs,
    run (wait_forward_request (E := hung_up) 7 two_pending
           (request_for 42 [1; 2])) [] = (OutOfFuel, evs) ∧
    length evs = 7%nat ∧ Forall poll_call evs.
Proof.
  apply (wait_spins_on_idle_wakeups (E := hung_up) 7 two_pending
           (request_for 42 [1; 2]) []).
  - exact two_pending_wf.
  - simpl. lia.
  - intros h'. right. split; [simpl; lia|].
    intros j Hj. destruct j as [|[|j]]; [reflexivity | reflexivity | simpl in Hj; lia].
Defined.

Lemma wait_returns_within_budget_witness :
  let E := scripted third_unreachable in
  ∃ r req' evs,
    run (wait_forward_request (E := E) 4 two_pending (request_for 42 [1; 2])) []
      = (Returned (r, req'), evs) ∧
    (length (filter poll_call evs) ≤ 4)%nat.
Proof.
  intros E.
  apply (wait_returns_within_budget (E := E) 4 two_pending
           (request_for 42 [1; 2]) []).
  - exact third_unreachable_responsive.
  - exact two_pending_wf.
  - simpl. lia.
  - unfold INT_MAX. simpl. lia.
  - simpl. lia.
Defined.

Lemma healthy_ready :
  fan_out_ready (E := scripted healthy) (request_for 42 [1; 2; 3]).
Proof. unfold fan_out_ready, INT_MAX. simpl. lia. Defined.

Lemma second_send_fails_ready :
  fan_out_ready (E := scripted second_send_fails) (request_for 42 [1; 2; 3]).
Proof. unfold fan_out_ready, INT_MAX. simpl. lia. Defined.

Lemma forward_request_sends_then_waits_witness :
  let E := scripted second_send_fails in
  ∃ evs_s evs_w,
    (run (gateway_forward_request (E := E) 5 (request_for 42 [1; 2; 3])) []).2
      = EvOidToNodes 42 3 :: evs_s ++ evs_w ∧
    Forall sender_event evs_s ∧ Forall waiter_event evs_w ∧
    (sent evs_s = [] → evs_w = []).
Proof.
  intros E.
  exact (forward_request_sends_then_waits (E := E) 5
           (request_for 42 [1; 2; 3]) [] second_send_fails_ready).
Defined.

(** The send to the second node fails: its connection is the one not
    released, and node 2 is the one evicted. *)
Lemma forward_request_accounts_for_connections_witness :
  let E := scripted second_send_fails in
  let evs := (run (gateway_forward_request (E := E) 5
                     (request_for 42 [1; 2; 3])) []).2 in
  failed_sends evs = [(nid (mk_node 2), mk_sockfd 2)] ∧
  acquired evs ≡ₚ released evs ++ failed_sends evs ∧
  evicted_nodes evs = fst <$> failed_sends evs ∧
  (length (failed_sends evs) ≤ 1)%nat.
Proof.
  intros E evs. split; [reflexivity|].
  eapply (forward_request_accounts_for_connections (E := E) 5
            (request_for 42 [1; 2; 3]) []).
  - exact second_send_fails_ready.
  - vm_compute. reflexivity.
Defined.

Lemma forward_request_sends_forwarded_header_witness :
  let E := scripted healthy in
  let req := request_for 42 [1; 2; 3] in
  Forall (λ p, p = (gateway_init_fwd_hdr (E := E) (rq req), 4))
    (send_headers (run (gateway_forward_request (E := E) 5 req) []).2).
Proof.
  intros E req.
  exact (forward_request_sends_forwarded_header (E := E) 5 req [] healthy_ready).
Defined.

Lemma forward_request_success_is_unanimous_witness :
  let E := scripted healthy in
  let req := request_for 42 [1; 2; 3] in
  let evs := (run (gateway_forward_request (E := E) 5 req) []).2 in
  send_failed evs = false ∧ length (sent evs) = 3%nat ∧
  given_back evs ≡ₚ sent evs ∧ evicted evs = [] ∧ evicted_nodes evs = [] ∧
  replied evs = [0; 0; 0].
Proof.
  intros E req evs.
  destruct (forward_request_success_is_unanimous (E := E) 5 req [] req evs)
    as (Hsends & Hsent & Hback & Hevicted & Hnodes & Hreplied & _).
  - exact healthy_ready.
  - discriminate.
  - vm_compute. reflexivity.
  - split_and!; assumption.
Defined.

(** The first node answers 5, the second answers success last: the call
    returns 5, and the response header is the second node's. *)
Lemma forward_request_response_is_last_read_witness :
  let E := scripted third_unreachable in
  let req := request_for 42 [1; 2; 3] in
  let res := run (gateway_forward_request (E := E) 5 req) [] in
  res.1 = Returned (5, set_rp req (reply 0)) ∧
  set_rp req (reply 0) = set_rp req (last_response (rp req) res.2).
Proof.
  intros E req res. split; [reflexivity|].
  eapply (forward_request_response_is_last_read (E := E) 5 req [] 5).
  - unfold fan_out_ready, INT_MAX. simpl. lia.
  - vm_compute. reflexivity.
Defined.

Lemma forward_request_no_copies_witness :
  let E := scripted no_copies in
  let req := request_for 42 [1; 2; 3] in
  run (gateway_forward_request (E := E) 5 req) []
    = (Returned (0, req), [EvOidToNodes 42 0]).
Proof.
  intros E req.
  apply (forward_request_no_copies (E := E) 5 req []). reflexivity.
Defined.

Lemma forward_request_negative_copies_witness :
  let E := scripted negative_copies in
  let req := request_for 42 [1; 2; 3] in
  run (gateway_forward_request (E := E) 5 req) []
    = (Faulted, [EvOidToNodes 42 (-1)]).
Proof.
  intros E req.
  apply (forward_request_negative_copies (E := E) 5 req []).
  - unfold INT_MIN. simpl. lia.
  - unfold INT_MAX. simpl. lia.
Defined.

(** The local read fails with 3; the remote read that follows succeeds. *)
Lemma read_returns_last_read_witness :
  let E := scripted local_store_broken in
  let req := request_for 42 [1; 0; 2] in
  let res := run (gateway_read_obj (E := E) req) [] in
  read_rets res.2 = [3; 0] ∧
  0 = default 0 (list.last (read_rets res.2)) ∧
  ∀ (k : nat) c, read_rets res.2 !! k = Some c →
                 (S k < length (read_rets res.2))%nat → c ≠ 0.
Proof.
  intros E req res. split; [reflexivity|].
  eapply (read_returns_last_read (E := E) req []).
  - reflexivity.
  - vm_compute. reflexivity.
Defined.

Lemma pfd_info_init_collects_pending_witness :
  pfd_info_init two_pending
    = Some {| pi_pfds := [pfd (session_entry 1); pfd (session_entry 2)];
              pi_nr := 2 |}.
Proof.
  assert (0 ≤ nr_sent two_pending) as Hn by (simpl; lia).
  pose proof (pfd_info_init_collects_pending two_pending Hn) as Hinit.
  rewrite decide_True in Hinit by (simpl; lia). exact Hinit.
Defined.

Lemma finish_entry_puts_or_evicts_witness :
  ∃ fi',
    pending fi' = [session_entry 1] ∧ nr_sent fi' = 1 ∧
    run (finish_one_entry two_pending 1) []
      = (Returned fi', [release (session_entry 2)]) ∧
    run (finish_one_entry_err two_pending 1) []
      = (Returned fi', [evict (session_entry 2)]).
Proof.
  apply (finish_entry_puts_or_evicts two_pending 1 (session_entry 2) []).
  - exact two_pending_wf.
  - reflexivity.
Defined.

Lemma entry_points_account_for_connections_witness :
  let E := scripted second_send_fails in
  let evs := (run (gateway_write_obj (E := E) 5 (request_for 42 [1; 2; 3])) []).2 in
  acquired evs ≡ₚ released evs ++ failed_sends evs ∧
  evicted_nodes evs = fst <$> failed_sends evs.
Proof.
  intros E evs.
  destruct (entry_points_account_for_connections (E := E)
              (gateway_write_obj (E := E)) 5 (request_for 42 [1; 2; 3]) []
              134 (request_for 42 [1; 2; 3]) evs) as (Hacc & Hnodes & _).
  - apply list_elem_of_here.
  - exact second_send_fails_ready.
  - vm_compute. reflexivity.
  - split; [exact Hacc | exact Hnodes].
Defined.

Lemma wait_forward_request_summary_witness :
  let E := scripted two_errors in
  let res := run (wait_forward_request (E := E) 5 two_pending
                    (request_for 42 [1; 2])) [] in
  res.1 = Returned (7, set_rp (request_for 42 [1; 2]) (reply 7)) ∧
  7 = session_error (E := E) 0 res.2 ∧
  released res.2 ≡ₚ conn <$> pending two_pending.
Proof.
  intros E res. split; [reflexivity|].
  eapply (wait_forward_request_summary (E := E) 5 two_pending
            (request_for 42 [1; 2]) []).
  - exact two_pending_wf.
  - simpl. lia.
  - vm_compute. reflexivity.
Defined.

(** The waiter keeps the result code in an [int]: the result code
    [0xffffffff] of the first replica comes back as -1, while the response
    buffer holds the header read last. *)
Example all_ones_result_reads_as_minus_one :
  (run (wait_forward_request (E := scripted all_ones_result) 5 two_pending
          (request_for 42 [1; 2])) []).1
    = Returned (-1, set_rp (request_for 42 [1; 2]) (reply 0)).
Proof. vm_compute. reflexivity. Qed.

Lemma wait_gives_up_after_budget_witness :
  ∃ evs,
    run (wait_forward_request (E := never_ready) 3 two_pending
           (request_for 42 [1; 2])) []
      = (Returned (134, request_for 42 [1; 2]),
         evs ++ (evict <$> pending two_pending)) ∧
    length evs = 6%nat ∧ released evs = [] ∧
    length (filter poll_call evs) = 3%nat ∧
    length (filter retry_call evs) = 3%nat.
Proof.
  apply (wait_gives_up_after_budget (E := never_ready) two_pending
           (request_for 42 [1; 2]) []).
  - exact two_pending_wf.
  - unfold INT_MAX. simpl. lia.
  - reflexivity.
  - reflexivity.
Defined.

(** Three replicas, none of them local, offset 1: the pass starts at the
    second one. *)
Lemma read_remote_loop_cyclic_witness :
  let E := scripted healthy in
  let req := request_for 42 [1; 2; 3] in
  let vs := mk_vnode <$> [1; 2; 3] in
  run (read_remote_loop (E := E) 3 0 1 3 vs req 0) [] =
  run (read_fallback_spec (E := E) [mk_vnode 2; mk_vnode 3; mk_vnode 1] req 0) [].
Proof.
  intros E req vs.
  apply (read_remote_loop_cyclic (E := E) 3 0 3 1 vs req 0 []).
  - reflexivity.
  - simpl. lia.
  - lia.
  - unfold INT_MAX. simpl. lia.
Defined.

End FurtherOnTheCluster.
